(** * The settlement aggregation and geocoding pipeline of [mapScraper]

    A shallow embedding of [mapScraper/settlements.py], of the grid
    transformations of [mapScraper/ireland_bounds.py], of the export of
    [mapScraper/transform_settlements.py] and of the analysis of
    [mapScraper/analyze_missing_settlements.py].

    Conventions of the embedding:
    - a settlement is a Python dict; its optional keys are [option] fields;
    - Python [int] is [Z]; a Python [float] that only serves as a float
      (coordinates, rates, percentages) is idealised as an exact rational
      ([Q]); a float that is rounded back to an [int] (the proportional
      shares of a population) is an IEEE 754 binary64 number with the
      roundings of its operations ([SpecFloat]), and [round] is
      round-half-to-even on its value;
    - Python [str] is [string] (ASCII);
    - a raised exception is the [Raise] branch of [result];
    - the [locations] dict is a [gmap]; the insertion-ordered
      [defaultdict(list)] of the pregrouper is an association list;
    - the haversine distance and the geocoding service are parameters. *)

From Stdlib Require Import ZArith QArith Qround Qabs Qpower Lqa String Ascii List Lia
  Permutation.
From Stdlib Require SpecFloat.
From stdpp Require Import gmap strings list sorting.

Set Warnings "-clear-no-such-hyp".

Local Open Scope string_scope.
Local Open Scope list_scope.
Local Open Scope Z_scope.

(* ===================================================================== *)
(** ** Exceptions *)
(* ===================================================================== *)

Inductive exn : Type :=
| KeyError (key : string)
| ZeroDivisionError
| ValueError
| IndexError
| RuntimeError
| OverflowError
| SystemExit (code : Z).

Inductive result (A : Type) : Type :=
| Ok (a : A)
| Raise (e : exn).
Arguments Ok {A} a.
Arguments Raise {A} e.

Definition rbind {A B} (r : result A) (k : A -> result B) : result B :=
  match r with
  | Ok a => k a
  | Raise e => Raise e
  end.

Notation "'let*' x ':=' r 'in' k" := (rbind r (fun x => k))
  (at level 10, x pattern, r at level 100, k at level 200).

Fixpoint mapM {A B} (f : A -> result B) (l : list A) : result (list B) :=
  match l with
  | [] => Ok []
  | x :: l' =>
      let* y := f x in
      let* ys := mapM f l' in
      Ok (y :: ys)
  end.

(* ===================================================================== *)
(** ** Strings: [str.split(',')] and [str.strip()] *)
(* ===================================================================== *)

Module Str.

(** [s.split(c)]: always at least one part. *)
Fixpoint split (c : ascii) (s : string) : list string :=
  match s with
  | EmptyString => [EmptyString]
  | String a s' =>
      if Ascii.eqb a c then EmptyString :: split c s'
      else match split c s' with
           | p :: ps => String a p :: ps
           | [] => [String a EmptyString]
           end
  end.

(** ASCII characters for which [str.isspace] holds. *)
Definition is_space (a : ascii) : bool :=
  let n := nat_of_ascii a in
  ((9 <=? n) && (n <=? 13) || (28 <=? n) && (n <=? 32))%nat.

Fixpoint lstrip (s : string) : string :=
  match s with
  | EmptyString => EmptyString
  | String a s' => if is_space a then lstrip s' else s
  end.

Fixpoint rstrip (s : string) : string :=
  match s with
  | EmptyString => EmptyString
  | String a s' =>
      match rstrip s' with
      | EmptyString => if is_space a then EmptyString else String a EmptyString
      | r => String a r
      end
  end.

Definition strip (s : string) : string := rstrip (lstrip s).

Fixpoint contains (c : ascii) (s : string) : bool :=
  match s with
  | EmptyString => false
  | String a s' => Ascii.eqb a c || contains c s'
  end.

(** The text after the first occurrence of [c] ([None] without one). *)
Fixpoint after_first (c : ascii) (s : string) : option string :=
  match s with
  | EmptyString => None
  | String a s' => if Ascii.eqb a c then Some s' else after_first c s'
  end.

End Str.

Definition comma : ascii := ","%char.

(* ===================================================================== *)
(** ** Settlement records *)
(* ===================================================================== *)

Record settlement : Type := mkSettlement {
  name : string;
  population : Z;
  lat : option Q;
  lon : option Q;
  grid_x : option Q;
  grid_y : option Q;
  constituent_settlements : option (list string)
}.

(** A record as read from the census table: name and population only. *)
Definition leaf (n : string) (p : Z) : settlement :=
  mkSettlement n p None None None None None.

Definition sum_population (l : list settlement) : Z :=
  fold_right (fun s acc => population s + acc) 0 l.

(** [s['lat']], [s['lon']]: [KeyError] on a dict without the key. *)
Definition get_lat (s : settlement) : result Q :=
  match lat s with Some x => Ok x | None => Raise (KeyError "lat") end.

Definition get_lon (s : settlement) : result Q :=
  match lon s with Some x => Ok x | None => Raise (KeyError "lon") end.

(** [get_admin_region]: the second comma-separated part, stripped. *)
Definition get_admin_region (n : string) : string :=
  match map Str.strip (Str.split comma n) with
  | _ :: r :: _ => r
  | _ => ""
  end.

(* ===================================================================== *)
(** ** [sorted(..., key=population, reverse=True)], [max], [dict.fromkeys] *)
(* ===================================================================== *)

(** Stable insertion: [x] goes in front of the first element whose
    population does not exceed its own. *)
Fixpoint insert_desc (x : settlement) (l : list settlement) : list settlement :=
  match l with
  | [] => [x]
  | y :: l' =>
      if population x <? population y then y :: insert_desc x l'
      else x :: l
  end.

(** The stable descending sort (Python's sort is stable, also with
    [reverse=True]). *)
Definition sort_desc (l : list settlement) : list settlement :=
  fold_right insert_desc [] l.

(** [max(group, key=population)] from a first candidate: the first
    element of greatest population. *)
Definition max_from (best : settlement) (l : list settlement) : settlement :=
  fold_left (fun b s => if population b <? population s then s else b) l best.

Definition max_by_population (l : list settlement) : result settlement :=
  match l with
  | [] => Raise ValueError
  | x :: l' => Ok (max_from x l')
  end.

(** [list(dict.fromkeys(l))]: keys enter the dict in order, a key already
    present keeps its place. *)
Definition fromkeys (l : list string) : list string :=
  fold_left (fun acc x => if decide (x ∈ acc) then acc else acc ++ [x]) l [].

(** The names a group hands to its merged record: every member's name
    followed by that member's own constituents, when it has the key. *)
Definition listed_names (s : settlement) : list string :=
  name s :: match constituent_settlements s with
            | Some cs => cs
            | None => []
            end.

Definition collect_constituents (group : list settlement) : list string :=
  fromkeys (flat_map listed_names group).

(** Rounding to the nearest integer, ties to the even one. *)
Definition round_half_even (q : Q) : Z :=
  let f := Qfloor q in
  match Qcompare (q - inject_Z f) (1 # 2) with
  | Lt => f
  | Gt => f + 1
  | Eq => if Z.even f then f else f + 1
  end.

(** Python's [/]: [ZeroDivisionError] on a zero divisor. *)
Definition py_div (a : Q) (b : Z) : result Q :=
  if b =? 0 then Raise ZeroDivisionError else Ok (a / inject_Z b)%Q.

Definition set_population (s : settlement) (p : Z) : settlement :=
  mkSettlement (name s) p (lat s) (lon s) (grid_x s) (grid_y s)
               (constituent_settlements s).

(* ===================================================================== *)
(** ** Floats that are rounded back to integers *)
(* ===================================================================== *)

(** A Python [float]: IEEE 754 binary64, 53 bits of mantissa. *)
Definition float64 : Type := SpecFloat.spec_float.

(** An [int] as an operand that has not been rounded: its absolute
    value as mantissa, exponent 0. *)
Definition exact_int (z : Z) : float64 :=
  match z with
  | Z0 => SpecFloat.S754_zero false
  | Zpos m => SpecFloat.S754_finite false m 0
  | Zneg m => SpecFloat.S754_finite true m 0
  end.

(** [a / b] on two [int]s: the quotient, rounded once to the nearest
    float (ties to even); [ZeroDivisionError] on a zero divisor,
    [OverflowError] when the quotient is too large for a float. *)
Definition int_truediv (a b : Z) : result float64 :=
  if b =? 0 then Raise ZeroDivisionError
  else match SpecFloat.SFdiv 53 1024 (exact_int a) (exact_int b) with
       | SpecFloat.S754_infinity _ => Raise OverflowError
       | q => Ok q
       end.

(** The conversion of the [int] operand of [int * float]: the nearest
    float (ties to even); [OverflowError] when it is too large. *)
Definition int_to_float (z : Z) : result float64 :=
  match SpecFloat.binary_normalize 53 1024 z 0 false with
  | SpecFloat.S754_infinity _ => Raise OverflowError
  | x => Ok x
  end.

(** [x * y] on two floats; too large a product is an infinity. *)
Definition float_mul (x y : float64) : float64 := SpecFloat.SFmul 53 1024 x y.

(** The rational a finite float stands for: sign, mantissa [m] and
    exponent [e] are [m * 2^e], negated when the sign is set. *)
Definition float_value (x : float64) : Q :=
  match x with
  | SpecFloat.S754_finite s m e =>
      ((if s then -1 else 1) * inject_Z (Zpos m) * 2 ^ e)%Q
  | _ => 0%Q
  end.

(** [round(x)] on a float: the nearest integer, ties to the even one;
    [OverflowError] on an infinity, [ValueError] on a NaN. *)
Definition round_float (x : float64) : result Z :=
  match x with
  | SpecFloat.S754_infinity _ => Raise OverflowError
  | SpecFloat.S754_nan => Raise ValueError
  | _ => Ok (round_half_even (float_value x))
  end.

(* ===================================================================== *)
(** ** The population pregrouper: [pregroup_small_settlements] *)
(* ===================================================================== *)

(** [admin_regions[k].append(s)] on a [defaultdict(list)]; a new key is
    added at the end, so [items()] runs in order of first appearance. *)
Fixpoint dd_append (d : list (string * list settlement)) (k : string)
    (s : settlement) : list (string * list settlement) :=
  match d with
  | [] => [(k, [s])]
  | (k', l) :: d' =>
      if decide (k' = k) then (k', l ++ [s]) :: d'
      else (k', l) :: dd_append d' k s
  end.

Definition by_admin_region (remaining : list settlement)
  : list (string * list settlement) :=
  fold_left (fun d s => dd_append d (get_admin_region (name s)) s) remaining [].

(** What one round of the [while region_settlements] loop appends to
    [result]: the group is [current :: others]; a group of one is the
    record [current] itself. *)
Definition emit_group (current : settlement) (others : list settlement)
    (total_pop : Z) : settlement :=
  match others with
  | [] => current
  | _ :: _ =>
      mkSettlement (name (max_from current others)) total_pop
                   None None None None
                   (Some (collect_constituents (current :: others)))
  end.

Section RegionLoop.
Variable min_population : Z.
(** The rest of the outer loop, run on what the inner loop leaves. *)
Variable continue : list settlement -> list settlement.

(** The inner [while i < len(region_settlements)] loop ([i] stays 0)
    followed by the emission of the group. *)
Fixpoint grow_group (current : settlement) (others : list settlement)
    (total_pop : Z) (region_settlements : list settlement)
    {struct region_settlements} : list settlement :=
  match region_settlements with
  | [] => [emit_group current others total_pop]
  | s :: rest =>
      if min_population <=? total_pop
      then emit_group current others total_pop :: continue region_settlements
      else grow_group current (others ++ [s]) (total_pop + population s) rest
  end.
End RegionLoop.

(** The [while region_settlements] loop of one administrative region. *)
Fixpoint process_region (min_population : Z)
    (region_settlements : list settlement) : list settlement :=
  match region_settlements with
  | [] => []
  | current :: rest =>
      grow_group min_population (process_region min_population)
                 current [] (population current) rest
  end.

(** The proportional redistribution of a population difference. *)
Definition redistribute (population_difference : Z) (res : list settlement)
  : result (list settlement) :=
  let total_result_population := sum_population res in
  mapM (fun s =>
          let* proportion := int_truediv (population s) total_result_population in
          let* difference := int_to_float population_difference in
          let* share := round_float (float_mul difference proportion) in
          Ok (set_population s (population s + share)))
       res.

Definition pregroup_small_settlements (settlements : list settlement)
    (min_population max_settlements : Z) : result (list settlement) :=
  let settlements_by_pop := sort_desc settlements in
  let total_initial_population := sum_population settlements in
  if Z.of_nat (length settlements) <=? max_settlements then Ok settlements
  else
    let kept := filter (fun s => min_population <= population s) settlements_by_pop in
    let remaining := filter (fun s => population s < min_population) settlements_by_pop in
    let admin_regions := by_admin_region remaining in
    let res :=
      kept ++ flat_map (fun kv => process_region min_population (sort_desc (snd kv)))
                       admin_regions in
    let total_final_population := sum_population res in
    let population_difference := total_initial_population - total_final_population in
    if 0 <? Z.abs population_difference
    then redistribute population_difference res
    else Ok res.

(** The call of the orchestrator: both parameters at their default. *)
Definition pregroup_default (settlements : list settlement)
  : result (list settlement) :=
  pregroup_small_settlements settlements 1000 1000.

(* ===================================================================== *)
(** ** The spatial clusterer: [group_settlements] *)
(* ===================================================================== *)

Section Clusterer.
(** [calculate_distance]: the haversine distance in kilometres between
    two (lat, lon) points. *)
Variable calculate_distance : Q * Q -> Q * Q -> Q.
Variable max_distance : Q.

(** [calculate_distance((s.lat, s.lon), (s2.lat, s2.lon)) <= max_distance] *)
Definition within (s settlement2 : settlement) : result bool :=
  let* lat1 := get_lat s in
  let* lon1 := get_lon s in
  let* lat2 := get_lat settlement2 in
  let* lon2 := get_lon settlement2 in
  Ok (Qle_bool (calculate_distance (lat1, lon1) (lat2, lon2)) max_distance).

(** The [for s in group] loop: does some member lie within reach? *)
Fixpoint near_group (group : list settlement) (settlement2 : settlement)
  : result bool :=
  match group with
  | [] => Ok false
  | s :: group' =>
      let* hit := within s settlement2 in
      if hit then Ok true else near_group group' settlement2
  end.

(** The inner [for j, settlement2 in enumerate(sorted_settlements)]. *)
Fixpoint scan (admin_region1 : string) (items : list (nat * settlement))
    (group : list settlement) (used : gset nat)
  : result (list settlement * gset nat) :=
  match items with
  | [] => Ok (group, used)
  | (j, settlement2) :: items' =>
      if decide (j ∈ used) then scan admin_region1 items' group used
      else if decide (admin_region1 = get_admin_region (name settlement2))
      then
        let* hit := near_group group settlement2 in
        if hit
        then scan admin_region1 items' (group ++ [settlement2]) ({[j]} ∪ used)
        else scan admin_region1 items' group used
      else scan admin_region1 items' group used
  end.

(** The outer [for i, settlement1 in enumerate(sorted_settlements)];
    [all] is the whole enumeration, scanned afresh for every seed. *)
Fixpoint seed_groups (all items : list (nat * settlement)) (used : gset nat)
  : result (list (list settlement)) :=
  match items with
  | [] => Ok []
  | (i, settlement1) :: items' =>
      if decide (i ∈ used) then seed_groups all items' used
      else
        let* gu := scan (get_admin_region (name settlement1)) all
                        [settlement1] ({[i]} ∪ used) in
        let* groups := seed_groups all items' (snd gu) in
        Ok (fst gu :: groups)
  end.

Definition enumerate (l : list settlement) : list (nat * settlement) :=
  imap (fun i s => (i, s)) l.

Definition group_settlements (settlements : list settlement)
  : result (list (list settlement)) :=
  let sorted_settlements := sort_desc settlements in
  seed_groups (enumerate sorted_settlements) (enumerate sorted_settlements) ∅.
End Clusterer.

(* ===================================================================== *)
(** ** The settlement merger: [process_settlement_group] *)
(* ===================================================================== *)

(** [sum(get(s) * s['population'] for s in group)], from the left. *)
Fixpoint sum_weighted (get : settlement -> result Q) (acc : Q)
    (group : list settlement) : result Q :=
  match group with
  | [] => Ok acc
  | s :: group' =>
      let* x := get s in
      sum_weighted get (acc + x * inject_Z (population s))%Q group'
  end.

Definition process_settlement_group (group : list settlement) : result settlement :=
  let total_pop := sum_population group in
  let* lat_sum := sum_weighted get_lat 0%Q group in
  let* weighted_lat := py_div lat_sum total_pop in
  let* lon_sum := sum_weighted get_lon 0%Q group in
  let* weighted_lon := py_div lon_sum total_pop in
  let* main_settlement := max_by_population group in
  Ok (mkSettlement (name main_settlement) total_pop
                   (Some weighted_lat) (Some weighted_lon) None None
                   (Some (collect_constituents group))).

(* ===================================================================== *)
(** ** The grid transformations *)
(* ===================================================================== *)

Record bbox : Type := mkBbox {
  min_lat : Q; max_lat : Q; min_lon : Q; max_lon : Q
}.

(** [IRELAND_BBOX] of [ireland_bounds.py]. *)
Definition IRELAND_BBOX : bbox :=
  mkBbox (514 # 10) (554 # 10) (- (106 # 10)) (- (59 # 10)).

Definition in_bbox (b : bbox) (la lo : Q) : Prop :=
  (min_lat b <= la /\ la <= max_lat b /\ min_lon b <= lo /\ lo <= max_lon b)%Q.

Record grid_transformation : Type := mkTransform {
  origin : Q * Q;
  scale : Q * Q
}.

(** [ireland_bounds.py]: the transformation the orchestrator imports. *)
Module IrelandBounds.

Definition calculate_grid_transformation : grid_transformation :=
  let lon_range := (max_lon IRELAND_BBOX - min_lon IRELAND_BBOX)%Q in
  let lat_range := (max_lat IRELAND_BBOX - min_lat IRELAND_BBOX)%Q in
  let scale_x := (50000 / lon_range)%Q in
  let scale_y := (50000 / lat_range)%Q in
  mkTransform (min_lon IRELAND_BBOX, min_lat IRELAND_BBOX) (scale_x, scale_y).

(** Takes (lon, lat) pairs. *)
Definition transform_coordinates (coords : list (Q * Q))
    (transform : grid_transformation) : list (Q * Q) :=
  map (fun c =>
         let x := ((fst c - fst (origin transform)) * fst (scale transform))%Q in
         let y := ((snd c - snd (origin transform)) * snd (scale transform))%Q in
         (x, y))
      coords.

End IrelandBounds.

(** [transform_settlements.py]: the exporter's own transformation. *)
Module TransformSettlements.

Definition transform_coordinates (la lo : Q) : Q * Q :=
  let lat_range := (max_lat IRELAND_BBOX - min_lat IRELAND_BBOX)%Q in
  let lon_range := (max_lon IRELAND_BBOX - min_lon IRELAND_BBOX)%Q in
  let lat_percent := ((la - min_lat IRELAND_BBOX) / lat_range)%Q in
  let lon_percent := ((lo - min_lon IRELAND_BBOX) / lon_range)%Q in
  let x := (lon_percent * 100000)%Q in
  let y := (lat_percent * 100000)%Q in
  (x, y).

End TransformSettlements.

(** The loop body of the orchestrator that sets [grid_x] and [grid_y]. *)
Definition set_grid (transform : grid_transformation) (s : settlement)
  : result settlement :=
  let* lo := get_lon s in
  let* la := get_lat s in
  match IrelandBounds.transform_coordinates [(lo, la)] transform with
  | grid_coords :: _ =>
      Ok (mkSettlement (name s) (population s) (lat s) (lon s)
                       (Some (fst grid_coords)) (Some (snd grid_coords))
                       (constituent_settlements s))
  | [] => Raise IndexError
  end.

(* ===================================================================== *)
(** ** Datasets, checkpoints and the world the pipeline runs in *)
(* ===================================================================== *)

Record dataset_metadata : Type := mkMetadata {
  total_population : Z;
  total_settlements : Z;
  total_ireland_population : Z;
  grid_transform : grid_transformation;
  data_sources : string * string;
  unmatched_settlements : list string;
  failure_rate : Q
}.

Record dataset : Type := mkDataset {
  settlements : list settlement;
  metadata : dataset_metadata
}.

(** One pickle file per stage; [None] when the file does not exist. *)
Record checkpoints : Type := mkCheckpoints {
  cso_settlements_pickle : option (list settlement);
  grouped_settlements_pickle : option (list settlement);
  locations_pickle : option (gmap string (Q * Q));
  processed_settlements_pickle : option (list settlement * list string);
  final_settlements_pickle : option dataset
}.

Definition no_checkpoints : checkpoints :=
  mkCheckpoints None None None None None.

Record world : Type := mkWorld {
  checkpoint_dir : checkpoints;
  (** [../mapData/sourceData/settlements.json] *)
  settlements_json : option dataset;
  (** [unmatched_settlements.json] *)
  unmatched_settlements_json : option (list settlement);
  (** the names sent to the geocoding service so far, oldest first *)
  requests : list string
}.

Definition prog (A : Type) : Type := world -> result A * world.

Definition ret {A} (a : A) : prog A := fun w => (Ok a, w).
Definition raise {A} (e : exn) : prog A := fun w => (Raise e, w).
Definition lift {A} (r : result A) : prog A := fun w => (r, w).

Definition bind {A B} (c : prog A) (k : A -> prog B) : prog B :=
  fun w =>
    match c w with
    | (Ok a, w') => k a w'
    | (Raise e, w') => (Raise e, w')
    end.

Notation "'do' x <- c ; k" := (bind c (fun x => k))
  (at level 10, x pattern, c at level 100, k at level 200).

Definition load_checkpoint {A} (file : checkpoints -> option A) : prog (option A) :=
  fun w => (Ok (file (checkpoint_dir w)), w).

Definition update_checkpoints (f : checkpoints -> checkpoints) : prog unit :=
  fun w => (Ok tt, mkWorld (f (checkpoint_dir w)) (settlements_json w)
                           (unmatched_settlements_json w) (requests w)).

Definition save_cso_settlements (d : list settlement) : prog unit :=
  update_checkpoints (fun c =>
    mkCheckpoints (Some d) (grouped_settlements_pickle c) (locations_pickle c)
                  (processed_settlements_pickle c) (final_settlements_pickle c)).

Definition save_grouped_settlements (d : list settlement) : prog unit :=
  update_checkpoints (fun c =>
    mkCheckpoints (cso_settlements_pickle c) (Some d) (locations_pickle c)
                  (processed_settlements_pickle c) (final_settlements_pickle c)).

Definition save_locations (d : gmap string (Q * Q)) : prog unit :=
  update_checkpoints (fun c =>
    mkCheckpoints (cso_settlements_pickle c) (grouped_settlements_pickle c) (Some d)
                  (processed_settlements_pickle c) (final_settlements_pickle c)).

Definition save_processed_settlements (d : list settlement * list string) : prog unit :=
  update_checkpoints (fun c =>
    mkCheckpoints (cso_settlements_pickle c) (grouped_settlements_pickle c)
                  (locations_pickle c) (Some d) (final_settlements_pickle c)).

Definition save_final_settlements (d : dataset) : prog unit :=
  update_checkpoints (fun c =>
    mkCheckpoints (cso_settlements_pickle c) (grouped_settlements_pickle c)
                  (locations_pickle c) (processed_settlements_pickle c) (Some d)).

Definition clear_checkpoints : prog unit :=
  update_checkpoints (fun _ => no_checkpoints).

Definition save_unmatched_settlements (d : list settlement) : prog unit :=
  fun w => (Ok tt, mkWorld (checkpoint_dir w) (settlements_json w) (Some d) (requests w)).

Definition write_settlements_json (d : dataset) : prog unit :=
  fun w => (Ok tt, mkWorld (checkpoint_dir w) (Some d)
                           (unmatched_settlements_json w) (requests w)).

(** [names[i:i + n] for i in range(0, len(names), n)] *)
Fixpoint chunks_fuel (fuel n : nat) (l : list string) : list (list string) :=
  match fuel with
  | O => []
  | S fuel' =>
      match l with
      | [] => []
      | _ :: _ => take n l :: chunks_fuel fuel' n (drop n l)
      end
  end.

Definition chunks (n : nat) (l : list string) : list (list string) :=
  chunks_fuel (length l) n l.

(* ===================================================================== *)
(** ** The checkpointed geocode resolver: [fetch_locations_batch] *)
(* ===================================================================== *)

Section Pipeline.
(** Is [GOOGLE_MAPS_API_KEY] set? *)
Variable has_api_key : bool.
(** The geocoding service: its answer to a name, which may depend on
    the requests it has received before. [None] covers an empty
    answer and a transport error alike. *)
Variable geocode : list string -> string -> option (Q * Q).
Variable calculate_distance : Q * Q -> Q * Q -> Q.
(** [Population.csv] as [fetch_cso_settlements] reads it: the rows of
    statistic F1011C01 with a value; [None] for a missing file or a
    row that does not parse. *)
Variable population_csv : option (list settlement).
(** [missing_settlements_analysis.json]: name and population. *)
Variable missing_settlements : option (list (string * Z)).
(** [parse_args()] on the command line of the process: the value of
    [args.append], or the [SystemExit] that [argparse] raises (status 2
    on a command line it rejects, status 0 after printing the help). *)
Variable parse_args : result bool.

Definition fetch_google_maps_location (n : string) : prog (option (Q * Q)) :=
  fun w => (Ok (geocode (requests w) n),
            mkWorld (checkpoint_dir w) (settlements_json w)
                    (unmatched_settlements_json w) (requests w ++ [n])).

(** [for name in batch] *)
Fixpoint process_batch (batch : list string) (results : gmap string (Q * Q))
  : prog (gmap string (Q * Q)) :=
  match batch with
  | [] => ret results
  | n :: batch' =>
      do location <- fetch_google_maps_location n;
      process_batch batch'
        match location with
        | Some l => <[n := l]> results
        | None => results
        end
  end.

(** [for i in range(0, len(names_to_process), batch_size)] *)
Fixpoint process_batches (batches : list (list string))
    (results : gmap string (Q * Q)) : prog (gmap string (Q * Q)) :=
  match batches with
  | [] => ret results
  | batch :: batches' =>
      do results' <- process_batch batch results;
      do _ <- save_locations results';
      process_batches batches' results'
  end.

Definition fetch_locations_batch (names : list string) (batch_size : nat)
  : prog (gmap string (Q * Q)) :=
  if negb has_api_key then raise ValueError
  else
    do loaded <- load_checkpoint locations_pickle;
    let results := default ∅ loaded in
    let names_to_process := filter (fun n => results !! n = None) names in
    match names_to_process with
    | [] => ret results
    | _ :: _ =>
        match batch_size with
        | O => raise ZeroDivisionError
        | S _ => process_batches (chunks batch_size names_to_process) results
        end
    end.

(* =================================================================== *)
(** ** The pipeline orchestrator: [main] *)
(* =================================================================== *)

Definition fetch_cso_settlements : prog (list settlement) :=
  match population_csv with
  | None => raise (SystemExit 1)
  | Some [] => raise RuntimeError
  | Some (s :: l) => ret (s :: l)
  end.

Definition load_existing_settlements : prog (option dataset) :=
  fun w => (Ok (settlements_json w), w).

Definition load_missing_settlements : prog (list settlement) :=
  match missing_settlements with
  | None => raise (SystemExit 1)
  | Some l => ret (map (fun np => leaf (fst np) (snd np)) l)
  end.

(** [settlement.get('constituent_settlements', [settlement['name']])] *)
Definition constituents_or_name (s : settlement) : list string :=
  default [name s] (constituent_settlements s).

(** Stage 4: the settlements with coordinates, the names without, and
    the details of the latter. *)
Fixpoint attach_coordinates (locations : gmap string (Q * Q))
    (grouped : list settlement)
  : list settlement * list string * list settlement :=
  match grouped with
  | [] => ([], [], [])
  | s :: grouped' =>
      let '(found, not_found, not_found_details) :=
        attach_coordinates locations grouped' in
      match locations !! name s with
      | Some coords =>
          (mkSettlement (name s) (population s) (Some (fst coords))
                        (Some (snd coords)) None None
                        (Some (constituents_or_name s)) :: found,
           not_found, not_found_details)
      | None =>
          (found, name s :: not_found,
           mkSettlement (name s) (population s) None None None None
                        (Some (constituents_or_name s)) :: not_found_details)
      end
  end.

Definition len {A} (l : list A) : Z := Z.of_nat (length l).

(** [failure_rate > 0.1] *)
Definition high_failure_rate (failure_rate : Q) : bool :=
  negb (Qle_bool failure_rate (1 # 10)).

(** The unresolved-rate gate after stage 4. *)
Definition failure_gate (not_found settlement_names : list string) : prog unit :=
  match not_found with
  | [] => ret tt
  | _ :: _ =>
      do failure_rate <- lift (py_div (inject_Z (len not_found)) (len settlement_names));
      if high_failure_rate failure_rate then raise (SystemExit 1) else ret tt
  end.

(** The loop that takes the distributed population back from the
    existing settlements. *)
Definition undistribute (distributed_population original_total : Z)
    (existing : list settlement) : result (list settlement) :=
  mapM (fun s =>
          let* proportion := int_truediv (population s) original_total in
          let* distributed := int_to_float distributed_population in
          let* share := round_float (float_mul distributed proportion) in
          Ok (set_population s (population s - share)))
       existing.

Definition the_data_sources : string * string :=
  ("CSO Ireland Census 2022", "Google Maps").

(** The append branch of stage 5. *)
Definition combine_with_existing (existing_data : dataset)
    (final_settlements : list settlement) (transform : grid_transformation)
    (not_found settlement_names : list string) : result dataset :=
  let original_total := sum_population (settlements existing_data) in
  let new_total := sum_population final_settlements in
  let total_with_new := original_total + new_total in
  let distributed_population :=
    total_with_new - total_ireland_population (metadata existing_data) in
  let* existing_settlements :=
    (if 0 <? distributed_population
     then undistribute distributed_population original_total
                       (settlements existing_data)
     else Ok (settlements existing_data)) in
  let* rate := py_div (inject_Z (len not_found)) (len settlement_names) in
  Ok (mkDataset (existing_settlements ++ final_settlements)
        (mkMetadata
           (sum_population existing_settlements + sum_population final_settlements)
           (len existing_settlements + len final_settlements)
           (total_ireland_population (metadata existing_data))
           transform the_data_sources
           (unmatched_settlements (metadata existing_data) ++ not_found)
           rate)).

(** The other branch of stage 5. *)
Definition fresh_dataset (total_ireland : Z)
    (final_settlements : list settlement) (transform : grid_transformation)
    (not_found settlement_names : list string) : result dataset :=
  let* rate := py_div (inject_Z (len not_found)) (len settlement_names) in
  Ok (mkDataset final_settlements
        (mkMetadata (sum_population final_settlements) (len final_settlements)
                    total_ireland transform the_data_sources not_found rate)).

(** Stage 5 when no [final_settlements] checkpoint exists. *)
Definition finalize (existing_data : option dataset) (total_ireland : Z)
    (geocoded : list settlement) (not_found settlement_names : list string)
  : result dataset :=
  let* grouped_settlements := group_settlements calculate_distance 30%Q geocoded in
  let* final_settlements := mapM process_settlement_group grouped_settlements in
  let transform := IrelandBounds.calculate_grid_transformation in
  let* final_settlements := mapM (set_grid transform) final_settlements in
  match existing_data with
  | Some existing =>
      combine_with_existing existing final_settlements transform
                            not_found settlement_names
  | None =>
      fresh_dataset total_ireland final_settlements transform
                    not_found settlement_names
  end.

(** Stage 1, or in append mode the loading of the existing dataset and
    of the missing settlements. *)
Definition stage_1 (append : bool) : prog (option dataset * list settlement) :=
  if append then
    do existing_data <- load_existing_settlements;
    match existing_data with
    | None => raise (SystemExit 1)
    | Some existing =>
        do cso_settlements <- load_missing_settlements;
        do _ <- clear_checkpoints;
        ret (Some existing, cso_settlements)
    end
  else
    do loaded <- load_checkpoint cso_settlements_pickle;
    match loaded with
    | Some cso_settlements => ret (None, cso_settlements)
    | None =>
        do cso_settlements <- fetch_cso_settlements;
        do _ <- save_cso_settlements cso_settlements;
        ret (None, cso_settlements)
    end.

(** Stage 2: pre-group small settlements. *)
Definition stage_2 (cso_settlements : list settlement) : prog (list settlement) :=
  do loaded <- load_checkpoint grouped_settlements_pickle;
  match loaded with
  | Some grouped_cso_settlements => ret grouped_cso_settlements
  | None =>
      do grouped_cso_settlements <- lift (pregroup_default cso_settlements);
      do _ <- save_grouped_settlements grouped_cso_settlements;
      ret grouped_cso_settlements
  end.

(** Stage 4: attach the coordinates, save, and pass the gate. *)
Definition stage_4 (grouped_cso_settlements : list settlement)
    (locations : gmap string (Q * Q)) : prog (list settlement * list string) :=
  let '(geocoded, not_found, not_found_details) :=
    attach_coordinates locations grouped_cso_settlements in
  do _ <- save_processed_settlements (geocoded, not_found);
  do _ <- match not_found_details with
          | [] => ret tt
          | _ :: _ => save_unmatched_settlements not_found_details
          end;
  do _ <- failure_gate not_found (map name grouped_cso_settlements);
  match geocoded with
  | [] => raise (SystemExit 1)
  | _ :: _ => ret (geocoded, not_found)
  end.

(** Stage 5, the final output and the cleanup. *)
Definition stage_5 (existing_data : option dataset) (total_ireland : Z)
    (geocoded : list settlement) (not_found settlement_names : list string)
  : prog unit :=
  do loaded <- load_checkpoint final_settlements_pickle;
  do final_data <-
    match loaded with
    | Some d => ret d
    | None =>
        do d <- lift (finalize existing_data total_ireland geocoded
                               not_found settlement_names);
        do _ <- save_final_settlements d;
        ret d
    end;
  do _ <- write_settlements_json final_data;
  if high_failure_rate (failure_rate (metadata final_data))
  then ret tt
  else clear_checkpoints.

(** The body of the [try] block of [main]. *)
Definition main_body (append : bool) : prog unit :=
  if negb has_api_key then raise (SystemExit 1)
  else
    do start <- stage_1 append;
    let existing_data := fst start in
    let cso_settlements := snd start in
    let total_ireland := sum_population cso_settlements in
    do grouped_cso_settlements <- stage_2 cso_settlements;
    (* Stage 3 *)
    let settlement_names := map name grouped_cso_settlements in
    do locations <- fetch_locations_batch settlement_names 50;
    do found <- stage_4 grouped_cso_settlements locations;
    stage_5 existing_data total_ireland (fst found) (snd found) settlement_names.

(** [args = parse_args()] stands before the [try]: what it raises ends
    the process as it is. Inside the [try],
    [except Exception: raise SystemExit(1)]; a [SystemExit] is not an
    [Exception] and passes through. *)
Definition main : prog unit :=
  do args <- lift parse_args;
  fun w =>
    match main_body args w with
    | (Ok tt, w') => (Ok tt, w')
    | (Raise (SystemExit c), w') => (Raise (SystemExit c), w')
    | (Raise _, w') => (Raise (SystemExit 1), w')
    end.

(** The exit status of the process. *)
Definition exit_status (r : result unit) : Z :=
  match r with
  | Ok _ => 0
  | Raise (SystemExit c) => c
  | Raise _ => 1
  end.

End Pipeline.

(* ===================================================================== *)
(** ** The search text sent to the geocoder: [clean_search_name] *)
(* ===================================================================== *)

Module Text.

(** [s.replace(old, new)] for a non-empty [old]: the occurrences of
    [old] are found from the left and do not overlap; [skip] counts the
    characters of a replaced occurrence still to be passed over. *)
Fixpoint replace_from (old new : string) (skip : nat) (s : string) : string :=
  match s with
  | EmptyString => EmptyString
  | String a s' =>
      match skip with
      | S k => replace_from old new k s'
      | O =>
          if String.prefix old (String a s')
          then (new ++ replace_from old new (String.length old - 1) s')%string
          else String a (replace_from old new 0 s')
      end
  end.

Definition replace (old new s : string) : string := replace_from old new 0 s.

(** [s.split()]: the maximal runs of characters that are not white
    space; [cur] is the run being read. *)
Fixpoint words_from (cur s : string) : list string :=
  match s with
  | EmptyString => match cur with EmptyString => [] | _ => [cur] end
  | String a s' =>
      if Str.is_space a
      then match cur with
           | EmptyString => words_from EmptyString s'
           | _ => cur :: words_from EmptyString s'
           end
      else words_from (cur ++ String a EmptyString)%string s'
  end.

Definition words (s : string) : list string := words_from EmptyString s.

(** [sep.join(l)] *)
Fixpoint join (sep : string) (l : list string) : string :=
  match l with
  | [] => EmptyString
  | [x] => x
  | x :: l' => (x ++ sep ++ join sep l')%string
  end.

End Text.

(** The qualifiers [clean_search_name] removes, in the order of its
    chain of [replace] calls. *)
Definition search_qualifiers : list string :=
  ["-Blakestown"; "-Esker"; "-Knockmaroon"; "Rural"; "Urban";
   "/Monkstown Rural/Douglas"; "(South)"; "(North)"; "(East)"; "(West)"].

Definition clean_search_name (n : string) : string :=
  let parts := map Str.strip (Str.split comma n) in
  let name0 := match parts with p :: _ => p | [] => "" end in
  let admin_region := match parts with _ :: r :: _ => r | _ => "" end in
  let name1 := fold_left (fun acc old => Text.replace old "" acc)
                         search_qualifiers name0 in
  let name2 :=
    Text.join " "
      (List.filter (fun part => negb (Str.contains "("%char part)
                                && negb (Str.contains ")"%char part))
                   (Text.words name1)) in
  match admin_region with
  | EmptyString => Str.strip name2
  | _ => (Str.strip name2 ++ ", " ++ admin_region)%string
  end.

(** The [textQuery] of the request of [fetch_google_maps_location]. *)
Definition search_query (n : string) : string :=
  (clean_search_name n ++ ", Ireland")%string.

(* ===================================================================== *)
(** ** [analyze_missing_settlements.py]: the census names absent from
       the dataset *)
(* ===================================================================== *)

Module AnalyzeMissing.

(** [load_json_settlements]: the set of all constituent names of
    [settlements.json]; [None] is a missing file. *)
Definition load_json_settlements (file : option dataset) : result (gset string) :=
  match file with
  | None => Raise (SystemExit 1)
  | Some data =>
      let* lists :=
        mapM (fun s => match constituent_settlements s with
                       | Some cs => Ok cs
                       | None => Raise (KeyError "constituent_settlements")
                       end)
             (settlements data) in
      Ok (list_to_set (concat lists))
  end.

(** [d[k] = v] on a dict: a key already present keeps its place. *)
Fixpoint dict_set (d : list (string * Z)) (k : string) (v : Z)
  : list (string * Z) :=
  match d with
  | [] => [(k, v)]
  | (k', v') :: d' =>
      if decide (k' = k) then (k', v) :: d'
      else (k', v') :: dict_set d' k v
  end.

(** [load_csv_settlements]: the dict from name to population; the file
    is given by its rows of statistic F1011C01 with a value (name
    stripped, value rounded), [None] is a missing file. *)
Definition load_csv_settlements (file : option (list (string * Z)))
  : result (list (string * Z)) :=
  match file with
  | None => Raise (SystemExit 1)
  | Some rows => Ok (fold_left (fun d r => dict_set d (fst r) (snd r)) rows [])
  end.

(** [parts[1].strip() if len(parts) > 1 else 'Unknown'] *)
Definition region_key (n : string) : string :=
  match Str.split comma n with
  | _ :: r :: _ => Str.strip r
  | _ => "Unknown"
  end.

(** [missing_by_region[k].append(x)] on a [defaultdict(list)]. *)
Fixpoint region_append (d : list (string * list (string * Z))) (k : string)
    (x : string * Z) : list (string * list (string * Z)) :=
  match d with
  | [] => [(k, [x])]
  | (k', l) :: d' =>
      if decide (k' = k) then (k', l ++ [x]) :: d'
      else (k', l) :: region_append d' k x
  end.

Record analysis_metadata : Type := mkAnalysisMetadata {
  total_missing : Z;
  total_missing_population : Z;
  total_settlements_csv : Z;
  total_settlements_json : Z;
  percentage_missing : Q
}.

Record analysis : Type := mkAnalysis {
  missing_settlements : list (string * Z);
  missing_by_region : list (string * list (string * Z));
  metadata : analysis_metadata
}.

(** The data written to [missing_settlements_analysis.json]. *)
Definition analyze_missing_settlements (json_file : option dataset)
    (csv_file : option (list (string * Z))) : result analysis :=
  let* json_settlements := load_json_settlements json_file in
  let* csv_settlements := load_csv_settlements csv_file in
  let missing := filter (fun np => fst np ∉ json_settlements) csv_settlements in
  let missing_population := fold_left (fun acc np => acc + snd np) missing 0 in
  let by_region :=
    fold_left (fun d np => region_append d (region_key (fst np)) np) missing [] in
  let* ratio := py_div (inject_Z (len missing)) (len csv_settlements) in
  Ok (mkAnalysis missing by_region
        (mkAnalysisMetadata (len missing) missing_population
                            (len csv_settlements)
                            (Z.of_nat (size json_settlements))
                            (ratio * 100)%Q)).

End AnalyzeMissing.

(* ===================================================================== *)
(** ** [transform_settlements.py]: the export of the dataset *)
(* ===================================================================== *)

Module Exporter.

(** The qualifiers [clean_settlement_name] removes, in the order of its
    [replacements] dict. *)
Definition replacements : list string :=
  [" Urban"; " Rural"; " Town"; " Village"; " ED";
   " (North)"; " (South)"; " (East)"; " (West)"].

Definition clean_settlement_name (n : string) : string :=
  let name0 := Str.strip match Str.split comma n with
                         | p :: _ => p
                         | [] => ""
                         end in
  Str.strip (fold_left (fun acc old => Text.replace old "" acc) replacements name0).

(** [(population * 1.67) / 1000], in MW. *)
Definition calculate_power_usage (p : Z) : Q :=
  (inject_Z p * (167 # 100) / 1000)%Q.

(** One exported settlement; [coordinate] is the pair of [x] and [y]. *)
Record exported : Type := mkExported {
  name : string;
  coordinate : Q * Q;
  population : Z;
  power_usage : Q
}.

(** The body of the [for settlement in data['settlements']] loop. *)
Definition export_settlement (s : settlement) : result exported :=
  let '(mkSettlement n p _ _ _ _ _) := s in
  let* la := get_lat s in
  let* lo := get_lon s in
  Ok (mkExported (clean_settlement_name n)
                 (TransformSettlements.transform_coordinates la lo)
                 p (calculate_power_usage p)).

(** The loop over the settlements of the dataset. *)
Definition export_all (data : dataset) : result (list exported) :=
  mapM export_settlement (settlements data).

(** [transformed.sort(key=population, reverse=True)], stable. *)
Fixpoint insert_desc (x : exported) (l : list exported) : list exported :=
  match l with
  | [] => [x]
  | y :: l' =>
      if population x <? population y then y :: insert_desc x l'
      else x :: l
  end.

Definition sort_desc (l : list exported) : list exported :=
  fold_right insert_desc [] l.

Record export_metadata : Type := mkExportMetadata {
  total_settlements : Z;
  total_population : Z;
  total_power_usage : Q;
  (** [min_x], [max_x], [min_y], [max_y] *)
  coordinate_system : Q * Q * Q * Q
}.

Record export : Type := mkExport {
  settlements : list exported;
  metadata : export_metadata
}.

(** What [transform_settlements] writes to [settlements_rust.json];
    [None] is a missing [settlements.json]. *)
Definition transform_settlements (file : option dataset) : result export :=
  match file with
  | None => Raise (SystemExit 1)
  | Some data =>
      let* transformed := export_all data in
      let transformed := sort_desc transformed in
      Ok (mkExport transformed
            (mkExportMetadata
               (len transformed)
               (fold_left (fun acc r => acc + population r) transformed 0)
               (fold_left (fun acc r => acc + power_usage r)%Q transformed 0%Q)
               (0%Q, 100000%Q, 0%Q, 100000%Q)))
  end.

End Exporter.

(* ===================================================================== *)
(** ** Vocabulary of the statements and example data *)
(* ===================================================================== *)

(** All the records filed in the dictionary. *)
Definition region_members (d : list (string * list settlement)) : list settlement :=
  flat_map snd d.

(** The grouped list before any redistribution. *)
Definition grouped_result (settlements : list settlement) (min_population : Z)
  : list settlement :=
  filter (fun s => min_population <= population s) (sort_desc settlements)
  ++ flat_map (fun kv => process_region min_population (sort_desc (snd kv)))
       (by_admin_region
          (filter (fun s => population s < min_population) (sort_desc settlements))).

(** [groups_of m rs out]: [out] is what the region loop emits on [rs]
    with floor [m]; each step cuts one group [current :: others] off the
    front of the list. *)
Inductive groups_of (m : Z) : list settlement -> list settlement -> Prop :=
| groups_nil : groups_of m [] []
| groups_last current others :
    groups_of m (current :: others)
      [emit_group current others (sum_population (current :: others))]
| groups_cons current others rest out :
    m <= sum_population (current :: others) ->
    rest <> [] ->
    groups_of m rest out ->
    groups_of m (current :: others ++ rest)
      (emit_group current others (sum_population (current :: others)) :: out).

(** The dictionary being filled, with the keys already in it. *)
Definition fromkeys_from (acc l : list string) : list string :=
  fold_left (fun acc x => if decide (x ∈ acc) then acc else acc ++ [x]) l acc.

(** Every name the record carries lies in region [r]. *)
Definition pure_in (r : string) (s : settlement) : Prop :=
  get_admin_region (name s) = r /\
  forall cs, constituent_settlements s = Some cs ->
             Forall (fun c => get_admin_region c = r) cs.

(** Every name the record carries lies in the region of its own name. *)
Definition region_pure (s : settlement) : Prop :=
  pure_in (get_admin_region (name s)) s.

(** The dictionary files every record under its own region, once. *)
Definition well_keyed (d : list (string * list settlement)) : Prop :=
  NoDup (map fst d) /\
  Forall (fun kv => Forall (fun s => get_admin_region (name s) = fst kv) (snd kv)) d.

(** The record has the keys [lat] and [lon]. *)
Definition has_coords (s : settlement) : Prop :=
  is_Some (lat s) /\ is_Some (lon s).

(** The population at the indices not yet used. *)
Fixpoint unused_sum (used : gset nat) (items : list (nat * settlement)) : Z :=
  match items with
  | [] => 0
  | (j, s) :: items' =>
      (if decide (j ∈ used) then 0 else population s) + unused_sum used items'
  end.

(** The population of a list of clusters. *)
Definition sum_groups (groups : list (list settlement)) : Z :=
  sum_population (concat groups).

(** One region per cluster. *)
Definition one_region (group : list settlement) : Prop :=
  forall s1 s2, s1 ∈ group -> s2 ∈ group ->
                get_admin_region (name s1) = get_admin_region (name s2).

(** [sum(get(s) * s['population'] for s in group)] over the records that
    have the key. *)
Definition moment (get : settlement -> option Q) (group : list settlement) : Q :=
  fold_right (fun s acc => (default 0 (get s) * inject_Z (population s) + acc)%Q)
             0%Q group.

(** The first member of greatest population. *)
Definition first_greatest (m : settlement) (group : list settlement) : Prop :=
  exists before after,
    group = before ++ m :: after /\
    Forall (fun s => population s < population m) before /\
    Forall (fun s => population s <= population m) after.

(** The two-settlement scenario of the pregrouper and its merged record. *)
Definition scenario_input : list settlement :=
  [leaf "A, Region1" 500; leaf "B, Region1" 600].

Definition scenario_merged : settlement :=
  mkSettlement "B, Region1" 1100 None None None None
               (Some ["B, Region1"; "A, Region1"]).

(** Four records of one region. *)
Definition floor_input : list settlement :=
  [leaf "A, R" 600; leaf "B, R" 500; leaf "C, R" 300; leaf "D, R" 200].

(** De-duplication that keeps the first copy of every name: the head
    stays, its later copies go. *)
Fixpoint dedup_first (l : list string) : list string :=
  match l with
  | [] => []
  | x :: l' => x :: filter (fun y => y <> x) (dedup_first l')
  end.

(** What the contract lets a member contribute: its own constituents,
    its own name only when it has none. *)
Definition own_constituents (s : settlement) : list string :=
  match constituent_settlements s with
  | Some (c :: cs) => c :: cs
  | _ => [name s]
  end.

(** The member's constituents, when it has any, start with its own name. *)
Definition self_headed (s : settlement) : Prop :=
  forall cs, constituent_settlements s = Some cs -> exists tl, cs = name s :: tl.

(** A member whose constituents do not list its own name. *)
Definition lone_member : settlement :=
  mkSettlement "M" 5 (Some (53 # 1)%Q) (Some (- (8 # 1))%Q) None None (Some ["A"]).

(** A cluster of two geocoded records. *)
Definition two_members : list settlement :=
  [mkSettlement "A, R" 100 (Some (53 # 1)%Q) (Some (- (8 # 1))%Q) None None (Some ["A, R"]);
   mkSettlement "B, R" 300 (Some (54 # 1)%Q) (Some (- (7 # 1))%Q) None None
                (Some ["B, R"; "C, R"])].

(** Two records whose names have two commas and agree on the second field. *)
Definition north_field : settlement :=
  mkSettlement "A, X, 1" 10 (Some (53 # 1)%Q) (Some (- (8 # 1))%Q) None None None.

Definition south_field : settlement :=
  mkSettlement "B, X, 2" 5 (Some (53 # 1)%Q) (Some (- (8 # 1))%Q) None None None.

(** Two records with comma-free names. *)
Definition hamlet_a : settlement :=
  mkSettlement "Ardmore" 400 (Some (52 # 1)%Q) (Some (- (8 # 1))%Q) None None None.

Definition hamlet_b : settlement :=
  mkSettlement "Ballyduff" 300 (Some (52 # 1)%Q) (Some (- (8 # 1))%Q) None None None.

(** Linear interpolation from [a] to [b]. *)
Definition lerp (a b t : Q) : Q := (a + t * (b - a))%Q.

(** The position of [v] between the edges [lo] and [hi], from 0 to 1. *)
Definition fraction (lo hi v : Q) : Q := ((v - lo) / (hi - lo))%Q.

(** A geocoded record inside the bounding box. *)
Definition athlone : settlement :=
  mkSettlement "Athlone, Westmeath" 21000 (Some (534 # 10)%Q) (Some (- (79 # 10))%Q)
               None None None.

(** The world after the requests [l] have been sent. *)
Definition add_requests (w : world) (l : list string) : world :=
  mkWorld (checkpoint_dir w) (settlements_json w) (unmatched_settlements_json w)
          (requests w ++ l).

(** The checkpoint files other than [locations] and the two JSON files. *)
Definition same_other_files (w w' : world) : Prop :=
  settlements_json w' = settlements_json w /\
  unmatched_settlements_json w' = unmatched_settlements_json w /\
  cso_settlements_pickle (checkpoint_dir w') = cso_settlements_pickle (checkpoint_dir w) /\
  grouped_settlements_pickle (checkpoint_dir w') = grouped_settlements_pickle (checkpoint_dir w) /\
  processed_settlements_pickle (checkpoint_dir w') = processed_settlements_pickle (checkpoint_dir w) /\
  final_settlements_pickle (checkpoint_dir w') = final_settlements_pickle (checkpoint_dir w).

(** No checkpoint, no output file, no request sent. *)
Definition empty_world : world := mkWorld no_checkpoints None None [].

(** A world whose [locations] checkpoint already holds one name. *)
Definition resumed_world : world :=
  mkWorld (mkCheckpoints None None
             (Some {[ "S0" := ((52 # 1)%Q, (- (9 # 1))%Q) ]}) None None)
          None None [].

(** A geocoding service that resolves nothing. *)
Definition never_found : list string -> string -> option (Q * Q) :=
  fun _ _ => None.

(** The pregrouped records the geocoder left without coordinates. *)
Definition unresolved (locations : gmap string (Q * Q))
    (grouped : list settlement) : list settlement :=
  filter (fun s => locations !! name s = None) grouped.

(** The three results of stage 4. *)
Definition geocoded_of (locations : gmap string (Q * Q))
    (grouped : list settlement) : list settlement :=
  fst (fst (attach_coordinates locations grouped)).

Definition not_found_of (locations : gmap string (Q * Q))
    (grouped : list settlement) : list string :=
  snd (fst (attach_coordinates locations grouped)).

Definition not_found_details_of (locations : gmap string (Q * Q))
    (grouped : list settlement) : list settlement :=
  snd (attach_coordinates locations grouped).

(** The unresolved fraction of the names handed to the geocoder. *)
Definition unresolved_rate (locations : gmap string (Q * Q))
    (grouped : list settlement) : Q :=
  (inject_Z (len (not_found_of locations grouped))
   / inject_Z (len (map name grouped)))%Q.

(** The checkpoint directory after [save_checkpoint('processed_settlements', d)]. *)
Definition with_processed (c : checkpoints)
    (d : list settlement * list string) : checkpoints :=
  mkCheckpoints (cso_settlements_pickle c) (grouped_settlements_pickle c)
                (locations_pickle c) (Some d) (final_settlements_pickle c).

(** The checkpoint directory after [save_checkpoint('final_settlements', d)]. *)
Definition with_final (c : checkpoints) (d : dataset) : checkpoints :=
  mkCheckpoints (cso_settlements_pickle c) (grouped_settlements_pickle c)
                (locations_pickle c) (processed_settlements_pickle c) (Some d).

(** Every checkpoint file of [c] is still there in [c']. *)
Definition retained (c c' : checkpoints) : Prop :=
  (is_Some (cso_settlements_pickle c) -> is_Some (cso_settlements_pickle c')) /\
  (is_Some (grouped_settlements_pickle c) -> is_Some (grouped_settlements_pickle c')) /\
  (is_Some (locations_pickle c) -> is_Some (locations_pickle c')) /\
  (is_Some (processed_settlements_pickle c) -> is_Some (processed_settlements_pickle c')) /\
  (is_Some (final_settlements_pickle c) -> is_Some (final_settlements_pickle c')).

(** The world after stage 4 has saved its checkpoint and the side file. *)
Definition after_stage_4 (locations : gmap string (Q * Q))
    (grouped : list settlement) (w : world) : world :=
  mkWorld (with_processed (checkpoint_dir w)
             (geocoded_of locations grouped, not_found_of locations grouped))
          (settlements_json w)
          (match not_found_details_of locations grouped with
           | [] => unmatched_settlements_json w
           | _ :: _ => Some (not_found_details_of locations grouped)
           end)
          (requests w).

(** Ten census records of 100 people, a service that resolves all of
    them but one, and a distance that keeps every record apart. *)
Definition ten_hamlets : list settlement :=
  map (fun n => leaf n 100)
      ["S0"; "S1"; "S2"; "S3"; "S4"; "S5"; "S6"; "S7"; "S8"; "S9"].

Definition all_but_S9 : list string -> string -> option (Q * Q) :=
  fun _ n => if decide (n = "S9") then None else Some ((53 # 1)%Q, (- (8 # 1))%Q).

Definition far_apart : Q * Q -> Q * Q -> Q := fun _ _ => 1000%Q.

(** A census of an uninhabited place and a town, and a service that
    resolves every name. *)
Definition ghost_and_town : list settlement :=
  [leaf "Inishark, Galway" 0; leaf "Bandon, Cork" 500].

Definition found_everywhere : list string -> string -> option (Q * Q) :=
  fun _ _ => Some ((53 # 1)%Q, (- (8 # 1))%Q).

(** An existing dataset and a world that holds a checkpoint of an earlier run. *)
Definition small_dataset : dataset :=
  mkDataset
    [mkSettlement "Cork, Cork" 1000 (Some (519 # 10)%Q) (Some (- (85 # 10))%Q)
                  (Some (2234042 # 100)%Q) (Some (625000 # 100)%Q) (Some ["Cork, Cork"])]
    (mkMetadata 1000 1 1000 IrelandBounds.calculate_grid_transformation
                the_data_sources [] 0%Q).

Definition stale_world : world :=
  mkWorld (mkCheckpoints (Some ten_hamlets) None None None None)
          (Some small_dataset) None [].

(** [round(distributed * (population / original_total))], as the loop
    computes it in floats. *)
Definition share_of (distributed original_total : Z) (s : settlement) : result Z :=
  let* proportion := int_truediv (population s) original_total in
  let* amount := int_to_float distributed in
  round_float (float_mul amount proportion).








(* ===================================================================== *)
(** ** Vocabulary of the further properties *)
(* ===================================================================== *)

(** The records of the enumeration at the indices not yet used. *)
Definition unused_items (used : gset nat) (items : list (nat * settlement))
  : list settlement :=
  map snd (filter (fun js => fst js ∉ used) items).

(** [linked placed added]: every record of [added] lies within the
    distance threshold of a record placed before it, in [placed] or
    earlier in [added]. *)
Fixpoint linked (calculate_distance : Q * Q -> Q * Q -> Q) (max_distance : Q)
    (placed added : list settlement) : Prop :=
  match added with
  | [] => True
  | s2 :: added' =>
      (exists s, s ∈ placed /\ within calculate_distance max_distance s s2 = Ok true) /\
      linked calculate_distance max_distance (placed ++ [s2]) added'
  end.

(** Descending order of population. *)
Definition desc (a b : settlement) : Prop := population b <= population a.

(** A cluster as the clusterer builds it: a seed of greatest population
    followed by records each linked to one placed before it. *)
Definition seeded_chain (calculate_distance : Q * Q -> Q * Q -> Q) (max_distance : Q)
    (g : list settlement) : Prop :=
  exists seed added,
    g = seed :: added /\
    linked calculate_distance max_distance [seed] added /\
    Forall (fun s => population s <= population seed) added.

(** The record carries coordinates inside the box [b]. *)
Definition located_in (b : bbox) (s : settlement) : Prop :=
  exists la lo, lat s = Some la /\ lon s = Some lo /\ in_bbox b la lo.

(** A census record as stage 1 makes it: no key [constituent_settlements]. *)
Definition census_record (s : settlement) : Prop :=
  constituent_settlements s = None.

(** The names a list of records stands for, as stage 3 and stage 4 read
    them: the constituents of a record, or its own name without the key. *)
Definition names_carried (l : list settlement) : list string :=
  flat_map constituents_or_name l.

(** The geocoding service gives the coordinate [c] for the name [n],
    after some history of requests. *)
Definition answered (geocode : list string -> string -> option (Q * Q))
    (n : string) (c : Q * Q) : Prop :=
  exists h, geocode h n = Some c.

(** What a run of the resolver over [names] leaves, from the checkpoint
    [ck], when the service answers [g] whatever it was asked before. *)
Definition resolved (ck : gmap string (Q * Q)) (g : string -> option (Q * Q))
    (names : list string) (n : string) : option (Q * Q) :=
  match ck !! n with
  | Some c => Some c
  | None => if decide (n ∈ names) then g n else None
  end.

(** An exception that ends the process with status 1 under [main]: any
    [Exception], or [SystemExit(1)]. *)
Definition exits_1 (e : exn) : Prop :=
  forall code, e = SystemExit code -> code = 1.

(** The computation raises no [SystemExit]. *)
Definition no_exit {A} (r : result A) : Prop :=
  forall code, r <> Raise (SystemExit code).

(** The program leaves [settlements.json] as it is and raises nothing
    but what ends the process with status 1. *)
Definition keeps_dataset {A} (c : prog A) : Prop :=
  forall w, settlements_json (snd (c w)) = settlements_json w /\
            forall e, fst (c w) = Raise e -> exits_1 e.

(** The state of the files after a dataset has been written: the
    checkpoints are cleared when the recorded failure rate is at most
    0.1, and otherwise the [final_settlements] checkpoint holds the
    dataset written. *)
Definition written (w : world) : Prop :=
  exists d, settlements_json w = Some d /\
    if high_failure_rate (failure_rate (metadata d))
    then final_settlements_pickle (checkpoint_dir w) = Some d
    else checkpoint_dir w = no_checkpoints.

(** The program either returns with the dataset written, or raises and
    leaves [settlements.json] as it is. *)
Definition writes_or_keeps (c : prog unit) : Prop :=
  forall w, match fst (c w) with
            | Ok _ => written (snd (c w))
            | Raise e => exits_1 e /\ settlements_json (snd (c w)) = settlements_json w
            end.

(** The record carries grid coordinates inside the 50000 x 50000 grid. *)
Definition on_grid (s : settlement) : Prop :=
  exists x y, grid_x s = Some x /\ grid_y s = Some y /\
              (0 <= x /\ x <= 50000 /\ 0 <= y /\ y <= 50000)%Q.

(** The names the record stands for start with its own name. *)
Definition own_name_first (s : settlement) : Prop :=
  exists tl, constituents_or_name s = name s :: tl.

(** [d.get(n)] on a dict given by its items. *)
Fixpoint assoc (d : list (string * Z)) (n : string) : option Z :=
  match d with
  | [] => None
  | (k, v) :: d' => if decide (k = n) then Some v else assoc d' n
  end.

(** The value of the last row named [n]. *)
Definition last_row (rows : list (string * Z)) (n : string) : option Z :=
  assoc (rev rows) n.

(** The names a dataset lists as constituents. *)
Definition listed_in (data : dataset) (n : string) : Prop :=
  exists s cs, s ∈ settlements data /\ constituent_settlements s = Some cs /\ n ∈ cs.

(** The sum of the values of a dict. *)
Definition sum_values (d : list (string * Z)) : Z :=
  fold_right (fun np acc => snd np + acc) 0 d.

(** The order of the export: no later record is more populous. *)
Definition exported_desc (a b : Exporter.exported) : Prop :=
  Exporter.population b <= Exporter.population a.

(** The coordinate of the record lies inside the coordinate system the
    metadata declares. *)
Definition in_coordinate_system (m : Exporter.export_metadata)
    (r : Exporter.exported) : Prop :=
  let '(min_x, max_x, min_y, max_y) := Exporter.coordinate_system m in
  (min_x <= fst (Exporter.coordinate r) /\ fst (Exporter.coordinate r) <= max_x /\
   min_y <= snd (Exporter.coordinate r) /\ snd (Exporter.coordinate r) <= max_y)%Q.

(** The program sends no request to the geocoding service. *)
Definition silent {A} (c : prog A) : Prop :=
  forall w, requests (snd (c w)) = requests w.


(* ===================================================================== *)
(** * Properties *)
(* ===================================================================== *)

(** ** Sums, sorting and the helpers of the merges *)

Lemma sum_population_app l1 l2 :
  sum_population (l1 ++ l2) = sum_population l1 + sum_population l2.
Proof. induction l1 as [|x l1 IH]; simpl; [reflexivity | rewrite IH; lia]. Qed.

Lemma sum_population_perm l1 l2 :
  l1 ≡ₚ l2 -> sum_population l1 = sum_population l2.
Proof. induction 1; simpl; lia. Qed.

Lemma insert_desc_perm x l : insert_desc x l ≡ₚ x :: l.
Proof.
  induction l as [|y l IH]; simpl; [reflexivity|].
  destruct (population x <? population y); [|reflexivity].
  rewrite IH. apply Permutation_swap.
Qed.

Lemma sort_desc_perm l : sort_desc l ≡ₚ l.
Proof.
  induction l as [|x l IH]; simpl; [reflexivity|].
  rewrite insert_desc_perm. by rewrite IH.
Qed.

Lemma sum_population_sort l : sum_population (sort_desc l) = sum_population l.
Proof. apply sum_population_perm, sort_desc_perm. Qed.

Lemma length_sort_desc l : length (sort_desc l) = length l.
Proof. apply Permutation_length, sort_desc_perm. Qed.

(** The two comprehensions over [settlements_by_pop] split the list. *)
Lemma sum_population_split m l :
  sum_population (filter (fun s => m <= population s) l)
  + sum_population (filter (fun s => population s < m) l)
  = sum_population l.
Proof.
  induction l as [|x l IH]; simpl; [reflexivity|].
  rewrite !filter_cons. repeat case_decide; simpl; lia.
Qed.

Lemma length_split (m : Z) (l : list settlement) :
  (length (filter (fun s => (m <= population s)%Z) l)
   + length (filter (fun s => (population s < m)%Z) l) = length l)%nat.
Proof.
  induction l as [|x l IH]; simpl; [reflexivity|].
  rewrite !filter_cons. repeat case_decide; simpl; lia.
Qed.

(** *** The regions dictionary *)

Lemma dd_append_members d k s : region_members (dd_append d k s) ≡ₚ s :: region_members d.
Proof.
  unfold region_members.
  induction d as [|[k' l] d IH]; simpl; [reflexivity|].
  case_decide; simpl.
  - rewrite <- app_assoc. simpl. symmetry. apply Permutation_middle.
  - rewrite IH. symmetry. apply Permutation_middle.
Qed.

Lemma fold_dd_append_members l d :
  region_members (fold_left (fun d s => dd_append d (get_admin_region (name s)) s) l d)
  ≡ₚ l ++ region_members d.
Proof.
  revert d. induction l as [|x l IH]; intros d; simpl; [reflexivity|].
  rewrite IH, dd_append_members. symmetry. apply Permutation_middle.
Qed.

Lemma by_admin_region_members l : region_members (by_admin_region l) ≡ₚ l.
Proof.
  unfold by_admin_region. rewrite fold_dd_append_members. simpl.
  by rewrite app_nil_r.
Qed.

(** *** One region *)

Lemma population_emit_group current others total_pop :
  total_pop = population current + sum_population others ->
  population (emit_group current others total_pop) = total_pop.
Proof. intros ->. destruct others; simpl; lia. Qed.

Lemma sum_grow_group m k current others total_pop rest :
  (forall l, (length l <= length rest)%nat -> sum_population (k l) = sum_population l) ->
  total_pop = population current + sum_population others ->
  sum_population (grow_group m k current others total_pop rest)
  = total_pop + sum_population rest.
Proof.
  revert others total_pop.
  induction rest as [|s rest IH]; intros others total_pop Hk Ht; simpl.
  - rewrite population_emit_group by done. lia.
  - destruct (m <=? total_pop); simpl.
    + rewrite population_emit_group by done. rewrite Hk by done. simpl. lia.
    + rewrite IH.
      * lia.
      * intros l Hl. apply Hk. simpl. lia.
      * rewrite sum_population_app. simpl. lia.
Qed.

Lemma sum_process_region m rs :
  sum_population (process_region m rs) = sum_population rs.
Proof.
  remember (length rs) as n eqn:Hn. revert rs Hn.
  induction n as [n IH] using lt_wf_ind. intros rs ->.
  destruct rs as [|current rest]; simpl; [reflexivity|].
  rewrite sum_grow_group; [lia| |simpl; lia].
  intros l Hl. eapply IH; [|reflexivity]. simpl. lia.
Qed.

Lemma sum_regions m d :
  sum_population (flat_map (fun kv => process_region m (sort_desc (snd kv))) d)
  = sum_population (region_members d).
Proof.
  induction d as [|[k l] d IH]; simpl; [reflexivity|].
  unfold region_members in *. simpl.
  rewrite !sum_population_app, IH, sum_process_region, sum_population_sort.
  reflexivity.
Qed.

Lemma sum_grouped_result ss m :
  sum_population (grouped_result ss m) = sum_population ss.
Proof.
  unfold grouped_result.
  rewrite sum_population_app, sum_regions.
  rewrite (sum_population_perm _ _ (by_admin_region_members _)).
  rewrite sum_population_split. apply sum_population_sort.
Qed.

(** The redistribution branch is never taken: the difference is zero. *)
Lemma pregroup_small_settlements_eq ss m n :
  pregroup_small_settlements ss m n
  = Ok (if Z.of_nat (length ss) <=? n then ss else grouped_result ss m).
Proof.
  unfold pregroup_small_settlements.
  destruct (Z.of_nat (length ss) <=? n); [reflexivity|].
  fold (grouped_result ss m). rewrite sum_grouped_result.
  replace (sum_population ss - sum_population ss) with 0 by lia.
  reflexivity.
Qed.

Lemma pregroup_conserves ss m n out :
  pregroup_small_settlements ss m n = Ok out ->
  sum_population out = sum_population ss.
Proof.
  rewrite pregroup_small_settlements_eq. intros [= <-].
  destruct (_ <=? _); [reflexivity | apply sum_grouped_result].
Qed.

(** *** The groups of one region, as a derivation *)

Lemma grow_group_groups m k current others total_pop rest :
  (forall l, (length l <= length rest)%nat -> groups_of m l (k l)) ->
  total_pop = sum_population (current :: others) ->
  groups_of m (current :: others ++ rest)
    (grow_group m k current others total_pop rest).
Proof.
  revert others total_pop.
  induction rest as [|s rest IH]; intros others total_pop Hk ->; simpl grow_group.
  - rewrite app_nil_r. constructor.
  - destruct (m <=? _) eqn:Hm.
    + apply Z.leb_le in Hm.
      apply groups_cons; [exact Hm | discriminate | by apply Hk].
    + replace (others ++ s :: rest) with ((others ++ [s]) ++ rest)
        by (by rewrite <- app_assoc).
      apply IH.
      * intros l Hl. apply Hk. simpl. lia.
      * simpl. rewrite sum_population_app. simpl. lia.
Qed.

Lemma process_region_groups m rs : groups_of m rs (process_region m rs).
Proof.
  remember (length rs) as n eqn:Hn. revert rs Hn.
  induction n as [n IH] using lt_wf_ind. intros rs ->.
  destruct rs as [|current rest]; simpl; [constructor|].
  apply (grow_group_groups m _ current [] _ rest); [|simpl; lia].
  intros l Hl. eapply IH; [|reflexivity]. simpl. lia.
Qed.

Lemma groups_of_nonempty m rs out : groups_of m rs out -> rs <> [] -> out <> [].
Proof. destruct 1; intros; congruence. Qed.

Lemma groups_of_length m rs out :
  groups_of m rs out -> (length out <= length rs)%nat.
Proof.
  induction 1; simpl; [lia | lia |].
  rewrite length_app. lia.
Qed.

(** Every group but the last of its region reaches the floor. *)
Lemma groups_of_reach m rs out :
  groups_of m rs out ->
  Forall (fun s => m <= population s) (removelast out).
Proof.
  induction 1 as [| |current others rest out Hm Hne Hg IH]; simpl; try constructor.
  - destruct out; [by apply groups_of_nonempty in Hg|].
    constructor; [|exact IH].
    rewrite population_emit_group; [exact Hm | reflexivity].
Qed.

(** *** [max] and [dict.fromkeys] *)

Lemma max_from_elem best l : max_from best l ∈ best :: l.
Proof.
  unfold max_from. revert best.
  induction l as [|x l IH]; intros best; simpl; [set_solver|].
  destruct (population best <? population x).
  - specialize (IH x). set_solver.
  - specialize (IH best). set_solver.
Qed.

Lemma max_from_greatest best l s :
  s ∈ best :: l -> population s <= population (max_from best l).
Proof.
  unfold max_from. revert best.
  assert (Hmono : forall l b,
    population b <= population (fold_left
      (fun b s => if population b <? population s then s else b) l b)).
  { clear. induction l as [|x l IH]; intros b; simpl; [lia|].
    destruct (population b <? population x) eqn:E.
    - specialize (IH x). lia.
    - apply IH. }
  induction l as [|x l IH]; intros best Hs; simpl.
  - apply list_elem_of_singleton in Hs as ->. lia.
  - apply elem_of_cons in Hs as [->|Hs].
    + destruct (population best <? population x) eqn:E.
      * specialize (Hmono l x). lia.
      * apply Hmono.
    + destruct (population best <? population x) eqn:E.
      * apply IH. exact Hs.
      * apply elem_of_cons in Hs as [->|Hs].
        -- specialize (Hmono l best). lia.
        -- apply IH. set_solver.
Qed.

Lemma fromkeys_from_spec acc l :
  fromkeys_from acc l = acc ++ filter (fun x => x ∉ acc) (fromkeys_from [] l).
Proof.
  revert acc. induction l as [|x l IH]; intros acc.
  - simpl. by rewrite app_nil_r.
  - unfold fromkeys_from in *. simpl.
    rewrite (IH [x]). simpl. rewrite filter_cons.
    destruct (decide (x ∈ acc)) as [Hin|Hin].
    + rewrite decide_False by tauto.
      rewrite IH. f_equal. rewrite list_filter_filter.
      apply list_filter_iff. intros y. set_solver.
    + rewrite decide_True by exact Hin.
      rewrite IH. rewrite <- app_assoc. simpl. do 2 f_equal.
      rewrite list_filter_filter.
      apply list_filter_iff. intros y. set_solver.
Qed.

(** First-seen order: the head stays, later copies of it go. *)
Lemma fromkeys_cons x l :
  fromkeys (x :: l) = x :: filter (fun y => y <> x) (fromkeys l).
Proof.
  unfold fromkeys. simpl.
  change (fold_left _ l [x]) with (fromkeys_from [x] l).
  rewrite fromkeys_from_spec. simpl. f_equal.
  apply list_filter_iff. intros y. set_solver.
Qed.

Lemma elem_of_fromkeys x l : x ∈ fromkeys l <-> x ∈ l.
Proof.
  induction l as [|y l IH]; [reflexivity|].
  rewrite fromkeys_cons, !elem_of_cons, list_elem_of_filter, IH.
  destruct (decide (x = y)); naive_solver.
Qed.

Lemma NoDup_fromkeys l : NoDup (fromkeys l).
Proof.
  induction l as [|y l IH]; [constructor|].
  rewrite fromkeys_cons. constructor.
  - rewrite list_elem_of_filter. tauto.
  - by apply NoDup_filter.
Qed.

(** *** Regions *)

Lemma groups_of_Forall (P : settlement -> Prop) m rs out :
  (forall current others t,
      Forall P (current :: others) -> P (emit_group current others t)) ->
  groups_of m rs out -> Forall P rs -> Forall P out.
Proof.
  intros Hemit. induction 1 as [| |current others rest out Hm Hne Hg IH]; intros HP.
  - constructor.
  - constructor; [by apply Hemit | constructor].
  - change (current :: others ++ rest) with ((current :: others) ++ rest) in HP.
    apply Forall_app in HP as [H1 H2].
    constructor; [by apply Hemit | by apply IH].
Qed.

Lemma emit_group_region r current others t :
  Forall (fun s => get_admin_region (name s) = r) (current :: others) ->
  get_admin_region (name (emit_group current others t)) = r.
Proof.
  intros HP. destruct others as [|o others]; unfold emit_group; cbn [name].
  - by inversion HP.
  - rewrite Forall_forall in HP. apply HP. apply max_from_elem.
Qed.

Lemma listed_names_pure r s :
  pure_in r s -> Forall (fun c => get_admin_region c = r) (listed_names s).
Proof.
  intros [Hn Hc]. unfold listed_names. constructor; [exact Hn|].
  destruct (constituent_settlements s); [by apply Hc | constructor].
Qed.

Lemma collect_constituents_pure r group :
  Forall (pure_in r) group ->
  Forall (fun c => get_admin_region c = r) (collect_constituents group).
Proof.
  intros HP. apply Forall_forall. intros c Hc.
  unfold collect_constituents in Hc.
  rewrite elem_of_fromkeys, list_elem_of_In, in_flat_map in Hc.
  destruct Hc as (s & Hs & Hc).
  rewrite <- list_elem_of_In in Hs. rewrite <- list_elem_of_In in Hc.
  rewrite Forall_forall in HP. specialize (HP s Hs).
  apply listed_names_pure in HP. rewrite Forall_forall in HP. by apply HP.
Qed.

Lemma emit_group_pure r current others t :
  Forall (pure_in r) (current :: others) -> pure_in r (emit_group current others t).
Proof.
  intros HP. split.
  - apply emit_group_region. eapply Forall_impl; [exact HP|]. by intros s [? _].
  - destruct others as [|o others]; simpl.
    + inversion HP as [|? ? [_ Hc] _]. exact Hc.
    + intros cs [= <-]. by apply collect_constituents_pure.
Qed.

Lemma process_region_pure m r rs :
  Forall (pure_in r) rs -> Forall (pure_in r) (process_region m (sort_desc rs)).
Proof.
  intros HP. eapply groups_of_Forall.
  - intros. by apply emit_group_pure.
  - apply process_region_groups.
  - by rewrite sort_desc_perm.
Qed.

Lemma dd_append_keys d k s :
  forall k', k' ∈ map fst (dd_append d k s) <-> k' = k \/ k' ∈ map fst d.
Proof.
  induction d as [|[k0 l] d IH]; intros k'; simpl.
  - set_solver.
  - case_decide; simpl; [set_solver|].
    rewrite !elem_of_cons, IH. tauto.
Qed.

Lemma dd_append_well_keyed d s :
  well_keyed d -> well_keyed (dd_append d (get_admin_region (name s)) s).
Proof.
  intros [Hnd Hall]. induction d as [|[k0 l] d IH]; simpl.
  - split; [apply NoDup_singleton|]. repeat constructor.
  - inversion Hnd as [|? ? Hk0 Hnd']; subst.
    inversion Hall as [|? ? Hl Hall']; subst. simpl in *.
    case_decide as Hk; simpl.
    + split; [exact Hnd|]. constructor; [|exact Hall'].
      simpl. apply Forall_app. split; [exact Hl|]. by repeat constructor.
    + destruct (IH Hnd' Hall') as [IH1 IH2]. split.
      * constructor; [|exact IH1].
        change (k0 ∉ map fst (dd_append d (get_admin_region (name s)) s)).
        rewrite dd_append_keys. intros [->|Hin]; [congruence | tauto].
      * by constructor.
Qed.

Lemma by_admin_region_well_keyed l : well_keyed (by_admin_region l).
Proof.
  unfold by_admin_region.
  assert (H : forall d, well_keyed d ->
    well_keyed (fold_left (fun d s => dd_append d (get_admin_region (name s)) s) l d)).
  { induction l as [|x l IH]; intros d Hd; simpl; [exact Hd|].
    apply IH. by apply dd_append_well_keyed. }
  apply H. split; constructor.
Qed.

Lemma length_regions m d :
  (length (flat_map (fun kv => process_region m (sort_desc (snd kv))) d)
   <= length (region_members d))%nat.
Proof.
  unfold region_members.
  induction d as [|[k l] d IH]; simpl; [lia|].
  rewrite !length_app.
  pose proof (groups_of_length _ _ _ (process_region_groups m (sort_desc l))) as H.
  rewrite length_sort_desc in H. lia.
Qed.

Lemma length_grouped_result ss m :
  (length (grouped_result ss m) <= length ss)%nat.
Proof.
  unfold grouped_result. rewrite length_app.
  pose proof (length_regions m (by_admin_region
    (filter (fun s => population s < m) (sort_desc ss)))) as H.
  rewrite (Permutation_length (by_admin_region_members _)) in H.
  pose proof (length_split m (sort_desc ss)) as H'.
  rewrite length_sort_desc in H'. lia.
Qed.

(** *** Names without a comma *)

Lemma split_no_comma n : Str.contains comma n = false -> Str.split comma n = [n].
Proof.
  induction n as [|a n IH]; simpl; [reflexivity|].
  intros H. apply orb_false_iff in H as [Ha Hn].
  rewrite Ha, (IH Hn). reflexivity.
Qed.

Lemma get_admin_region_no_comma n :
  Str.contains comma n = false -> get_admin_region n = "".
Proof. intros H. unfold get_admin_region. by rewrite split_no_comma. Qed.

Lemma split_nonempty c n : Str.split c n <> [].
Proof.
  destruct n as [|a n]; simpl; [discriminate|].
  destruct (Ascii.eqb a c); [discriminate|].
  destruct (Str.split c n); discriminate.
Qed.

(** For a name with a single comma the region is the text after the
    comma, stripped. *)
Lemma get_admin_region_one_comma n rest :
  Str.after_first comma n = Some rest ->
  Str.contains comma rest = false ->
  get_admin_region n = Str.strip rest.
Proof.
  intros Hn Hrest. induction n as [|a n IH]; simpl in Hn; [discriminate|].
  unfold get_admin_region in *. simpl.
  destruct (Ascii.eqb a comma).
  - injection Hn as ->. by rewrite split_no_comma.
  - specialize (IH Hn).
    destruct (Str.split comma n) as [|p ps] eqn:Hs; [by apply split_nonempty in Hs|].
    exact IH.
Qed.

(** ** The spatial clusterer *)

Section ClustererFacts.
Variable calculate_distance : Q * Q -> Q * Q -> Q.
Variable max_distance : Q.

Local Abbreviation scan := (scan calculate_distance max_distance).
Local Abbreviation seed_groups := (seed_groups calculate_distance max_distance).
Local Abbreviation near_group := (near_group calculate_distance max_distance).
Local Abbreviation group_settlements := (group_settlements calculate_distance max_distance).

Lemma within_coords s s2 :
  has_coords s -> has_coords s2 ->
  exists b, within calculate_distance max_distance s s2 = Ok b.
Proof.
  intros [[la1 H1] [lo1 H2]] [[la2 H3] [lo2 H4]].
  unfold within, get_lat, get_lon. rewrite H1, H2, H3, H4. simpl. eauto.
Qed.

Lemma near_group_coords group s2 :
  Forall has_coords group -> has_coords s2 ->
  exists b, near_group group s2 = Ok b.
Proof.
  intros Hg H2. induction Hg as [|s group Hs Hg IH]; simpl; [eauto|].
  destruct (within_coords s s2 Hs H2) as [b ->]. simpl.
  destruct b; eauto.
Qed.

(** What a scan may add: records of the seed's region taken from the
    enumeration; the set of used indices only grows, by indices of the
    enumeration. *)
Lemma scan_spec r items : forall group used group' used',
  scan r items group used = Ok (group', used') ->
  used ⊆ used' /\
  (forall j, j ∈ used' -> j ∈ used \/ j ∈ map fst items) /\
  exists added,
    group' = group ++ added /\
    Forall (fun s => get_admin_region (name s) = r /\ s ∈ map snd items) added.
Proof.
  induction items as [|[j s2] items IH]; intros group used group' used' H;
    simpl in H.
  - injection H as <- <-. split; [done|]. split; [tauto|].
    exists []. by rewrite app_nil_r.
  - assert (Hweak : forall g u,
      scan r items g u = Ok (group', used') ->
      u ⊆ used' /\
      (forall j0, j0 ∈ used' -> j0 ∈ u \/ j0 ∈ map fst ((j, s2) :: items)) /\
      exists added, group' = g ++ added /\
        Forall (fun s => get_admin_region (name s) = r
                         /\ s ∈ map snd ((j, s2) :: items)) added).
    { intros g u Hs. destruct (IH _ _ _ _ Hs) as (H1 & H2 & added & H3 & H4).
      split; [exact H1|]. split.
      - intros j0 Hj0. destruct (H2 j0 Hj0); [tauto|]. right. simpl. set_solver.
      - exists added. split; [exact H3|].
        eapply Forall_impl; [exact H4|]. simpl. intros s [? ?]. split; [done|].
        set_solver. }
    destruct (decide (j ∈ used)); [by apply Hweak|].
    destruct (decide (r = get_admin_region (name s2))) as [Hr|]; [|by apply Hweak].
    destruct (near_group group s2) as [[|]|e] eqn:Hn; simpl in H;
      [|by apply Hweak|discriminate].
    destruct (Hweak _ _ H) as (H1 & H2 & added & H3 & H4).
    split; [set_solver|]. split.
    + intros j0 Hj0. destruct (H2 j0 Hj0) as [Hu|Hi]; [|tauto].
      apply elem_of_union in Hu as [Hu|Hu]; [|tauto].
      apply elem_of_singleton in Hu as ->. right. simpl. set_solver.
    + exists (s2 :: added). split; [by rewrite H3, <- app_assoc|].
      constructor; [|exact H4]. split; [done|]. simpl. set_solver.
Qed.

Lemma scan_total r items : forall group used,
  Forall has_coords (map snd items) -> Forall has_coords group ->
  exists gu, scan r items group used = Ok gu.
Proof.
  induction items as [|[j s2] items IH]; intros group used Hi Hg; simpl.
  - eauto.
  - inversion Hi as [|? ? H2 Hi']; subst.
    destruct (decide (j ∈ used)); [by apply IH|].
    destruct (decide (r = _)) as [Hr|Hr]; [|by apply IH].
    destruct (near_group_coords group s2 Hg H2) as [b ->]. simpl.
    destruct b; apply IH; try done.
    apply Forall_app. split; [done | by constructor].
Qed.

Lemma unused_sum_mono_index used j items :
  j ∉ map fst items ->
  unused_sum ({[j]} ∪ used) items = unused_sum used items.
Proof.
  induction items as [|[j' s] items IH]; simpl; [reflexivity|].
  intros Hj. rewrite IH by set_solver.
  assert (j <> j') by set_solver.
  destruct (decide (j' ∈ used)).
  - rewrite decide_True by set_solver. reflexivity.
  - rewrite decide_False by set_solver. reflexivity.
Qed.

(** A scan moves population from the unused part of the enumeration
    into the group. *)
Lemma scan_sum r items : forall group used group' used',
  NoDup (map fst items) ->
  scan r items group used = Ok (group', used') ->
  sum_population group' + unused_sum used' items
  = sum_population group + unused_sum used items.
Proof.
  induction items as [|[j s2] items IH]; intros group used group' used' Hnd H;
    simpl in H.
  - injection H as <- <-. reflexivity.
  - simpl in Hnd. apply NoDup_cons in Hnd as [Hj Hnd]. simpl.
    destruct (decide (j ∈ used)) as [Hu|Hu].
    + destruct (scan_spec _ _ _ _ _ _ H) as (Hsub & _ & _).
      rewrite decide_True by set_solver.
      specialize (IH _ _ _ _ Hnd H). lia.
    + assert (Hskip : scan r items group used = Ok (group', used') ->
        sum_population group' +
        ((if decide (j ∈ used') then 0 else population s2) + unused_sum used' items)
        = sum_population group + (population s2 + unused_sum used items)).
      { intros Hs. destruct (scan_spec _ _ _ _ _ _ Hs) as (_ & Hin & _).
        rewrite decide_False by (intros Hj'; destruct (Hin j Hj'); tauto).
        specialize (IH _ _ _ _ Hnd Hs). lia. }
      destruct (decide (r = _)) as [Hr|Hr]; [|by apply Hskip].
      destruct (near_group group s2) as [[|]|e] eqn:Hn; simpl in H;
        [|by apply Hskip|discriminate].
      destruct (scan_spec _ _ _ _ _ _ H) as (Hsub & _ & _).
      rewrite decide_True by set_solver.
      specialize (IH _ _ _ _ Hnd H).
      rewrite sum_population_app, unused_sum_mono_index in IH by exact Hj.
      simpl in IH. lia.
Qed.

Lemma unused_sum_all_used used items :
  (forall j, j ∈ map fst items -> j ∈ used) -> unused_sum used items = 0.
Proof.
  induction items as [|[j s] items IH]; simpl; [reflexivity|].
  intros H. rewrite decide_True by (apply H; set_solver).
  rewrite IH; [reflexivity|]. intros j' Hj'. apply H. set_solver.
Qed.

Lemma unused_sum_take used i s items :
  NoDup (map fst items) -> (i, s) ∈ items -> i ∉ used ->
  unused_sum used items = population s + unused_sum ({[i]} ∪ used) items.
Proof.
  induction items as [|[j s'] items IH]; simpl; intros Hnd Hin Hi.
  - by apply elem_of_nil in Hin.
  - apply NoDup_cons in Hnd as [Hj Hnd].
    apply elem_of_cons in Hin as [[= <- <-]|Hin].
    + rewrite decide_False by exact Hi. rewrite decide_True by set_solver.
      by rewrite unused_sum_mono_index.
    + assert (i <> j).
      { intros ->. apply Hj. apply list_elem_of_fmap. by exists (j, s). }
      rewrite (IH Hnd Hin Hi).
      destruct (decide (j ∈ used)).
      * rewrite decide_True by set_solver. lia.
      * rewrite decide_False by set_solver. lia.
Qed.

Lemma seed_groups_sum all : NoDup (map fst all) ->
  forall items pre used groups,
  all = pre ++ items ->
  (forall j, j ∈ map fst pre -> j ∈ used) ->
  seed_groups all items used = Ok groups ->
  sum_groups groups = unused_sum used all.
Proof.
  intros Hnd. induction items as [|[i s1] items IH];
    intros pre used groups Hall Hpre H; simpl in H.
  - injection H as <-. rewrite app_nil_r in Hall. subst pre.
    by rewrite unused_sum_all_used.
  - assert (Hall' : all = (pre ++ [(i, s1)]) ++ items)
      by (by rewrite <- app_assoc).
    destruct (decide (i ∈ used)) as [Hi|Hi].
    + apply (IH _ _ _ Hall'); [|exact H].
      intros j. rewrite map_app, elem_of_app. simpl. set_solver.
    + destruct (scan _ all [s1] _) as [[g used']|e] eqn:Hs; [|discriminate].
      simpl in H.
      destruct (seed_groups all items used') as [groups'|e'] eqn:Hg; [|discriminate].
      simpl in H. injection H as <-.
      destruct (scan_spec _ _ _ _ _ _ Hs) as (Hsub & _ & _).
      pose proof (scan_sum _ _ _ _ _ _ Hnd Hs) as Hsum.
      assert (IH' : sum_groups groups' = unused_sum used' all).
      { apply (IH _ _ _ Hall'); [|exact Hg].
        intros j. rewrite map_app, elem_of_app. simpl. set_solver. }
      unfold sum_groups in *. simpl. rewrite sum_population_app, IH'.
      rewrite (unused_sum_take used i s1 all Hnd); [simpl in Hsum; lia| |exact Hi].
      rewrite Hall. set_solver.
Qed.

Lemma enumerate_fst l : map fst (enumerate l) = seq 0 (length l).
Proof.
  unfold enumerate.
  assert (H : forall (f : nat -> nat) (l : list settlement),
    map fst (imap (fun i s => (f i, s)) l) = map f (seq 0 (length l))).
  { clear. intros f l. revert f. induction l as [|x l IH]; intros f; simpl;
      [reflexivity|].
    f_equal. rewrite <- seq_shift, map_map. apply (IH (f ∘ S)). }
  rewrite (H id). by rewrite map_id.
Qed.

Lemma enumerate_snd l : map snd (enumerate l) = l.
Proof.
  unfold enumerate.
  assert (H : forall (f : nat -> nat) (l : list settlement),
    map snd (imap (fun i s => (f i, s)) l) = l).
  { clear. intros f l. revert f. induction l as [|x l IH]; intros f; simpl;
      [reflexivity|].
    f_equal. apply (IH (f ∘ S)). }
  apply (H id).
Qed.

Lemma unused_sum_empty items :
  unused_sum ∅ items = sum_population (map snd items).
Proof.
  induction items as [|[j s] items IH]; simpl; [reflexivity|].
  rewrite decide_False by set_solver. by rewrite IH.
Qed.

(** The clusters hold the population of the input, all of it, once. *)
Lemma group_settlements_sum ss groups :
  group_settlements ss = Ok groups ->
  sum_groups groups = sum_population ss.
Proof.
  unfold group_settlements. intros H.
  rewrite (seed_groups_sum _ (ltac:(rewrite enumerate_fst; apply NoDup_seq))
             _ [] ∅ groups eq_refl (ltac:(set_solver)) H).
  by rewrite unused_sum_empty, enumerate_snd, sum_population_sort.
Qed.

Lemma seed_groups_spec all : forall items used groups,
  Forall (fun js => snd js ∈ map snd all) items ->
  seed_groups all items used = Ok groups ->
  Forall (fun g => g <> [] /\ one_region g /\ Forall (fun s => s ∈ map snd all) g)
         groups.
Proof.
  induction items as [|[i s1] items IH]; intros used groups Hin H; simpl in H.
  - injection H as <-. constructor.
  - apply Forall_cons in Hin as [Hs1 Hin]. simpl in Hs1.
    destruct (decide (i ∈ used)); [by eapply IH|].
    destruct (scan _ all [s1] _) as [[g used']|e] eqn:Hs; [|discriminate].
    simpl in H.
    destruct (seed_groups all items used') as [groups'|e'] eqn:Hg; [|discriminate].
    simpl in H. injection H as <-.
    constructor; [|by eapply IH].
    destruct (scan_spec _ _ _ _ _ _ Hs) as (_ & _ & added & -> & Hadd).
    split; [discriminate|]. split.
    + assert (Hreg : forall s, s ∈ [s1] ++ added ->
                get_admin_region (name s) = get_admin_region (name s1)).
      { intros s Hs'. apply elem_of_app in Hs' as [Hs'|Hs'].
        - by apply list_elem_of_singleton in Hs' as ->.
        - rewrite Forall_forall in Hadd. by apply Hadd. }
      intros a b Ha Hb. by rewrite (Hreg a Ha), (Hreg b Hb).
    + apply Forall_app. split; [by repeat constructor|].
      eapply Forall_impl; [exact Hadd|]. by intros s [_ ?].
Qed.

Lemma seed_groups_total all : forall items used,
  Forall has_coords (map snd all) -> Forall has_coords (map snd items) ->
  exists groups, seed_groups all items used = Ok groups.
Proof.
  induction items as [|[i s1] items IH]; intros used Hall Hit; simpl; [eauto|].
  inversion Hit as [|? ? H1 Hit']; subst.
  destruct (decide (i ∈ used)); [by apply IH|].
  destruct (scan_total (get_admin_region (name s1)) all [s1] ({[i]} ∪ used) Hall)
    as [[g used'] ->]; [by constructor|].
  simpl. destruct (IH used' Hall Hit') as [groups ->]. simpl. eauto.
Qed.

Lemma group_settlements_spec ss groups :
  group_settlements ss = Ok groups ->
  Forall (fun g => g <> [] /\ one_region g /\ Forall (fun s => s ∈ ss) g) groups.
Proof.
  unfold group_settlements. intros H.
  apply seed_groups_spec in H.
  - eapply Forall_impl; [exact H|]. simpl. intros g (Hne & Hone & Hmem).
    split; [exact Hne|]. split; [exact Hone|].
    eapply Forall_impl; [exact Hmem|]. simpl. intros s.
    by rewrite enumerate_snd, sort_desc_perm.
  - apply Forall_forall. intros js Hjs.
    apply list_elem_of_fmap. by exists js.
Qed.

Lemma group_settlements_total ss :
  Forall has_coords ss -> exists groups, group_settlements ss = Ok groups.
Proof.
  intros H. apply seed_groups_total; rewrite enumerate_snd;
    by rewrite sort_desc_perm.
Qed.

End ClustererFacts.

(** ** The settlement merger *)

Lemma sum_weighted_lat acc group q :
  sum_weighted get_lat acc group = Ok q -> (q == acc + moment lat group)%Q.
Proof.
  revert acc. induction group as [|s group IH]; intros acc; simpl.
  - intros [= <-]. ring.
  - unfold get_lat at 1. destruct (lat s) as [x|]; [|discriminate]. simpl.
    intros H. rewrite (IH _ H). ring.
Qed.

Lemma sum_weighted_lon acc group q :
  sum_weighted get_lon acc group = Ok q -> (q == acc + moment lon group)%Q.
Proof.
  revert acc. induction group as [|s group IH]; intros acc; simpl.
  - intros [= <-]. ring.
  - unfold get_lon at 1. destruct (lon s) as [x|]; [|discriminate]. simpl.
    intros H. rewrite (IH _ H). ring.
Qed.

Lemma sum_weighted_total_lat acc group :
  Forall has_coords group -> exists q, sum_weighted get_lat acc group = Ok q.
Proof.
  intros H. revert acc. induction H as [|s group [[x Hx] _] _ IH]; intros acc; simpl.
  - eauto.
  - unfold get_lat at 1. rewrite Hx. simpl. apply IH.
Qed.

Lemma sum_weighted_total_lon acc group :
  Forall has_coords group -> exists q, sum_weighted get_lon acc group = Ok q.
Proof.
  intros H. revert acc. induction H as [|s group [_ [x Hx]] _ IH]; intros acc; simpl.
  - eauto.
  - unfold get_lon at 1. rewrite Hx. simpl. apply IH.
Qed.

Lemma max_from_first best l : first_greatest (max_from best l) (best :: l).
Proof.
  unfold max_from.
  assert (H : forall l before b after,
    Forall (fun s => population s < population b) before ->
    Forall (fun s => population s <= population b) after ->
    exists before' after',
      before ++ b :: after ++ l
      = before' ++ fold_left (fun b s => if population b <? population s then s else b) l b
                :: after' /\
      Forall (fun s => population s <
        population (fold_left (fun b s => if population b <? population s then s else b) l b))
        before' /\
      Forall (fun s => population s <=
        population (fold_left (fun b s => if population b <? population s then s else b) l b))
        after').
  { clear. induction l as [|x l IH]; intros before b after Hb Ha; simpl.
    - exists before, after. by rewrite app_nil_r.
    - destruct (population b <? population x) eqn:E.
      + apply Z.ltb_lt in E.
        destruct (IH (before ++ b :: after) x []) as (b' & a' & Heq & H1 & H2).
        * apply Forall_app. split.
          -- eapply Forall_impl; [exact Hb|]. simpl. intros. lia.
          -- constructor; [exact E|].
             eapply Forall_impl; [exact Ha|]. simpl. intros. lia.
        * constructor.
        * exists b', a'. split; [|done].
          rewrite <- Heq. simpl. by rewrite <- !app_assoc.
      + apply Z.ltb_ge in E.
        destruct (IH before b (after ++ [x])) as (b' & a' & Heq & H1 & H2).
        * exact Hb.
        * apply Forall_app. split; [exact Ha | by repeat constructor].
        * exists b', a'. split; [|done].
          rewrite <- Heq. by rewrite <- !app_assoc. }
  destruct (H l [] best []) as (b' & a' & Heq & H1 & H2); [constructor..|].
  exists b', a'. simpl in Heq. done.
Qed.

Lemma process_settlement_group_spec group out :
  process_settlement_group group = Ok out ->
  population out = sum_population group /\
  (exists m, first_greatest m group /\ name out = name m) /\
  (exists la lo, lat out = Some la /\ lon out = Some lo /\
     (la * inject_Z (sum_population group) == moment lat group)%Q /\
     (lo * inject_Z (sum_population group) == moment lon group)%Q) /\
  constituent_settlements out = Some (collect_constituents group).
Proof.
  unfold process_settlement_group, py_div. intros H.
  destruct (sum_weighted get_lat 0 group) as [slat|] eqn:Hlat; [|discriminate].
  simpl in H.
  destruct (sum_population group =? 0) eqn:Hz; [discriminate|]. simpl in H.
  destruct (sum_weighted get_lon 0 group) as [slon|] eqn:Hlon; [|discriminate].
  simpl in H.
  destruct group as [|x group]; [discriminate|].
  cbn [max_by_population rbind] in H.
  injection H as <-. cbn [population lat lon name constituent_settlements].
  apply Z.eqb_neq in Hz.
  assert (Hq : ~ (inject_Z (sum_population (x :: group)) == 0)%Q).
  { intros Hq. unfold Qeq in Hq. simpl in Hq. simpl in Hz. lia. }
  split; [reflexivity|]. split.
  - exists (max_from x group). split; [apply max_from_first | reflexivity].
  - split; [|reflexivity].
    eexists _, _. split; [reflexivity|]. split; [reflexivity|].
    apply sum_weighted_lat in Hlat. apply sum_weighted_lon in Hlon.
    change (population x + sum_population group)
      with (sum_population (x :: group)).
    revert Hq. generalize (inject_Z (sum_population (x :: group))).
    intros T HT. split.
    + rewrite Hlat. field. exact HT.
    + rewrite Hlon. field. exact HT.
Qed.

Lemma process_settlement_group_total group :
  Forall has_coords group -> sum_population group <> 0 ->
  exists out, process_settlement_group group = Ok out.
Proof.
  intros Hc Hz. unfold process_settlement_group, py_div.
  destruct (sum_weighted_total_lat 0%Q group Hc) as [slat ->].
  destruct (sum_weighted_total_lon 0%Q group Hc) as [slon ->]. simpl.
  apply Z.eqb_neq in Hz. rewrite Hz. simpl.
  destruct group as [|x group]; [by rewrite Z.eqb_neq in Hz|]. simpl. eauto.
Qed.

Lemma mapM_process_sum groups finals :
  mapM process_settlement_group groups = Ok finals ->
  sum_population finals = sum_groups groups.
Proof.
  unfold sum_groups. revert finals.
  induction groups as [|g groups IH]; intros finals H; simpl in H.
  - by injection H as <-.
  - destruct (process_settlement_group g) as [out|] eqn:Hg; [|discriminate].
    simpl in H.
    destruct (mapM process_settlement_group groups) as [outs|]; [|discriminate].
    simpl in H. injection H as <-. simpl.
    apply process_settlement_group_spec in Hg as (Hp & _).
    rewrite sum_population_app, Hp, (IH outs eq_refl). reflexivity.
Qed.

(* ===================================================================== *)
(** * The claims *)
(* ===================================================================== *)

(** ** The two-settlement scenario of the pregrouper *)

(** C5, as stated, fails: with the floor at 1000 and the target count at
    its default of 1000, the two records are returned as they came. *)
Lemma scenario_with_default_target :
  pregroup_small_settlements scenario_input 1000 1000 = Ok scenario_input /\
  pregroup_small_settlements scenario_input 1000 1000 <> Ok [scenario_merged].
Proof. split; [reflexivity | discriminate]. Qed.

(** C5, amended: with the floor at 1000 and a target count below the
    input count of 2, the pregrouper returns exactly one settlement,
    named "B, Region1", with population 1100 and constituents
    ["B, Region1"; "A, Region1"]; with a target count of 2 or more
    (the default is 1000) it returns the two records as they came. *)
Theorem scenario_by_target_count (max_settlements : Z) :
  (max_settlements < 2 ->
   pregroup_small_settlements scenario_input 1000 max_settlements
   = Ok [scenario_merged]) /\
  (2 <= max_settlements ->
   pregroup_small_settlements scenario_input 1000 max_settlements
   = Ok scenario_input).
Proof.
  rewrite pregroup_small_settlements_eq.
  change (Z.of_nat (length scenario_input)) with 2.
  split; intros H.
  - replace (2 <=? max_settlements) with false
      by (symmetry; apply Z.leb_gt; lia).
    reflexivity.
  - replace (2 <=? max_settlements) with true
      by (symmetry; apply Z.leb_le; lia).
    reflexivity.
Qed.

Lemma scenario_by_target_count_witness :
  pregroup_small_settlements scenario_input 1000 1 = Ok [scenario_merged] /\
  pregroup_small_settlements scenario_input 1000 2 = Ok scenario_input.
Proof.
  split.
  - destruct (scenario_by_target_count 1) as [H _]. apply H. lia.
  - destruct (scenario_by_target_count 2) as [_ H]. apply H. lia.
Defined.

(** ** The population floor *)

(** C4, as stated, fails: four records of one region, floor 1000, target
    count 3; the second group is formed by grouping "C, R" and "D, R"
    and has population 500. *)
Lemma last_group_below_floor :
  pregroup_small_settlements floor_input 1000 3
  = Ok [mkSettlement "A, R" 1100 None None None None (Some ["A, R"; "B, R"]);
        mkSettlement "C, R" 500 None None None None (Some ["C, R"; "D, R"])]
  /\ 3 < Z.of_nat (length floor_input) /\ 500 < 1000.
Proof. split; [reflexivity | simpl; lia]. Qed.

(** C4, amended: when the input count exceeds the target, the output is
    the records at or above the floor, untouched and in descending order,
    followed region by region (each region once) by the groups of that
    region; within a region every emitted record but the last has
    population at least the floor. For every input the output count does
    not exceed the input count. *)
Theorem pregroup_floor (settlements : list settlement)
    (min_population max_settlements : Z) :
  (exists out,
     pregroup_small_settlements settlements min_population max_settlements = Ok out /\
     (length out <= length settlements)%nat) /\
  (max_settlements < Z.of_nat (length settlements) ->
   exists regions : list (string * list settlement),
     pregroup_small_settlements settlements min_population max_settlements
     = Ok (filter (fun s => min_population <= population s) (sort_desc settlements)
           ++ flat_map snd regions) /\
     NoDup (map fst regions) /\
     Forall (fun kv =>
               Forall (fun s => get_admin_region (name s) = fst kv) (snd kv) /\
               Forall (fun s => min_population <= population s)
                      (removelast (snd kv)))
            regions).
Proof.
  rewrite pregroup_small_settlements_eq. split.
  - eexists. split; [reflexivity|].
    destruct (_ <=? _); [lia | apply length_grouped_result].
  - intros Hn. apply Z.leb_gt in Hn. rewrite Hn. unfold grouped_result.
    set (d := by_admin_region _).
    exists (map (fun kv => (fst kv, process_region min_population (sort_desc (snd kv)))) d).
    destruct (by_admin_region_well_keyed
                (filter (fun s => population s < min_population) (sort_desc settlements)))
      as [Hnd Hall].
    fold d in Hnd, Hall. split; [|split].
    + do 2 f_equal. clear. induction d as [|kv d IH]; simpl; [reflexivity|].
      by rewrite IH.
    + by rewrite map_map.
    + apply Forall_map. eapply Forall_impl; [exact Hall|]. simpl.
      intros [k l] Hl. simpl in *. split.
      * eapply groups_of_Forall; [| apply process_region_groups |].
        -- intros. by apply emit_group_region.
        -- by rewrite sort_desc_perm.
      * eapply groups_of_reach. apply process_region_groups.
Qed.

Lemma pregroup_floor_witness :
  3 < Z.of_nat (length floor_input) /\
  exists regions : list (string * list settlement),
    pregroup_small_settlements floor_input 1000 3
    = Ok (filter (fun s => 1000 <= population s) (sort_desc floor_input)
          ++ flat_map snd regions) /\
    NoDup (map fst regions) /\
    Forall (fun kv =>
              Forall (fun s => get_admin_region (name s) = fst kv) (snd kv) /\
              Forall (fun s => 1000 <= population s) (removelast (snd kv)))
           regions.
Proof.
  split; [simpl; lia|].
  apply (pregroup_floor floor_input 1000 3). simpl. lia.
Defined.

(** ** The settlement merger *)

Lemma fromkeys_dedup_first l : fromkeys l = dedup_first l.
Proof.
  induction l as [|x l IH]; [reflexivity|].
  rewrite fromkeys_cons, IH. reflexivity.
Qed.

Lemma fromkeys_from_app acc l1 l2 :
  fromkeys_from acc (l1 ++ l2) = fromkeys_from (fromkeys_from acc l1) l2.
Proof. unfold fromkeys_from. apply fold_left_app. Qed.

Lemma fromkeys_from_twice acc x l :
  fromkeys_from acc (x :: x :: l) = fromkeys_from acc (x :: l).
Proof.
  unfold fromkeys_from. simpl. f_equal.
  destruct (decide (x ∈ acc)) as [Hin|Hin].
  - by rewrite decide_True.
  - rewrite decide_True by set_solver. reflexivity.
Qed.

Lemma collect_self_headed group :
  Forall self_headed group ->
  collect_constituents group = dedup_first (flat_map own_constituents group).
Proof.
  intros H. rewrite <- fromkeys_dedup_first.
  unfold collect_constituents, fromkeys.
  change (fromkeys_from [] (flat_map listed_names group)
          = fromkeys_from [] (flat_map own_constituents group)).
  generalize (@nil string).
  induction H as [|s group Hs _ IH]; intros acc; simpl; [reflexivity|].
  rewrite !fromkeys_from_app, <- IH. f_equal.
  unfold listed_names, own_constituents.
  destruct (constituent_settlements s) as [cs|] eqn:Hcs; [|reflexivity].
  destruct (Hs cs Hcs) as [tl ->].
  apply fromkeys_from_twice.
Qed.

(** C3, as stated, fails: a cluster of one member named "M" whose own
    constituents are ["A"]. The contract gives the constituents ["A"];
    the merger lists the member's own name as well. *)
Lemma merger_lists_own_name :
  exists out,
    process_settlement_group [lone_member] = Ok out /\
    constituent_settlements out = Some ["M"; "A"] /\
    dedup_first (flat_map own_constituents [lone_member]) = ["A"].
Proof. eexists. split; [reflexivity|]. split; reflexivity. Qed.

(** C3, amended: for every cluster of settlements that all carry
    coordinates and whose populations do not sum to zero,
    [process_settlement_group] returns one settlement whose population is
    the integer sum of the members' populations, whose name is the name of
    the first member of greatest population, whose (lat, lon) is the
    population-weighted centroid of the members' coordinates, and whose
    constituents are, member by member, the member's own name followed by
    that member's own constituents, de-duplicated in first-seen order.
    When the constituents of every member that has any start with the
    member's own name, this is the list of the contract. *)
Theorem merger_contract (group : list settlement) :
  Forall has_coords group ->
  sum_population group <> 0 ->
  exists out,
    process_settlement_group group = Ok out /\
    population out = sum_population group /\
    (exists m, first_greatest m group /\ name out = name m) /\
    (exists la lo,
        lat out = Some la /\ lon out = Some lo /\
        (la * inject_Z (sum_population group) == moment lat group)%Q /\
        (lo * inject_Z (sum_population group) == moment lon group)%Q) /\
    constituent_settlements out
    = Some (dedup_first (flat_map listed_names group)) /\
    (Forall self_headed group ->
     constituent_settlements out
     = Some (dedup_first (flat_map own_constituents group))).
Proof.
  intros Hc Hz.
  destruct (process_settlement_group_total group Hc Hz) as [out Hout].
  exists out. split; [exact Hout|].
  destruct (process_settlement_group_spec _ _ Hout) as (Hp & Hn & Hll & Hcs).
  split; [exact Hp|]. split; [exact Hn|]. split; [exact Hll|]. split.
  - rewrite Hcs. unfold collect_constituents. by rewrite fromkeys_dedup_first.
  - intros Hh. rewrite Hcs. by rewrite collect_self_headed.
Qed.

Lemma merger_contract_witness :
  exists out,
    process_settlement_group two_members = Ok out /\
    population out = 400 /\
    name out = "B, R" /\
    constituent_settlements out = Some ["A, R"; "B, R"; "C, R"].
Proof.
  assert (Hc : Forall has_coords two_members).
  { repeat constructor; simpl; eauto. }
  assert (Hz : sum_population two_members <> 0) by (simpl; lia).
  destruct (merger_contract two_members Hc Hz)
    as (out & Hout & Hp & _ & _ & Hcs & _).
  exists out. split; [exact Hout|]. split; [exact Hp|].
  split; [|exact Hcs].
  simpl in Hout. injection Hout as <-. reflexivity.
Defined.

(** ** Region purity *)

Lemma pure_in_region_pure r s : pure_in r s -> region_pure s.
Proof. intros [Hr Hc]. unfold region_pure. by rewrite Hr. Qed.

Lemma leaf_region_pure n p : region_pure (leaf n p).
Proof. split; [reflexivity | discriminate]. Qed.

Lemma Forall_filter_keep {A} (P Q : A -> Prop) `{!forall x, Decision (Q x)} l :
  Forall P l -> Forall P (filter Q l).
Proof.
  rewrite !Forall_forall. intros HP x Hx.
  apply list_elem_of_filter in Hx as [_ Hx]. by apply HP.
Qed.

Lemma filter_none {A} (P : A -> Prop) `{!forall x, Decision (P x)} (l : list A) :
  (forall x, x ∈ l -> ~ P x) -> filter P l = [].
Proof.
  induction l as [|x l IH]; intros HP; [reflexivity|].
  rewrite filter_cons, decide_False by (apply HP; set_solver).
  apply IH. intros y Hy. apply HP. set_solver.
Qed.

Lemma grouped_result_pure ss m :
  Forall region_pure ss -> Forall region_pure (grouped_result ss m).
Proof.
  intros Hss. unfold grouped_result.
  assert (Hsorted : Forall region_pure (sort_desc ss)) by (by rewrite sort_desc_perm).
  apply Forall_app. split; [by apply Forall_filter_keep|].
  set (remaining := filter _ (sort_desc ss)).
  assert (Hrem : Forall region_pure (region_members (by_admin_region remaining))).
  { rewrite by_admin_region_members. by apply Forall_filter_keep. }
  destruct (by_admin_region_well_keyed remaining) as [_ Hkeys].
  revert Hrem Hkeys. generalize (by_admin_region remaining). clear.
  unfold region_members.
  induction l as [|[k rs] d IH]; simpl; intros Hrem Hkeys; [constructor|].
  apply Forall_app in Hrem as [Hrs Hd].
  apply Forall_cons in Hkeys as [Hk Hkeys]. simpl in Hk.
  apply Forall_app. split; [|by apply IH].
  eapply Forall_impl; [apply (process_region_pure m k)|].
  - apply Forall_forall. intros s Hs.
    rewrite Forall_forall in Hrs, Hk.
    specialize (Hrs s Hs). specialize (Hk s Hs).
    unfold region_pure in Hrs. by rewrite Hk in Hrs.
  - intros s. apply pure_in_region_pure.
Qed.

Lemma attach_coordinates_pure locations grouped :
  Forall region_pure grouped ->
  Forall region_pure (fst (fst (attach_coordinates locations grouped))).
Proof.
  induction 1 as [|s grouped Hs _ IH]; simpl; [constructor|].
  destruct (attach_coordinates locations grouped) as [[found nf] det].
  simpl in IH.
  destruct (locations !! name s); simpl; [|exact IH].
  constructor; [|exact IH].
  destruct Hs as [_ Hc]. split; [reflexivity|]. simpl.
  intros cs [= <-]. unfold constituents_or_name.
  destruct (constituent_settlements s) as [cs|]; simpl.
  - by apply Hc.
  - by repeat constructor.
Qed.

Lemma process_settlement_group_pure group out :
  one_region group -> Forall region_pure group ->
  process_settlement_group group = Ok out -> region_pure out.
Proof.
  intros Hone Hpure Hout.
  destruct (process_settlement_group_spec _ _ Hout)
    as (_ & (m & (before & after & Hm & _) & Hname) & _ & Hcs).
  assert (Hin : m ∈ group) by (rewrite Hm; set_solver).
  apply (pure_in_region_pure (get_admin_region (name m))).
  split; [by rewrite Hname|].
  intros cs Hcs'. rewrite Hcs in Hcs'. injection Hcs' as <-.
  apply collect_constituents_pure.
  apply Forall_forall. intros s Hs.
  rewrite Forall_forall in Hpure. specialize (Hpure s Hs).
  unfold region_pure in Hpure. by rewrite (Hone s m Hs Hin) in Hpure.
Qed.

Lemma mapM_process_pure groups finals :
  Forall (fun g => one_region g /\ Forall region_pure g) groups ->
  mapM process_settlement_group groups = Ok finals ->
  Forall region_pure finals.
Proof.
  intros H. revert finals. induction H as [|g groups [H1 H2] _ IH];
    intros finals Hm; simpl in Hm.
  - injection Hm as <-. constructor.
  - destruct (process_settlement_group g) as [out|] eqn:Hg; [|discriminate].
    simpl in Hm.
    destruct (mapM process_settlement_group groups) as [outs|]; [|discriminate].
    simpl in Hm. injection Hm as <-.
    constructor; [by eapply process_settlement_group_pure | by apply IH].
Qed.

(** C8, as stated, fails: the two names differ in the text after their
    first comma, yet the clusterer puts the two settlements in one
    cluster: the region it compares is the second comma-separated field. *)
Lemma cluster_across_first_comma_text :
  group_settlements (fun _ _ => 0%Q) 30%Q [north_field; south_field]
  = Ok [[north_field; south_field]] /\
  Str.after_first comma (name north_field) = Some " X, 1" /\
  Str.after_first comma (name south_field) = Some " X, 2".
Proof. split; [vm_compute; reflexivity | split; reflexivity]. Qed.

(** C8, amended: with the administrative region of a name taken as
    [get_admin_region] computes it (the second comma-separated field of
    the name, stripped of surrounding white space; the empty string when
    the name has no comma), no cluster returned by [group_settlements]
    contains two settlements of different regions; and when every name
    carried by the input records lies in the region of its record, the
    same holds for every record returned by [pregroup_small_settlements],
    for the records given coordinates, and for every settlement that
    [process_settlement_group] merges from the clusters. For a name with
    a single comma this region is the text after the comma, stripped. *)
Theorem region_purity :
  (forall calculate_distance max_distance ss groups,
      group_settlements calculate_distance max_distance ss = Ok groups ->
      Forall one_region groups) /\
  (forall ss min_population max_settlements out,
      Forall region_pure ss ->
      pregroup_small_settlements ss min_population max_settlements = Ok out ->
      Forall region_pure out) /\
  (forall calculate_distance max_distance locations grouped groups finals,
      Forall region_pure grouped ->
      group_settlements calculate_distance max_distance
        (fst (fst (attach_coordinates locations grouped))) = Ok groups ->
      mapM process_settlement_group groups = Ok finals ->
      Forall region_pure finals) /\
  (forall n rest,
      Str.after_first comma n = Some rest ->
      Str.contains comma rest = false ->
      get_admin_region n = Str.strip rest).
Proof.
  split; [|split; [|split; [|exact get_admin_region_one_comma]]].
  - intros dist D ss groups H. apply group_settlements_spec in H.
    eapply Forall_impl; [exact H|]. by intros g (_ & ? & _).
  - intros ss m n out Hss. rewrite pregroup_small_settlements_eq. intros [= <-].
    destruct (_ <=? _); [exact Hss | by apply grouped_result_pure].
  - intros dist D locations grouped groups finals Hg Hgroups Hfinals.
    apply (mapM_process_pure groups); [|exact Hfinals].
    apply group_settlements_spec in Hgroups.
    pose proof (attach_coordinates_pure locations grouped Hg) as Hgeo.
    eapply Forall_impl; [exact Hgroups|]. simpl. intros g (_ & Hone & Hmem).
    split; [exact Hone|].
    apply Forall_forall. intros s Hs.
    rewrite Forall_forall in Hmem, Hgeo. apply Hgeo. by apply Hmem.
Qed.

Lemma region_purity_witness :
  Forall one_region [[north_field; south_field]] /\
  Forall region_pure scenario_input /\
  Forall region_pure [scenario_merged].
Proof.
  destruct region_purity as (H1 & H2 & _). split; [|split].
  - apply (H1 (fun _ _ => 0%Q) 30%Q [north_field; south_field]).
    vm_compute. reflexivity.
  - repeat constructor; discriminate.
  - apply (H2 scenario_input 1000 1 [scenario_merged]).
    + repeat constructor; discriminate.
    + reflexivity.
Defined.

(** ** Names without a comma *)

(** C10: for every name without a comma [get_admin_region] returns the
    empty string, so all such names share one region; two settlements
    with comma-free names are merged by the pregrouper when both lie
    below the floor and the target count is below 2, and are put in one
    cluster by the clusterer when they carry coordinates within the
    distance threshold of each other. *)
Theorem comma_free_names_share_a_region :
  (forall n, Str.contains comma n = false -> get_admin_region n = "") /\
  (forall s1 s2 min_population max_settlements,
      Str.contains comma (name s1) = false ->
      Str.contains comma (name s2) = false ->
      population s1 < min_population ->
      population s2 < min_population ->
      max_settlements < 2 ->
      exists merged,
        pregroup_small_settlements [s1; s2] min_population max_settlements
        = Ok [merged] /\
        population merged = population s1 + population s2 /\
        exists cs, constituent_settlements merged = Some cs /\
                   name s1 ∈ cs /\ name s2 ∈ cs) /\
  (forall calculate_distance max_distance s1 s2 la1 lo1 la2 lo2,
      Str.contains comma (name s1) = false ->
      Str.contains comma (name s2) = false ->
      lat s1 = Some la1 -> lon s1 = Some lo1 ->
      lat s2 = Some la2 -> lon s2 = Some lo2 ->
      Qle_bool (calculate_distance (la1, lo1) (la2, lo2)) max_distance = true ->
      Qle_bool (calculate_distance (la2, lo2) (la1, lo1)) max_distance = true ->
      exists group,
        group_settlements calculate_distance max_distance [s1; s2] = Ok [group] /\
        s1 ∈ group /\ s2 ∈ group).
Proof.
  split; [exact get_admin_region_no_comma|]. split.
  - intros s1 s2 m n H1 H2 Hp1 Hp2 Hn.
    rewrite pregroup_small_settlements_eq.
    replace (Z.of_nat (length [s1; s2]) <=? n) with false
      by (symmetry; apply Z.leb_gt; simpl; lia).
    unfold grouped_result.
    assert (Hsort : exists a b, sort_desc [s1; s2] = [a; b] /\
              population a + population b = population s1 + population s2 /\
              get_admin_region (name a) = "" /\ get_admin_region (name b) = "" /\
              population a < m /\ population b < m /\
              name s1 ∈ [name a; name b] /\ name s2 ∈ [name a; name b]).
    { apply get_admin_region_no_comma in H1, H2. simpl.
      destruct (population s1 <? population s2).
      - exists s2, s1. repeat split; try done; try lia; set_solver.
      - exists s1, s2. repeat split; try done; try lia; set_solver. }
    destruct Hsort as (a & b & -> & Hsum & Ha & Hb & Hpa & Hpb & Hn1 & Hn2).
    rewrite !filter_cons, filter_nil.
    rewrite !(decide_False (P := m <= _)) by lia.
    rewrite !(decide_True (P := _ < m)) by lia.
    unfold by_admin_region. simpl. rewrite Ha, Hb. simpl.
    assert (Hgroup : forall x y, population x < m ->
      process_region m [x; y]
      = [mkSettlement (name (max_from x [y])) (population x + population y)
                      None None None None
                      (Some (collect_constituents [x; y]))]).
    { intros x y Hx. simpl.
      replace (m <=? population x) with false by (symmetry; apply Z.leb_gt; lia).
      reflexivity. }
    rewrite app_nil_r.
    destruct (population a <? population b); rewrite Hgroup by lia; eexists;
      (split; [reflexivity|]); (split; [simpl; lia|]);
      eexists; (split; [reflexivity|]);
      unfold collect_constituents; rewrite !elem_of_fromkeys;
      unfold listed_names; simpl; set_solver.
  - intros dist D s1 s2 la1 lo1 la2 lo2 H1 H2 Hla1 Hlo1 Hla2 Hlo2 Hd12 Hd21.
    apply get_admin_region_no_comma in H1, H2.
    assert (Hpair : forall a b la lo la' lo',
      get_admin_region (name a) = "" -> get_admin_region (name b) = "" ->
      lat a = Some la -> lon a = Some lo -> lat b = Some la' -> lon b = Some lo' ->
      Qle_bool (dist (la, lo) (la', lo')) D = true ->
      seed_groups dist D [(0%nat, a); (1%nat, b)] [(0%nat, a); (1%nat, b)] ∅
      = Ok [[a; b]]).
    { intros a b la lo la' lo' Ha Hb Hla Hlo Hla' Hlo' Hd. simpl.
      rewrite (decide_False (P := 0%nat ∈ ∅)) by set_solver.
      rewrite (decide_True (P := 0%nat ∈ {[0%nat]} ∪ ∅)) by set_solver.
      rewrite (decide_False (P := 1%nat ∈ {[0%nat]} ∪ ∅)) by set_solver.
      rewrite Ha, Hb. rewrite (decide_True (P := "" = "")) by reflexivity.
      unfold within, get_lat, get_lon. rewrite Hla, Hlo, Hla', Hlo'. simpl.
      rewrite Hd. simpl.
      rewrite (decide_True (P := 1%nat ∈ _)) by set_solver. reflexivity. }
    unfold group_settlements. simpl sort_desc.
    destruct (population s1 <? population s2); unfold enumerate; simpl imap.
    + exists [s2; s1]. split; [by eapply Hpair | set_solver].
    + exists [s1; s2]. split; [by eapply Hpair | set_solver].
Qed.

Lemma comma_free_names_share_a_region_witness :
  get_admin_region "Ardmore" = "" /\
  (exists merged,
      pregroup_small_settlements [hamlet_a; hamlet_b] 1000 1 = Ok [merged] /\
      population merged = 700) /\
  (exists group,
      group_settlements (fun _ _ => 0%Q) 30%Q [hamlet_a; hamlet_b] = Ok [group] /\
      hamlet_a ∈ group /\ hamlet_b ∈ group).
Proof.
  destruct comma_free_names_share_a_region as (H1 & H2 & H3). split; [|split].
  - apply H1. reflexivity.
  - destruct (H2 hamlet_a hamlet_b 1000 1) as (merged & Hm & Hp & _);
      [reflexivity | reflexivity | simpl; lia | simpl; lia | lia |].
    exists merged. split; [exact Hm | exact Hp].
  - apply (H3 (fun _ _ => 0%Q) 30%Q hamlet_a hamlet_b
              (52 # 1)%Q (- (8 # 1))%Q (52 # 1)%Q (- (8 # 1))%Q); reflexivity.
Defined.

(** ** The grid transformation *)

Lemma scale_x_value : (50000 / (- (59 # 10) - - (106 # 10)) == 500000 # 47)%Q.
Proof. reflexivity. Qed.

Lemma scale_y_value : (50000 / ((554 # 10) - (514 # 10)) == 12500)%Q.
Proof. reflexivity. Qed.

Lemma orchestrator_grid_range la lo :
  in_bbox IRELAND_BBOX la lo ->
  exists x y,
    IrelandBounds.transform_coordinates [(lo, la)]
      IrelandBounds.calculate_grid_transformation = [(x, y)] /\
    (0 <= x /\ x <= 50000 /\ 0 <= y /\ y <= 50000)%Q /\
    (x == lerp 0 50000 (fraction (min_lon IRELAND_BBOX) (max_lon IRELAND_BBOX) lo))%Q /\
    (y == lerp 0 50000 (fraction (min_lat IRELAND_BBOX) (max_lat IRELAND_BBOX) la))%Q.
Proof.
  intros (H1 & H2 & H3 & H4). eexists _, _. split; [reflexivity|].
  unfold IrelandBounds.calculate_grid_transformation, lerp, fraction.
  cbn -[Qmult Qminus Qdiv Qplus Qle Qeq] in *.
  split.
  - rewrite scale_x_value, scale_y_value. repeat split; lra.
  - split; field; discriminate.
Qed.

Lemma exporter_grid_range la lo :
  in_bbox IRELAND_BBOX la lo ->
  let xy := TransformSettlements.transform_coordinates la lo in
  (0 <= fst xy /\ fst xy <= 100000 /\ 0 <= snd xy /\ snd xy <= 100000)%Q /\
  (fst xy == lerp 0 100000 (fraction (min_lon IRELAND_BBOX) (max_lon IRELAND_BBOX) lo))%Q /\
  (snd xy == lerp 0 100000 (fraction (min_lat IRELAND_BBOX) (max_lat IRELAND_BBOX) la))%Q.
Proof.
  intros (H1 & H2 & H3 & H4).
  unfold TransformSettlements.transform_coordinates, lerp, fraction.
  cbn -[Qmult Qminus Qdiv Qplus Qle Qeq] in *.
  split.
  - assert (Hx : ((lo - - (106 # 10)) / (- (59 # 10) - - (106 # 10)) * 100000
                  == (lo + (106 # 10)) * (1000000 # 47))%Q) by (field; discriminate).
    assert (Hy : ((la - (514 # 10)) / ((554 # 10) - (514 # 10)) * 100000
                  == (la - (514 # 10)) * 25000)%Q) by (field; discriminate).
    rewrite Hx, Hy. repeat split; lra.
  - split; field; discriminate.
Qed.

(** C2: the transformation the orchestrator takes from [ireland_bounds]
    maps every (lat, lon) inside the Ireland bounding box to a point
    (x, y) of [0, 100000] x [0, 100000], each coordinate by linear
    interpolation between the two edges of the box on its axis (the
    lower edge goes to 0, the upper edge to 50000); these are the
    [grid_x] and [grid_y] the orchestrator stores. The transformation of
    [transform_settlements] does the same with the upper edge at 100000. *)
Theorem grid_transform_range (s : settlement) (la lo : Q) :
  in_bbox IRELAND_BBOX la lo ->
  lat s = Some la -> lon s = Some lo ->
  exists x y s',
    IrelandBounds.transform_coordinates [(lo, la)]
      IrelandBounds.calculate_grid_transformation = [(x, y)] /\
    set_grid IrelandBounds.calculate_grid_transformation s = Ok s' /\
    grid_x s' = Some x /\ grid_y s' = Some y /\
    (0 <= x /\ x <= 100000 /\ 0 <= y /\ y <= 100000)%Q /\
    (x == lerp 0 50000 (fraction (min_lon IRELAND_BBOX) (max_lon IRELAND_BBOX) lo))%Q /\
    (y == lerp 0 50000 (fraction (min_lat IRELAND_BBOX) (max_lat IRELAND_BBOX) la))%Q /\
    let xy := TransformSettlements.transform_coordinates la lo in
    (0 <= fst xy /\ fst xy <= 100000 /\ 0 <= snd xy /\ snd xy <= 100000)%Q /\
    (fst xy == lerp 0 100000 (fraction (min_lon IRELAND_BBOX) (max_lon IRELAND_BBOX) lo))%Q /\
    (snd xy == lerp 0 100000 (fraction (min_lat IRELAND_BBOX) (max_lat IRELAND_BBOX) la))%Q.
Proof.
  intros Hbox Hla Hlo.
  destruct (orchestrator_grid_range la lo Hbox)
    as (x & y & Ht & (Hx0 & Hx1 & Hy0 & Hy1) & Hlx & Hly).
  exists x, y. eexists. split; [exact Ht|].
  unfold set_grid, get_lat, get_lon. rewrite Hla, Hlo. cbn [rbind]. rewrite Ht.
  split; [reflexivity|]. split; [reflexivity|]. split; [reflexivity|].
  split; [repeat split; lra|]. split; [exact Hlx|]. split; [exact Hly|].
  exact (exporter_grid_range la lo Hbox).
Qed.

Lemma grid_transform_range_witness :
  in_bbox IRELAND_BBOX (534 # 10) (- (79 # 10)) /\
  exists x y s',
    set_grid IrelandBounds.calculate_grid_transformation athlone = Ok s' /\
    grid_x s' = Some x /\ grid_y s' = Some y /\
    (0 <= x /\ x <= 100000 /\ 0 <= y /\ y <= 100000)%Q.
Proof.
  assert (Hbox : in_bbox IRELAND_BBOX (534 # 10) (- (79 # 10))).
  { unfold in_bbox. simpl. repeat split; discriminate. }
  split; [exact Hbox|].
  destruct (grid_transform_range athlone (534 # 10) (- (79 # 10)) Hbox eq_refl eq_refl)
    as (x & y & s' & _ & Hs & Hx & Hy & Hr & _).
  exists x, y, s'. repeat split; tauto.
Defined.

(** ** The checkpointed geocode resolver *)

Lemma same_other_files_refl w : same_other_files w w.
Proof. by repeat split. Qed.

Lemma same_other_files_trans w1 w2 w3 :
  same_other_files w1 w2 -> same_other_files w2 w3 -> same_other_files w1 w3.
Proof.
  intros (?&?&?&?&?&?) (?&?&?&?&?&?). repeat split; congruence.
Qed.

Lemma add_requests_nil w : add_requests w [] = w.
Proof. destruct w. unfold add_requests. simpl. by rewrite app_nil_r. Qed.

Lemma add_requests_app w l1 l2 :
  add_requests (add_requests w l1) l2 = add_requests w (l1 ++ l2).
Proof. unfold add_requests. simpl. by rewrite app_assoc. Qed.

Lemma concat_chunks_fuel fuel k l :
  (length l <= fuel)%nat -> concat (chunks_fuel fuel (S k) l) = l.
Proof.
  revert l. induction fuel as [|fuel IH]; intros l Hl.
  - destruct l; [reflexivity | simpl in Hl; lia].
  - destruct l as [|x l]; [reflexivity|].
    cbn [chunks_fuel concat]. rewrite IH.
    + apply take_drop.
    + rewrite length_drop. simpl in *. lia.
Qed.

Lemma concat_chunks k l : concat (chunks (S k) l) = l.
Proof. apply concat_chunks_fuel. lia. Qed.

Lemma chunks_nonempty k l : l <> [] -> chunks (S k) l <> [].
Proof. destruct l; [done|]. discriminate. Qed.

Section ResolverFacts.
Variable geocode : list string -> string -> option (Q * Q).

(** One batch: every name of the batch is requested, once and in order;
    entries under other names are left as they are. *)
Lemma process_batch_run batch : forall results w,
  exists results',
    process_batch geocode batch results w = (Ok results', add_requests w batch) /\
    (forall n, n ∉ batch -> results' !! n = results !! n).
Proof.
  induction batch as [|n batch IH]; intros results w.
  - exists results. simpl. unfold ret. by rewrite add_requests_nil.
  - cbn [process_batch]. unfold bind, fetch_google_maps_location.
    set (results1 := match geocode (requests w) n with
                     | Some l => <[n:=l]> results
                     | None => results
                     end).
    destruct (IH results1 (add_requests w [n])) as (results' & Hrun & Hother).
    exists results'. split.
    + unfold add_requests in Hrun at 1. rewrite Hrun.
      by rewrite add_requests_app.
    + intros n' Hn'. rewrite Hother by set_solver.
      unfold results1. destruct (geocode _ _); [|reflexivity].
      apply lookup_insert_ne. set_solver.
Qed.

Lemma process_batches_run batches : forall results w,
  exists results' w',
    process_batches geocode batches results w = (Ok results', w') /\
    requests w' = requests w ++ concat batches /\
    same_other_files w w' /\
    (batches <> [] -> locations_pickle (checkpoint_dir w') = Some results') /\
    (batches = [] -> w' = w /\ results' = results) /\
    (forall n, n ∉ concat batches -> results' !! n = results !! n).
Proof.
  induction batches as [|batch batches IH]; intros results w.
  - exists results, w. simpl. unfold ret. rewrite app_nil_r.
    repeat split; try done; apply same_other_files_refl.
  - cbn [process_batches]. unfold bind at 1.
    destruct (process_batch_run batch results w) as (results1 & -> & Hother1).
    unfold bind at 1, save_locations, update_checkpoints.
    cbn [checkpoint_dir settlements_json unmatched_settlements_json requests add_requests].
    match goal with |- context [process_batches geocode batches results1 ?w1] =>
      destruct (IH results1 w1) as (results' & w' & -> & Hreq & Hsame & Hsaved & Hnil & Hother)
    end.
    exists results', w'. split; [reflexivity|].
    simpl in Hreq. split; [by rewrite Hreq, <- app_assoc|].
    split; [|split; [|split]].
    + eapply same_other_files_trans; [|exact Hsame]. by repeat split.
    + intros _. destruct batches as [|b batches].
      * destruct (Hnil eq_refl) as [-> ->]. reflexivity.
      * by apply Hsaved.
    + discriminate.
    + intros n Hn. simpl in Hn. rewrite Hother, Hother1 by set_solver. reflexivity.
Qed.

(** The resolver on a loaded checkpoint [ck] (empty when there is no
    file): it requests exactly the names absent from [ck], keeps every
    entry of [ck], and leaves its result as the checkpoint. *)
Lemma fetch_locations_batch_run names k w :
  let ck := default ∅ (locations_pickle (checkpoint_dir w)) in
  exists results w',
    fetch_locations_batch true geocode names (S k) w = (Ok results, w') /\
    requests w' = requests w ++ filter (fun n => ck !! n = None) names /\
    (forall n c, ck !! n = Some c -> results !! n = Some c) /\
    default ∅ (locations_pickle (checkpoint_dir w')) = results /\
    same_other_files w w' /\
    (filter (fun n => ck !! n = None) names = [] -> w' = w /\ results = ck).
Proof.
  intros ck. unfold fetch_locations_batch. cbn [negb].
  unfold bind, load_checkpoint. fold ck.
  destruct (filter (fun n => ck !! n = None) names) as [|n0 todo] eqn:Htodo.
  - exists ck, w. unfold ret. rewrite app_nil_r.
    repeat split; done.
  - destruct (process_batches_run (chunks (S k) (n0 :: todo)) ck w)
      as (results & w' & Hrun & Hreq & Hsame & Hsaved & _ & Hother).
    exists results, w'. split; [exact Hrun|].
    rewrite concat_chunks in Hreq, Hother.
    split; [exact Hreq|]. split; [|split; [|split]].
    + intros n c Hn. rewrite Hother; [exact Hn|].
      rewrite <- Htodo. rewrite list_elem_of_filter. intros [Hnone _]. congruence.
    + rewrite Hsaved; [reflexivity|]. by apply chunks_nonempty.
    + exact Hsame.
    + discriminate.
Qed.

End ResolverFacts.

(** C9, as stated, fails: a name the service does not resolve is absent
    from the checkpoint after the first run, and the second run over the
    same list requests it again. *)
Lemma unresolved_name_requested_again :
  let run1 := fetch_locations_batch true never_found ["Nowhere"] 50 empty_world in
  let run2 := fetch_locations_batch true never_found ["Nowhere"] 50 (snd run1) in
  requests (snd run1) = ["Nowhere"] /\
  requests (snd run2) = ["Nowhere"; "Nowhere"].
Proof. vm_compute. split; reflexivity. Qed.

(** C9, amended: with the API key set and a positive batch size, the
    resolver issues no request for a name that is a key of the loaded
    [locations] checkpoint and returns that name with the coordinate the
    checkpoint stores; a second run over the same list requests exactly
    the names the first run left without a coordinate, so it does no work
    when the first run resolved every name. *)
Theorem geocode_idempotence (geocode : list string -> string -> option (Q * Q))
    (names : list string) (k : nat) (w : world) :
  let ck := default ∅ (locations_pickle (checkpoint_dir w)) in
  exists results w1 results2 w2,
    fetch_locations_batch true geocode names (S k) w = (Ok results, w1) /\
    (exists new,
        requests w1 = requests w ++ new /\
        forall n c, ck !! n = Some c -> (n ∉ new) /\ results !! n = Some c) /\
    fetch_locations_batch true geocode names (S k) w1 = (Ok results2, w2) /\
    requests w2 = requests w1 ++ filter (fun n => results !! n = None) names /\
    ((forall n, n ∈ names -> is_Some (results !! n)) -> w2 = w1 /\ results2 = results).
Proof.
  intros ck.
  destruct (fetch_locations_batch_run geocode names k w)
    as (results & w1 & Hrun1 & Hreq1 & Hkeep1 & Hck1 & _ & _).
  destruct (fetch_locations_batch_run geocode names k w1)
    as (results2 & w2 & Hrun2 & Hreq2 & _ & _ & _ & Hnil2).
  rewrite Hck1 in Hreq2, Hnil2.
  exists results, w1, results2, w2.
  split; [exact Hrun1|]. split; [|split; [exact Hrun2|split; [exact Hreq2|]]].
  - eexists. split; [exact Hreq1|]. intros n c Hn. split; [|by apply Hkeep1].
    rewrite list_elem_of_filter. fold ck. intros [Hnone _]. congruence.
  - intros Hall. apply Hnil2. apply filter_none.
    intros n Hn Hnone. destruct (Hall n Hn) as [c Hc]. congruence.
Qed.

Lemma geocode_idempotence_witness :
  exists results w1 results2 w2,
    fetch_locations_batch true all_but_S9 ["S0"; "S1"; "S9"] 50 resumed_world
    = (Ok results, w1) /\
    results !! "S0" = Some ((52 # 1)%Q, (- (9 # 1))%Q) /\
    ("S0" ∉ requests w1) /\
    fetch_locations_batch true all_but_S9 ["S0"; "S1"; "S9"] 50 w1
    = (Ok results2, w2) /\
    requests w2 = requests w1 ++ filter (fun n => results !! n = None) ["S0"; "S1"; "S9"].
Proof.
  destruct (geocode_idempotence all_but_S9 ["S0"; "S1"; "S9"] 49 resumed_world)
    as (results & w1 & results2 & w2 & Hrun1 & (new & Hreq & Hkeep) & Hrun2 & Hreq2 & _).
  exists results, w1, results2, w2.
  destruct (Hkeep "S0" ((52 # 1)%Q, (- (9 # 1))%Q)) as [Hnot Hres];
    [vm_compute; reflexivity|].
  split; [exact Hrun1|]. split; [exact Hres|].
  split; [rewrite Hreq; exact Hnot|]. split; [exact Hrun2 | exact Hreq2].
Defined.

(** ** The orchestrator *)

Lemma rate_le_tenth (a m : Z) :
  0 < m -> ((inject_Z a / inject_Z m <= 1 # 10)%Q <-> 10 * a <= m).
Proof.
  intros Hm.
  assert (Hq : (0 < inject_Z m)%Q) by (unfold Qlt; simpl; lia).
  rewrite <- (Qmult_le_r _ _ (inject_Z m) Hq).
  assert (E : (inject_Z a / inject_Z m * inject_Z m == inject_Z a)%Q).
  { field. intros H. rewrite H in Hq. by apply Qlt_irrefl in Hq. }
  rewrite E. unfold Qle. simpl. lia.
Qed.

Lemma high_failure_rate_iff q : high_failure_rate q = true <-> (1 # 10 < q)%Q.
Proof.
  unfold high_failure_rate. rewrite negb_true_iff.
  rewrite <- not_true_iff_false, Qle_bool_iff. split.
  - apply Qnot_le_lt.
  - apply Qlt_not_le.
Qed.

Lemma low_failure_rate_iff q : high_failure_rate q = false <-> (q <= 1 # 10)%Q.
Proof.
  unfold high_failure_rate. rewrite negb_false_iff. apply Qle_bool_iff.
Qed.

Lemma attach_coordinates_spec locations grouped :
  not_found_of locations grouped = map name (unresolved locations grouped) /\
  sum_population (geocoded_of locations grouped)
  + sum_population (unresolved locations grouped) = sum_population grouped /\
  (length (geocoded_of locations grouped)
   + length (not_found_of locations grouped) = length grouped)%nat /\
  length (not_found_details_of locations grouped)
  = length (not_found_of locations grouped) /\
  Forall has_coords (geocoded_of locations grouped).
Proof.
  unfold geocoded_of, not_found_of, not_found_details_of, unresolved.
  induction grouped as [|s grouped IH]; simpl.
  - repeat split; constructor.
  - destruct (attach_coordinates locations grouped) as [[found nf] det].
    simpl in IH. destruct IH as (H1 & H2 & H3 & H4 & H5).
    rewrite filter_cons.
    destruct (locations !! name s) as [c|] eqn:Hc; simpl.
    + repeat split; try done; try lia.
      constructor; [|done]. split; simpl; eauto.
    + repeat split; try done; try lia. by rewrite H1.
Qed.

Lemma mapM_set_grid transform l l' :
  mapM (set_grid transform) l = Ok l' ->
  sum_population l' = sum_population l /\ length l' = length l.
Proof.
  revert l'. induction l as [|s l IH]; intros l' H; simpl in H.
  - by injection H as <-.
  - destruct (set_grid transform s) as [s'|] eqn:Hs; [|discriminate]. simpl in H.
    destruct (mapM (set_grid transform) l) as [l0|]; [|discriminate].
    simpl in H. injection H as <-.
    destruct (IH l0 eq_refl) as [IH1 IH2]. simpl.
    unfold set_grid in Hs.
    destruct (get_lon s); [|discriminate]. destruct (get_lat s); [|discriminate].
    simpl in Hs. injection Hs as <-. simpl. split; congruence.
Qed.

Lemma set_grid_total transform s :
  has_coords s -> exists s', set_grid transform s = Ok s'.
Proof.
  intros [[la Hla] [lo Hlo]].
  unfold set_grid, get_lat, get_lon. rewrite Hla, Hlo. simpl. eauto.
Qed.

Lemma mapM_set_grid_total transform l :
  Forall has_coords l -> exists l', mapM (set_grid transform) l = Ok l'.
Proof.
  induction 1 as [|s l Hs _ [l' IH]]; simpl; [eauto|].
  destruct (set_grid_total transform s Hs) as [s' ->].
  rewrite IH. simpl. eauto.
Qed.

Lemma retained_refl c : retained c c.
Proof. by repeat split. Qed.

Lemma retained_trans c1 c2 c3 : retained c1 c2 -> retained c2 c3 -> retained c1 c3.
Proof. intros (?&?&?&?&?) (?&?&?&?&?). repeat split; auto. Qed.

Lemma retained_with_processed c d : retained c (with_processed c d).
Proof. repeat split; simpl; eauto. Qed.

Lemma len_nonzero {A} (l : list A) : l <> [] -> 0 < len l.
Proof. destruct l; [done|]. unfold len. simpl. lia. Qed.

(** On a command line that [parse_args] accepts, [main] is its [try]
    block. *)
Lemma main_parsed has_api_key geocode calculate_distance population_csv
    missing_settlements append w :
  main has_api_key geocode calculate_distance population_csv missing_settlements
       (Ok append) w
  = match main_body has_api_key geocode calculate_distance population_csv
                    missing_settlements append w with
    | (Ok tt, w') => (Ok tt, w')
    | (Raise (SystemExit c), w') => (Raise (SystemExit c), w')
    | (Raise _, w') => (Raise (SystemExit 1), w')
    end.
Proof. reflexivity. Qed.

Section OrchestratorFacts.
Variable geocode : list string -> string -> option (Q * Q).
Variable calculate_distance : Q * Q -> Q * Q -> Q.
Variable population_csv : option (list settlement).
Variable missing_settlements : option (list (string * Z)).

Lemma finalize_rate existing total geocoded nf names d :
  finalize calculate_distance existing total geocoded nf names = Ok d ->
  failure_rate (metadata d) = (inject_Z (len nf) / inject_Z (len names))%Q /\
  total_ireland_population (metadata d)
  = match existing with
    | Some e => total_ireland_population (metadata e)
    | None => total
    end.
Proof.
  unfold finalize. intros H.
  destruct (group_settlements _ _ geocoded) as [groups|]; [|discriminate].
  cbn [rbind] in H.
  destruct (mapM process_settlement_group groups) as [finals|]; [|discriminate].
  cbn [rbind] in H.
  destruct (mapM _ finals) as [finals'|]; [|discriminate]. cbn [rbind] in H.
  destruct existing as [e|].
  - unfold combine_with_existing in H.
    destruct (if 0 <? _ then _ else _) as [olds|]; [|discriminate].
    cbn [rbind] in H. unfold py_div in H.
    destruct (len names =? 0); [discriminate|]. cbn [rbind] in H.
    by injection H as <-.
  - unfold fresh_dataset, py_div in H.
    destruct (len names =? 0); [discriminate|]. cbn [rbind] in H.
    by injection H as <-.
Qed.

Lemma finalize_fresh total geocoded nf names d :
  finalize calculate_distance None total geocoded nf names = Ok d ->
  total_population (metadata d) = sum_population geocoded /\
  sum_population (settlements d) = sum_population geocoded /\
  unmatched_settlements (metadata d) = nf.
Proof.
  unfold finalize. intros H.
  destruct (group_settlements _ _ geocoded) as [groups|] eqn:Hg; [|discriminate].
  cbn [rbind] in H.
  destruct (mapM process_settlement_group groups) as [finals|] eqn:Hf;
    [|discriminate].
  cbn [rbind] in H.
  destruct (mapM _ finals) as [finals'|] eqn:Hs; [|discriminate]. cbn [rbind] in H.
  unfold fresh_dataset, py_div in H.
  destruct (len names =? 0); [discriminate|]. cbn [rbind] in H.
  injection H as <-. cbn [metadata settlements total_population unmatched_settlements].
  apply mapM_set_grid in Hs as [Hs _].
  apply mapM_process_sum in Hf. apply group_settlements_sum in Hg.
  repeat split; congruence.
Qed.

Lemma mapM_process_total groups :
  Forall (fun g => Forall has_coords g /\ sum_population g <> 0) groups ->
  exists finals,
    mapM process_settlement_group groups = Ok finals /\ Forall has_coords finals.
Proof.
  induction 1 as [|g groups [Hc Hz] _ (finals & IH & Hfin)]; simpl.
  - eexists. split; [reflexivity | constructor].
  - destruct (process_settlement_group_total g Hc Hz) as [out Hout].
    rewrite Hout, IH. simpl. eexists. split; [reflexivity|].
    constructor; [|exact Hfin].
    destruct (process_settlement_group_spec _ _ Hout)
      as (_ & _ & (la & lo & Hla & Hlo & _) & _).
    split; eauto.
Qed.

Lemma positive_sum l :
  l <> [] -> Forall (fun s => 0 < population s) l -> 0 < sum_population l.
Proof.
  intros Hne H. destruct H as [|s l Hs Hl]; [done|]. simpl.
  assert (0 <= sum_population l); [|lia].
  clear -Hl. induction Hl; simpl; lia.
Qed.

(** Stage 5 succeeds on records that all carry coordinates and a
    positive population. *)
Lemma finalize_fresh_total total geocoded nf names :
  Forall has_coords geocoded ->
  Forall (fun s => 0 < population s) geocoded ->
  names <> [] ->
  exists d, finalize calculate_distance None total geocoded nf names = Ok d.
Proof.
  intros Hc Hp Hn. unfold finalize.
  destruct (group_settlements_total calculate_distance 30%Q geocoded Hc)
    as [groups Hg].
  rewrite Hg. cbn [rbind].
  apply group_settlements_spec in Hg.
  destruct (mapM_process_total groups) as (finals & -> & Hfin).
  { eapply Forall_impl; [exact Hg|]. simpl. intros g (Hne & _ & Hmem).
    rewrite Forall_forall in Hmem, Hc, Hp. split.
    - apply Forall_forall. auto.
    - assert (0 < sum_population g); [|lia].
      apply positive_sum; [exact Hne|]. apply Forall_forall. auto. }
  cbn [rbind].
  destruct (mapM_set_grid_total IrelandBounds.calculate_grid_transformation
              finals Hfin) as [finals' ->].
  cbn [rbind]. unfold fresh_dataset, py_div.
  apply len_nonzero in Hn.
  replace (len names =? 0) with false by (symmetry; apply Z.eqb_neq; lia).
  cbn [rbind]. eauto.
Qed.

Lemma stage_4_run grouped locations w :
  grouped <> [] ->
  ((1 # 10 < unresolved_rate locations grouped)%Q ->
   stage_4 grouped locations w
   = (Raise (SystemExit 1), after_stage_4 locations grouped w)) /\
  ((unresolved_rate locations grouped <= 1 # 10)%Q ->
   geocoded_of locations grouped <> [] /\
   stage_4 grouped locations w
   = (Ok (geocoded_of locations grouped, not_found_of locations grouped),
      after_stage_4 locations grouped w)).
Proof.
  intros Hne.
  destruct (attach_coordinates_spec locations grouped) as (_ & _ & Hlen & Hdet & _).
  unfold unresolved_rate, after_stage_4, stage_4,
    geocoded_of, not_found_of, not_found_details_of in *.
  destruct (attach_coordinates locations grouped) as [[geocoded nf] det].
  cbn [fst snd] in *.
  assert (Hm : 0 < len (map name grouped)).
  { apply len_nonzero. by destruct grouped. }
  assert (Hlen' : len geocoded + len nf = len (map name grouped)).
  { unfold len. rewrite length_map. lia. }
  pose proof (rate_le_tenth (len nf) _ Hm) as Hrate.
  unfold bind, save_processed_settlements, update_checkpoints,
    save_unmatched_settlements, ret, raise, failure_gate, lift, py_div.
  cbn [checkpoint_dir settlements_json unmatched_settlements_json requests].
  fold (with_processed (checkpoint_dir w) (geocoded, nf)).
  replace (len (map name grouped) =? 0) with false
    by (symmetry; apply Z.eqb_neq; lia).
  destruct nf as [|n nf].
  - destruct det; [|discriminate]. cbn. split.
    + intros Hhigh. apply Qlt_not_le in Hhigh. exfalso. apply Hhigh.
      apply Hrate. unfold len in *. simpl in *. lia.
    + intros _. destruct geocoded; [|split; [discriminate|reflexivity]].
      unfold len in *. simpl in *. lia.
  - destruct det as [|d det]; [discriminate|].
    cbn [checkpoint_dir settlements_json unmatched_settlements_json requests].
    set (rate := (inject_Z (len (n :: nf)) / inject_Z (len (map name grouped)))%Q) in *.
    split.
    + intros Hhigh. apply high_failure_rate_iff in Hhigh. cbn. rewrite Hhigh.
      reflexivity.
    + intros Hlow. pose proof Hlow as Hlow'.
      apply low_failure_rate_iff in Hlow. cbn. rewrite Hlow.
      apply Hrate in Hlow'.
      destruct geocoded; [|split; [discriminate|reflexivity]].
      unfold len in *. simpl in *. lia.
Qed.

Lemma stage_5_loaded existing total geocoded nf names w d :
  final_settlements_pickle (checkpoint_dir w) = Some d ->
  stage_5 calculate_distance existing total geocoded nf names w
  = (Ok tt,
     mkWorld (if high_failure_rate (failure_rate (metadata d))
              then checkpoint_dir w else no_checkpoints)
             (Some d) (unmatched_settlements_json w) (requests w)).
Proof.
  intros Hd. unfold stage_5, bind, load_checkpoint. rewrite Hd.
  unfold ret, write_settlements_json. cbn.
  destruct (high_failure_rate _); reflexivity.
Qed.

Lemma stage_5_computed existing total geocoded nf names w d :
  final_settlements_pickle (checkpoint_dir w) = None ->
  finalize calculate_distance existing total geocoded nf names = Ok d ->
  stage_5 calculate_distance existing total geocoded nf names w
  = (Ok tt,
     mkWorld (if high_failure_rate (failure_rate (metadata d))
              then with_final (checkpoint_dir w) d else no_checkpoints)
             (Some d) (unmatched_settlements_json w) (requests w)).
Proof.
  intros Hnone Hd. unfold stage_5, bind, load_checkpoint. rewrite Hnone.
  unfold lift. rewrite Hd.
  unfold ret, write_settlements_json, save_final_settlements, update_checkpoints.
  cbn. destruct (high_failure_rate _); reflexivity.
Qed.

Lemma stage_5_failed existing total geocoded nf names w e :
  final_settlements_pickle (checkpoint_dir w) = None ->
  finalize calculate_distance existing total geocoded nf names = Raise e ->
  stage_5 calculate_distance existing total geocoded nf names w = (Raise e, w).
Proof.
  intros Hnone Hd. unfold stage_5, bind, load_checkpoint. rewrite Hnone.
  unfold lift. rewrite Hd. reflexivity.
Qed.

Lemma stage_1_props append w existing cso w1 :
  stage_1 population_csv missing_settlements append w = (Ok (existing, cso), w1) ->
  settlements_json w1 = settlements_json w /\
  (append = false ->
   existing = None /\ retained (checkpoint_dir w) (checkpoint_dir w1)) /\
  (append = true ->
   existing = settlements_json w /\ is_Some existing /\
   checkpoint_dir w1 = no_checkpoints).
Proof.
  unfold stage_1, bind, load_existing_settlements, load_checkpoint,
    load_missing_settlements, fetch_cso_settlements, clear_checkpoints,
    save_cso_settlements, update_checkpoints, ret, raise.
  destruct append.
  - destruct (settlements_json w) as [e|] eqn:He; [|discriminate].
    destruct missing_settlements as [l|]; [|discriminate].
    cbn. intros [= <- <- <-]. cbn. rewrite He. repeat split; eauto; discriminate.
  - destruct (cso_settlements_pickle (checkpoint_dir w)) as [c|] eqn:Hc.
    + intros [= <- <- <-]. repeat split; done.
    + destruct population_csv as [[|s l]|]; try discriminate.
      cbn. intros [= <- <- <-]. cbn. repeat split; try done; cbn; eauto.
Qed.

Lemma stage_2_props cso w1 grouped w2 :
  stage_2 cso w1 = (Ok grouped, w2) ->
  settlements_json w2 = settlements_json w1 /\
  retained (checkpoint_dir w1) (checkpoint_dir w2) /\
  final_settlements_pickle (checkpoint_dir w2)
  = final_settlements_pickle (checkpoint_dir w1) /\
  (grouped_settlements_pickle (checkpoint_dir w1) = None ->
   pregroup_default cso = Ok grouped).
Proof.
  unfold stage_2, bind, load_checkpoint, lift, save_grouped_settlements,
    update_checkpoints, ret.
  destruct (grouped_settlements_pickle (checkpoint_dir w1)) as [g|] eqn:Hg.
  - intros [= <- <-]. repeat split; try done.
  - destruct (pregroup_default cso) as [g|]; [|discriminate].
    cbn. intros [= <- <-]. cbn. repeat split; try done; cbn; eauto.
Qed.

Lemma fetch_locations_batch_props names w locations w3 :
  fetch_locations_batch true geocode names 50 w = (Ok locations, w3) ->
  settlements_json w3 = settlements_json w /\
  retained (checkpoint_dir w) (checkpoint_dir w3) /\
  final_settlements_pickle (checkpoint_dir w3)
  = final_settlements_pickle (checkpoint_dir w).
Proof.
  intros H.
  destruct (fetch_locations_batch_run geocode names 49 w)
    as (results & w' & Hrun & _ & _ & Hck & (Hj & _ & Hc & Hg & Hp & Hf) & Hnil).
  rewrite H in Hrun. injection Hrun as <- <-.
  split; [exact Hj|]. split; [|exact Hf].
  unfold retained. rewrite Hc, Hg, Hp, Hf. repeat split; try done.
  intros [ck Hsome].
  destruct (filter (fun n => default ∅ (locations_pickle (checkpoint_dir w)) !! n = None) names)
    as [|n0 todo] eqn:Htodo.
  - destruct (Hnil eq_refl) as [-> _]. eauto.
  - unfold fetch_locations_batch, bind, load_checkpoint in H. cbn [negb] in H.
    rewrite Htodo in H.
    destruct (process_batches_run geocode (chunks 50 (n0 :: todo))
                (default ∅ (locations_pickle (checkpoint_dir w))) w)
      as (r' & w'' & Hrun & _ & _ & Hsaved & _).
    rewrite H in Hrun. injection Hrun as <- <-.
    rewrite Hsaved; [eauto|]. by apply chunks_nonempty.
Qed.

Lemma main_body_from_stage_4 append w existing cso w1 grouped w2 locations w3 :
  stage_1 population_csv missing_settlements append w = (Ok (existing, cso), w1) ->
  stage_2 cso w1 = (Ok grouped, w2) ->
  fetch_locations_batch true geocode (map name grouped) 50 w2 = (Ok locations, w3) ->
  main_body true geocode calculate_distance population_csv missing_settlements append w
  = match stage_4 grouped locations w3 with
    | (Ok found, w4) =>
        stage_5 calculate_distance existing (sum_population cso)
                (fst found) (snd found) (map name grouped) w4
    | (Raise e, w4) => (Raise e, w4)
    end.
Proof.
  intros H1 H2 H3. unfold main_body, bind. cbn [negb].
  rewrite H1. cbn [fst snd]. rewrite H2, H3. reflexivity.
Qed.

(** X25: the unresolved-rate gate, for a run whose command line
    [parse_args] accepts, with the API key set, whose stages 1 to 3
    return with some pregrouped names to hand to the geocoder (rates
    idealised as exact rationals, compared with 1/10). When the fraction
    of the names left without coordinates exceeds 0.1, the run ends with
    exit status 1, leaves [settlements.json] as it was, and deletes no
    checkpoint after stage 1: the checkpoint files are those present
    after stage 3, with that of the processed settlements added (without
    append mode every checkpoint present at the start is still there).
    When the fraction is at most 0.1 (exactly 0.1 included) and stage 5
    yields a dataset, loaded from a [final_settlements] checkpoint that
    records a rate of at most 0.1 or computed without raising, the run
    writes that dataset, clears all checkpoints and ends with exit
    status 0. *)
Theorem unresolved_rate_gate append w existing cso w1 grouped w2 locations w3 :
  stage_1 population_csv missing_settlements append w = (Ok (existing, cso), w1) ->
  stage_2 cso w1 = (Ok grouped, w2) ->
  fetch_locations_batch true geocode (map name grouped) 50 w2 = (Ok locations, w3) ->
  grouped <> [] ->
  ((1 # 10 < unresolved_rate locations grouped)%Q ->
   exists w',
     main true geocode calculate_distance population_csv missing_settlements (Ok append) w
     = (Raise (SystemExit 1), w') /\
     exit_status (Raise (SystemExit 1)) = 1 /\
     settlements_json w' = settlements_json w /\
     checkpoint_dir w'
     = with_processed (checkpoint_dir w3)
         (geocoded_of locations grouped, not_found_of locations grouped) /\
     retained (checkpoint_dir w3) (checkpoint_dir w') /\
     (append = false -> retained (checkpoint_dir w) (checkpoint_dir w'))) /\
  ((unresolved_rate locations grouped <= 1 # 10)%Q ->
   forall d,
     (final_settlements_pickle (checkpoint_dir w3) = Some d /\
      (failure_rate (metadata d) <= 1 # 10)%Q) \/
     (final_settlements_pickle (checkpoint_dir w3) = None /\
      finalize calculate_distance existing (sum_population cso)
               (geocoded_of locations grouped) (not_found_of locations grouped)
               (map name grouped) = Ok d) ->
     exists w',
       main true geocode calculate_distance population_csv missing_settlements (Ok append) w
       = (Ok tt, w') /\
       exit_status (Ok tt) = 0 /\
       settlements_json w' = Some d /\
       checkpoint_dir w' = no_checkpoints).
Proof.
  intros H1 H2 H3 Hne.
  pose proof (main_body_from_stage_4 _ _ _ _ _ _ _ _ _ H1 H2 H3) as Hbody.
  destruct (stage_4_run grouped locations w3 Hne) as [Hhigh Hlow].
  destruct (stage_1_props _ _ _ _ _ H1) as (Hj1 & Hfresh & _).
  destruct (stage_2_props _ _ _ _ H2) as (Hj2 & Hr2 & _ & _).
  destruct (fetch_locations_batch_props _ _ _ _ H3) as (Hj3 & Hr3 & _).
  split.
  - intros Hrate. exists (after_stage_4 locations grouped w3).
    rewrite main_parsed, Hbody, (Hhigh Hrate).
    split; [reflexivity|]. split; [reflexivity|].
    split; [cbn; congruence|]. split; [reflexivity|].
    split; [apply retained_with_processed|].
    intros ->. destruct (Hfresh eq_refl) as [_ Hr1]. cbn.
    eapply retained_trans; [exact Hr1|].
    eapply retained_trans; [exact Hr2|].
    eapply retained_trans; [exact Hr3|]. apply retained_with_processed.
  - intros Hrate d Hd. destruct (Hlow Hrate) as [_ Hrun4].
    rewrite main_parsed, Hbody, Hrun4. cbn [fst snd].
    destruct Hd as [[Hload Hd]|[Hnone Hd]].
    + rewrite (stage_5_loaded _ _ _ _ _ _ d) by exact Hload.
      apply low_failure_rate_iff in Hd. rewrite Hd.
      eexists. repeat split.
    + rewrite (stage_5_computed _ _ _ _ _ _ d) by (exact Hnone || exact Hd).
      destruct (finalize_rate _ _ _ _ _ _ Hd) as [Hfr _].
      assert (Hlow' : high_failure_rate (failure_rate (metadata d)) = false).
      { apply low_failure_rate_iff. rewrite Hfr. exact Hrate. }
      rewrite Hlow'. eexists. repeat split.
Qed.

(** A run without append mode that starts without checkpoints and ends
    with exit status 0. *)
Lemma fresh_run_totals w w' cso :
  population_csv = Some cso ->
  checkpoint_dir w = no_checkpoints ->
  main true geocode calculate_distance population_csv missing_settlements (Ok false) w
  = (Ok tt, w') ->
  exists d grouped locations,
    pregroup_default cso = Ok grouped /\
    settlements_json w' = Some d /\
    total_ireland_population (metadata d) = sum_population cso /\
    unmatched_settlements (metadata d) = map name (unresolved locations grouped) /\
    total_population (metadata d)
    = sum_population cso - sum_population (unresolved locations grouped) /\
    sum_population (settlements d) = total_population (metadata d).
Proof.
  intros Hcsv Hck Hmain.
  (* stage 1 *)
  destruct (stage_1 population_csv missing_settlements false w)
    as [[[existing cso']|e1] w1] eqn:H1.
  2:{ rewrite main_parsed in Hmain. unfold main_body, bind in Hmain.
      cbn [negb] in Hmain.
      rewrite H1 in Hmain. destruct e1; discriminate. }
  assert (existing = None /\ cso' = cso /\
          grouped_settlements_pickle (checkpoint_dir w1) = None /\
          final_settlements_pickle (checkpoint_dir w1) = None)
    as (-> & -> & Hg1 & Hf1).
  { unfold stage_1, bind, load_checkpoint, fetch_cso_settlements,
      save_cso_settlements, update_checkpoints, ret, raise in H1.
    rewrite Hck, Hcsv in H1. cbn in H1.
    destruct cso as [|s l]; [discriminate|]. cbn in H1.
    injection H1 as <- <- <-. rewrite Hck. by repeat split. }
  (* stage 2 *)
  destruct (stage_2 cso w1) as [[grouped|e2] w2] eqn:H2.
  2:{ rewrite main_parsed in Hmain. unfold main_body, bind in Hmain.
      cbn [negb] in Hmain.
      rewrite H1 in Hmain. cbn [fst snd] in Hmain. rewrite H2 in Hmain.
      destruct e2; discriminate. }
  destruct (stage_2_props _ _ _ _ H2) as (_ & _ & Hf2 & Hpre).
  specialize (Hpre Hg1).
  (* stage 3 *)
  destruct (fetch_locations_batch_run geocode (map name grouped) 49 w2)
    as (locations & w3 & H3 & _).
  destruct (fetch_locations_batch_props _ _ _ _ H3) as (_ & _ & Hf3).
  pose proof (main_body_from_stage_4 _ _ _ _ _ _ _ _ _ H1 H2 H3) as Hbody.
  rewrite main_parsed, Hbody in Hmain.
  (* stage 4 *)
  assert (Hne : grouped <> []).
  { intros ->. cbn in Hmain. discriminate. }
  destruct (stage_4_run grouped locations w3 Hne) as [Hhigh Hlow].
  destruct (Qlt_le_dec (1 # 10) (unresolved_rate locations grouped)) as [Hr|Hr].
  { rewrite (Hhigh Hr) in Hmain. discriminate. }
  destruct (Hlow Hr) as [_ H4]. rewrite H4 in Hmain. cbn [fst snd] in Hmain.
  (* stage 5 *)
  assert (Hf4 : final_settlements_pickle
                  (checkpoint_dir (after_stage_4 locations grouped w3)) = None).
  { cbn. congruence. }
  destruct (finalize calculate_distance None (sum_population cso)
              (geocoded_of locations grouped) (not_found_of locations grouped)
              (map name grouped)) as [d|e5] eqn:H5.
  2:{ rewrite (stage_5_failed _ _ _ _ _ _ e5 Hf4 H5) in Hmain.
      destruct e5; discriminate. }
  rewrite (stage_5_computed _ _ _ _ _ _ d Hf4 H5) in Hmain.
  injection Hmain as <-.
  destruct (finalize_rate _ _ _ _ _ _ H5) as [_ Htot].
  destruct (finalize_fresh _ _ _ _ _ H5) as (Hpop & Hsum & Hun).
  destruct (attach_coordinates_spec locations grouped) as (Hnf & Hattach & _).
  pose proof (pregroup_conserves _ _ _ _ Hpre) as Hcons.
  exists d, grouped, locations.
  split; [exact Hpre|]. split; [reflexivity|]. split; [exact Htot|].
  split; [congruence|]. split; [lia | congruence].
Qed.

End OrchestratorFacts.

(** ** Population conservation *)

(** C1, as stated, fails: ten census records of 100 people each, one of
    which the geocoder does not resolve. The run ends with exit status 0
    and writes a dataset whose [total_population] is 900, while the total
    before pregrouping is 1000. *)
Lemma unresolved_population_is_dropped :
  let run := main true all_but_S9 far_apart (Some ten_hamlets) None (Ok false) empty_world in
  fst run = Ok tt /\
  (fun d => total_population (metadata d)) <$> settlements_json (snd run) = Some 900 /\
  sum_population ten_hamlets = 1000.
Proof. vm_compute. repeat split; reflexivity. Qed.

(** C1, amended: the sum of the populations over the output of
    [pregroup_small_settlements] equals the sum over its input, for every
    input. Whenever [process_settlement_group] returns for every cluster
    of [group_settlements], the sum over the merged settlements equals
    the sum over the clusterer's input, and it does return when every
    settlement carries coordinates and a positive population. In a run
    without append mode that starts without checkpoints and ends with exit
    status 0, [total_ireland_population] of the written dataset is the
    total before pregrouping, and [total_population] is that total minus
    the populations of the pregrouped settlements left without
    coordinates, whose names are the dataset's [unmatched_settlements]. *)
Theorem population_conservation :
  (forall ss min_population max_settlements,
      exists out,
        pregroup_small_settlements ss min_population max_settlements = Ok out /\
        sum_population out = sum_population ss) /\
  (forall calculate_distance max_distance geocoded groups finals,
      group_settlements calculate_distance max_distance geocoded = Ok groups ->
      mapM process_settlement_group groups = Ok finals ->
      sum_population finals = sum_population geocoded) /\
  (forall calculate_distance max_distance geocoded,
      Forall has_coords geocoded ->
      Forall (fun s => 0 < population s) geocoded ->
      exists groups finals,
        group_settlements calculate_distance max_distance geocoded = Ok groups /\
        mapM process_settlement_group groups = Ok finals /\
        sum_population finals = sum_population geocoded) /\
  (forall geocode calculate_distance population_csv missing_settlements w w' cso,
      population_csv = Some cso ->
      checkpoint_dir w = no_checkpoints ->
      main true geocode calculate_distance population_csv missing_settlements (Ok false) w
      = (Ok tt, w') ->
      exists d grouped locations,
        pregroup_default cso = Ok grouped /\
        settlements_json w' = Some d /\
        total_ireland_population (metadata d) = sum_population cso /\
        unmatched_settlements (metadata d) = map name (unresolved locations grouped) /\
        total_population (metadata d)
        = sum_population cso - sum_population (unresolved locations grouped) /\
        sum_population (settlements d) = total_population (metadata d)).
Proof.
  split; [|split; [|split]].
  - intros ss m n. rewrite pregroup_small_settlements_eq. eexists.
    split; [reflexivity|].
    destruct (_ <=? _); [reflexivity | apply sum_grouped_result].
  - intros dist D geocoded groups finals Hg Hf.
    rewrite (mapM_process_sum _ _ Hf). by eapply group_settlements_sum.
  - intros dist D geocoded Hc Hp.
    destruct (group_settlements_total dist D geocoded Hc) as [groups Hg].
    pose proof (group_settlements_spec _ _ _ _ Hg) as Hspec.
    destruct (mapM_process_total groups) as (finals & Hf & _).
    { eapply Forall_impl; [exact Hspec|]. simpl. intros g (Hne & _ & Hmem).
      rewrite Forall_forall in Hmem, Hc, Hp. split.
      - apply Forall_forall. auto.
      - assert (0 < sum_population g); [|lia].
        apply positive_sum; [exact Hne|]. apply Forall_forall. auto. }
    exists groups, finals. split; [exact Hg|]. split; [exact Hf|].
    rewrite (mapM_process_sum _ _ Hf). by eapply group_settlements_sum.
  - intros. by eapply fresh_run_totals.
Qed.

Lemma population_conservation_witness :
  exists d grouped locations,
    pregroup_default ten_hamlets = Ok grouped /\
    settlements_json
      (snd (main true all_but_S9 far_apart (Some ten_hamlets) None (Ok false) empty_world))
    = Some d /\
    total_ireland_population (metadata d) = sum_population ten_hamlets /\
    unmatched_settlements (metadata d) = map name (unresolved locations grouped) /\
    total_population (metadata d)
    = sum_population ten_hamlets - sum_population (unresolved locations grouped) /\
    sum_population (settlements d) = total_population (metadata d).
Proof.
  destruct population_conservation as (_ & _ & _ & H).
  apply (H all_but_S9 far_apart (Some ten_hamlets) None empty_world _ ten_hamlets).
  - reflexivity.
  - reflexivity.
  - vm_compute. reflexivity.
Defined.

(** ** The unresolved-rate gate *)

(** C6, at the failing input: the census lists an uninhabited place and
    a town, the geocoding service resolves both names, and the run starts
    without append mode and without checkpoints. No name is left without
    coordinates, so the fraction is 0 and the gate lets the run pass; but
    the place without population is a cluster of total population 0, on
    which [process_settlement_group] divides by zero. The run ends with
    exit status 1, [settlements.json] is not written and the four
    checkpoints written so far (the census rows, the pregrouped records,
    which are the census rows, the locations and the processed
    settlements) are all still there, where the claim has the final
    dataset written and the checkpoints cleared. *)
Theorem gate_passed_yet_nothing_written :
  let run := main true found_everywhere far_apart (Some ghost_and_town) None
                  (Ok false) empty_world in
  (exists locations,
      locations_pickle (checkpoint_dir (snd run)) = Some locations /\
      not_found_of locations ghost_and_town = [] /\
      (unresolved_rate locations ghost_and_town == 0)%Q /\
      exists ghost,
        ghost ∈ geocoded_of locations ghost_and_town /\
        population ghost = 0 /\
        process_settlement_group [ghost] = Raise ZeroDivisionError) /\
  fst run = Raise (SystemExit 1) /\
  exit_status (fst run) = 1 /\
  settlements_json (snd run) = None /\
  cso_settlements_pickle (checkpoint_dir (snd run)) = Some ghost_and_town /\
  grouped_settlements_pickle (checkpoint_dir (snd run)) = Some ghost_and_town /\
  is_Some (processed_settlements_pickle (checkpoint_dir (snd run))) /\
  final_settlements_pickle (checkpoint_dir (snd run)) = None.
Proof.
  cbv zeta. split.
  - eexists. split; [vm_compute; reflexivity|].
    split; [vm_compute; reflexivity|]. split; [vm_compute; reflexivity|].
    eexists. split; [vm_compute; left|].
    split; [reflexivity | vm_compute; reflexivity].
  - vm_compute. repeat split; eauto.
Qed.

Lemma unresolved_rate_gate_witness :
  (exists w',
      main true all_but_S9 far_apart (Some ten_hamlets) None (Ok false) empty_world
      = (Ok tt, w') /\
      is_Some (settlements_json w') /\
      checkpoint_dir w' = no_checkpoints) /\
  (exists w',
      main true never_found far_apart (Some ten_hamlets) None (Ok false) empty_world
      = (Raise (SystemExit 1), w') /\
      settlements_json w' = None /\
      is_Some (processed_settlements_pickle (checkpoint_dir w'))).
Proof.
  split.
  - set (w1 := snd (stage_1 (Some ten_hamlets) None false empty_world)).
    set (w2 := snd (stage_2 ten_hamlets w1)).
    set (r3 := fetch_locations_batch true all_but_S9 (map name ten_hamlets) 50 w2).
    set (locations := match fst r3 with Ok l => l | Raise _ => ∅ end).
    destruct (unresolved_rate_gate all_but_S9 far_apart (Some ten_hamlets) None
                false empty_world None ten_hamlets w1 ten_hamlets w2 locations (snd r3))
      as [_ Hlow]; try (vm_compute; reflexivity); [discriminate|].
    edestruct Hlow as (w' & Hrun & _ & Hjson & Hck).
    + vm_compute. discriminate.
    + right. split; [reflexivity|]. vm_compute. reflexivity.
    + exists w'. split; [exact Hrun|]. split; [rewrite Hjson; eauto | exact Hck].
  - set (w1 := snd (stage_1 (Some ten_hamlets) None false empty_world)).
    set (w2 := snd (stage_2 ten_hamlets w1)).
    set (r3 := fetch_locations_batch true never_found (map name ten_hamlets) 50 w2).
    set (locations := match fst r3 with Ok l => l | Raise _ => ∅ end).
    destruct (unresolved_rate_gate never_found far_apart (Some ten_hamlets) None
                false empty_world None ten_hamlets w1 ten_hamlets w2 locations (snd r3))
      as [Hhigh _]; try (vm_compute; reflexivity); [discriminate|].
    destruct Hhigh as (w' & Hrun & _ & Hjson & Hck & _).
    + vm_compute. reflexivity.
    + exists w'. split; [exact Hrun|]. split; [exact Hjson|].
      rewrite Hck. simpl. eauto.
Defined.

(** ** Append mode: taking back the distributed population *)


(** *** The floats of the proportional share *)






























(** The floats at work: of 7,680 to take back, the settlement that
    holds 38,499 of 4,807,680 owes 61.5 in exact arithmetic, which
    rounds to 62; the loop computes 61.49999999999999 and takes 61. *)
Lemma share_follows_the_floats :
  share_of 7680 4807680 (leaf "Trim, Meath" 38499) = Ok 61 /\
  round_half_even (7680 * (38499 / 4807680))%Q = 62.
Proof. split; vm_compute; reflexivity. Qed.




(* ===================================================================== *)
(** * Further properties *)
(* ===================================================================== *)

(** ** The spatial clusterer: partition, reach and seeds *)

Section ClustererMore.
Variable calculate_distance : Q * Q -> Q * Q -> Q.
Variable max_distance : Q.

Lemma unused_items_mono_index used j items :
  j ∉ map fst items ->
  unused_items ({[j]} ∪ used) items = unused_items used items.
Proof.
  unfold unused_items. induction items as [|[j' s] items IH]; [reflexivity|].
  intros Hj. simpl in Hj. rewrite !filter_cons. simpl.
  assert (j <> j') by set_solver.
  assert (IH' := IH ltac:(set_solver)).
  destruct (decide (j' ∉ used)).
  - rewrite decide_True by set_solver. simpl. by rewrite IH'.
  - rewrite decide_False by set_solver. exact IH'.
Qed.

Lemma unused_items_cons used j s items :
  unused_items used ((j, s) :: items)
  = if decide (j ∈ used) then unused_items used items
    else s :: unused_items used items.
Proof.
  unfold unused_items. rewrite filter_cons. simpl.
  destruct (decide (j ∈ used)).
  - by rewrite decide_False by tauto.
  - by rewrite decide_True.
Qed.

(** A scan moves records from the unused part of the enumeration into
    the group: nothing is lost, nothing is taken twice. *)
Lemma scan_perm r items : forall group used group' used',
  NoDup (map fst items) ->
  scan calculate_distance max_distance r items group used = Ok (group', used') ->
  group' ++ unused_items used' items ≡ₚ group ++ unused_items used items.
Proof.
  induction items as [|[j s2] items IH]; intros group used group' used' Hnd H;
    simpl in H.
  - injection H as <- <-. reflexivity.
  - simpl in Hnd. apply NoDup_cons in Hnd as [Hj Hnd].
    rewrite !unused_items_cons.
    destruct (decide (j ∈ used)) as [Hu|Hu].
    + destruct (scan_spec _ _ _ _ _ _ _ _ H) as (Hsub & _ & _).
      rewrite decide_True by set_solver. by apply IH.
    + assert (Hskip : scan calculate_distance max_distance r items group used
                      = Ok (group', used') ->
          group' ++ (if decide (j ∈ used') then unused_items used' items
                     else s2 :: unused_items used' items)
          ≡ₚ group ++ s2 :: unused_items used items).
      { intros Hs. destruct (scan_spec _ _ _ _ _ _ _ _ Hs) as (_ & Hin & _).
        rewrite decide_False by (intros Hj'; destruct (Hin j Hj'); tauto).
        rewrite <- !Permutation_middle. constructor. by apply IH. }
      destruct (decide (r = _)) as [Hr|Hr]; [|by apply Hskip].
      destruct (near_group _ _ group s2) as [[|]|e] eqn:Hn; simpl in H;
        [|by apply Hskip|discriminate].
      destruct (scan_spec _ _ _ _ _ _ _ _ H) as (Hsub & _ & _).
      rewrite decide_True by set_solver.
      specialize (IH _ _ _ _ Hnd H).
      rewrite unused_items_mono_index in IH by exact Hj.
      rewrite IH, <- app_assoc. reflexivity.
Qed.

Lemma unused_items_all_used used items :
  (forall j, j ∈ map fst items -> j ∈ used) -> unused_items used items = [].
Proof.
  induction items as [|[j s] items IH]; [reflexivity|].
  intros H. rewrite unused_items_cons, decide_True by (apply H; simpl; set_solver).
  apply IH. intros j' Hj'. apply H. simpl. set_solver.
Qed.

Lemma unused_items_take used i s items :
  NoDup (map fst items) -> (i, s) ∈ items -> i ∉ used ->
  unused_items used items ≡ₚ s :: unused_items ({[i]} ∪ used) items.
Proof.
  induction items as [|[j s'] items IH]; simpl; intros Hnd Hin Hi.
  - by apply elem_of_nil in Hin.
  - apply NoDup_cons in Hnd as [Hj Hnd]. rewrite !unused_items_cons.
    apply elem_of_cons in Hin as [[= <- <-]|Hin].
    + rewrite decide_False by exact Hi. rewrite decide_True by set_solver.
      by rewrite unused_items_mono_index.
    + assert (i <> j).
      { intros ->. apply Hj. apply list_elem_of_fmap. by exists (j, s). }
      destruct (decide (j ∈ used)).
      * rewrite decide_True by set_solver. by apply IH.
      * rewrite decide_False by set_solver.
        rewrite (IH Hnd Hin Hi). apply Permutation_swap.
Qed.

Lemma seed_groups_perm all : NoDup (map fst all) ->
  forall items pre used groups,
  all = pre ++ items ->
  (forall j, j ∈ map fst pre -> j ∈ used) ->
  seed_groups calculate_distance max_distance all items used = Ok groups ->
  concat groups ≡ₚ unused_items used all.
Proof.
  intros Hnd. induction items as [|[i s1] items IH];
    intros pre used groups Hall Hpre H; simpl in H.
  - injection H as <-. rewrite app_nil_r in Hall. subst pre.
    by rewrite unused_items_all_used.
  - assert (Hall' : all = (pre ++ [(i, s1)]) ++ items)
      by (by rewrite <- app_assoc).
    destruct (decide (i ∈ used)) as [Hi|Hi].
    + apply (IH _ _ _ Hall'); [|exact H].
      intros j. rewrite map_app, elem_of_app. simpl. set_solver.
    + destruct (scan _ _ _ all [s1] _) as [[g used']|e] eqn:Hs; [|discriminate].
      simpl in H.
      destruct (seed_groups _ _ all items used') as [groups'|e'] eqn:Hg;
        [|discriminate].
      simpl in H. injection H as <-.
      destruct (scan_spec _ _ _ _ _ _ _ _ Hs) as (Hsub & _ & _).
      pose proof (scan_perm _ _ _ _ _ _ Hnd Hs) as Hperm.
      assert (IH' : concat groups' ≡ₚ unused_items used' all).
      { apply (IH _ _ _ Hall'); [|exact Hg].
        intros j. rewrite map_app, elem_of_app. simpl. set_solver. }
      simpl. rewrite IH', Hperm. simpl.
      symmetry. apply unused_items_take; [exact Hnd| |exact Hi].
      rewrite Hall. set_solver.
Qed.

Lemma unused_items_empty items : unused_items ∅ items = map snd items.
Proof.
  induction items as [|[j s] items IH]; [reflexivity|].
  rewrite unused_items_cons, decide_False by set_solver. simpl. by rewrite IH.
Qed.

(** X1: the clusters are a partition of the input. Whenever
    [group_settlements] returns, every input settlement is in exactly one
    cluster (the clusters, put end to end, are a rearrangement of the
    input), no cluster is empty, and there are at most as many clusters
    as settlements. *)
Theorem clusters_partition_the_input (ss : list settlement)
    (groups : list (list settlement)) :
  group_settlements calculate_distance max_distance ss = Ok groups ->
  concat groups ≡ₚ ss /\
  Forall (fun g => g <> []) groups /\
  (length groups <= length ss)%nat.
Proof.
  intros H.
  assert (Hperm : concat groups ≡ₚ ss).
  { unfold group_settlements in H.
    rewrite (seed_groups_perm _ (ltac:(rewrite enumerate_fst; apply NoDup_seq))
               _ [] ∅ groups eq_refl (ltac:(set_solver)) H).
    by rewrite unused_items_empty, enumerate_snd, sort_desc_perm. }
  assert (Hne : Forall (fun g => g <> []) groups).
  { apply group_settlements_spec in H.
    eapply Forall_impl; [exact H|]. by intros g (? & _). }
  split; [exact Hperm|]. split; [exact Hne|].
  rewrite <- (Permutation_length Hperm).
  clear -Hne. induction Hne as [|g groups Hg _ IH]; simpl; [lia|].
  rewrite length_app. destruct g; [done|]. simpl. lia.
Qed.

Lemma near_group_true group s2 :
  near_group calculate_distance max_distance group s2 = Ok true ->
  exists s, s ∈ group /\ within calculate_distance max_distance s s2 = Ok true.
Proof.
  induction group as [|s group IH]; simpl; [discriminate|].
  destruct (within _ _ s s2) as [[|]|e] eqn:Hw; simpl; [|intros H|discriminate].
  - intros _. exists s. split; [set_solver | exact Hw].
  - destruct (IH H) as (s' & Hs' & Hw'). exists s'. split; [set_solver | exact Hw'].
Qed.

(** What a scan adds: records at indices that were unused, each linked
    to a record placed before it. *)
Lemma scan_linked r items : forall group used group' used',
  scan calculate_distance max_distance r items group used = Ok (group', used') ->
  exists added,
    group' = group ++ added /\
    linked calculate_distance max_distance group added /\
    Forall (fun s => exists j, (j, s) ∈ items /\ j ∉ used) added.
Proof.
  induction items as [|[j s2] items IH]; intros group used group' used' H;
    simpl in H.
  - injection H as <- <-. exists []. rewrite app_nil_r. by repeat split.
  - assert (Hweak : forall u added,
      used ⊆ u ->
      Forall (fun s => exists j0, (j0, s) ∈ items /\ j0 ∉ u) added ->
      Forall (fun s => exists j0, (j0, s) ∈ (j, s2) :: items /\ j0 ∉ used) added).
    { intros u added Hu Hall. eapply Forall_impl; [exact Hall|]. simpl.
      intros s (j0 & Hin & Hnot). exists j0. split; set_solver. }
    destruct (decide (j ∈ used)) as [Hu|Hu].
    { destruct (IH _ _ _ _ H) as (added & H1 & H2 & H3).
      exists added. split; [exact H1|]. split; [exact H2|]. by apply (Hweak used). }
    destruct (decide (r = get_admin_region (name s2))) as [Hr|Hr].
    2:{ destruct (IH _ _ _ _ H) as (added & H1 & H2 & H3).
        exists added. split; [exact H1|]. split; [exact H2|]. by apply (Hweak used). }
    destruct (near_group _ _ group s2) as [[|]|e] eqn:Hn; simpl in H;
      [| |discriminate].
    + destruct (IH _ _ _ _ H) as (added & H1 & H2 & H3).
      exists (s2 :: added). split; [by rewrite H1, <- app_assoc|]. split.
      * simpl. split; [by apply near_group_true | exact H2].
      * constructor; [exists j; split; [set_solver | exact Hu]|].
        apply (Hweak ({[j]} ∪ used)); [set_solver | exact H3].
    + destruct (IH _ _ _ _ H) as (added & H1 & H2 & H3).
      exists added. split; [exact H1|]. split; [exact H2|]. by apply (Hweak used).
Qed.

Lemma insert_desc_sorted x l :
  StronglySorted desc l -> StronglySorted desc (insert_desc x l).
Proof.
  induction 1 as [|y l Hl IH Hy]; simpl; [repeat constructor|].
  destruct (population x <? population y) eqn:E.
  - apply Z.ltb_lt in E. constructor; [exact IH|].
    rewrite insert_desc_perm. constructor; [unfold desc; lia | exact Hy].
  - apply Z.ltb_ge in E. constructor; [by constructor|].
    constructor; [exact E|].
    eapply Forall_impl; [exact Hy|]. unfold desc. simpl. intros. lia.
Qed.

Lemma sort_desc_sorted l : StronglySorted desc (sort_desc l).
Proof.
  induction l as [|x l IH]; simpl; [constructor | by apply insert_desc_sorted].
Qed.

Lemma sorted_after pre x post :
  StronglySorted desc (pre ++ x :: post) ->
  Forall (fun s => population s <= population x) post.
Proof.
  intros H. apply StronglySorted_app_1_r in H.
  by inversion H.
Qed.

Lemma seed_groups_chains all :
  NoDup (map fst all) -> StronglySorted desc (map snd all) ->
  forall items pre used groups,
  all = pre ++ items ->
  (forall j, j ∈ map fst pre -> j ∈ used) ->
  seed_groups calculate_distance max_distance all items used = Ok groups ->
  Forall (seeded_chain calculate_distance max_distance) groups.
Proof.
  intros Hnd Hsorted. induction items as [|[i s1] items IH];
    intros pre used groups Hall Hpre H; simpl in H.
  - injection H as <-. constructor.
  - assert (Hall' : all = (pre ++ [(i, s1)]) ++ items)
      by (by rewrite <- app_assoc).
    destruct (decide (i ∈ used)) as [Hi|Hi].
    + apply (IH _ used _ Hall'); [|exact H].
      intros j. rewrite map_app, elem_of_app. simpl. set_solver.
    + destruct (scan _ _ _ all [s1] _) as [[g used']|e] eqn:Hs; [|discriminate].
      simpl in H.
      destruct (seed_groups _ _ all items used') as [groups'|e'] eqn:Hg;
        [|discriminate].
      simpl in H. injection H as <-.
      destruct (scan_spec _ _ _ _ _ _ _ _ Hs) as (Hsub & _ & _).
      destruct (scan_linked _ _ _ _ _ _ Hs) as (added & -> & Hlinked & Hfrom).
      constructor.
      * exists s1, added. split; [reflexivity|]. split; [exact Hlinked|].
        assert (Hpost : Forall (fun s => population s <= population s1) (map snd items)).
        { apply (sorted_after (map snd pre)).
          rewrite Hall, map_app in Hsorted. exact Hsorted. }
        eapply Forall_impl; [exact Hfrom|]. simpl. intros s (j & Hin & Hj).
        rewrite Hall in Hin. apply elem_of_app in Hin as [Hin|Hin].
        { exfalso. apply Hj. apply elem_of_union_r. apply Hpre.
          apply list_elem_of_fmap. by exists (j, s). }
        apply elem_of_cons in Hin as [[= -> ->]|Hin]; [set_solver|].
        rewrite Forall_forall in Hpost. apply Hpost.
        apply list_elem_of_fmap. by exists (j, s).
      * apply (IH _ used' _ Hall'); [|exact Hg].
        intros j. rewrite map_app, elem_of_app. simpl. set_solver.
Qed.

Lemma first_greatest_seed m seed rest :
  first_greatest m (seed :: rest) ->
  Forall (fun s => population s <= population seed) rest ->
  m = seed.
Proof.
  intros (before & after & Heq & Hb & _) Hrest.
  destruct before as [|b before]; simpl in Heq.
  - by injection Heq as <-.
  - injection Heq as <- ->.
    apply Forall_cons in Hb as [Hlt _].
    rewrite Forall_forall in Hrest.
    assert (population m <= population seed); [|lia].
    apply Hrest. set_solver.
Qed.

(** X2: how a cluster is built. Whenever [group_settlements] returns,
    every cluster is a seed followed by records each of which lies
    within the distance threshold of a record placed before it in the
    cluster (reach along a chain, not from every member); no record of a
    cluster has a greater population than its seed, so the settlement
    that [process_settlement_group] merges from the cluster bears the
    seed's name. *)
Theorem clusters_are_seeded_chains (ss : list settlement)
    (groups : list (list settlement)) :
  group_settlements calculate_distance max_distance ss = Ok groups ->
  Forall (fun g =>
            seeded_chain calculate_distance max_distance g /\
            forall out, process_settlement_group g = Ok out ->
                        exists seed, head g = Some seed /\ name out = name seed)
         groups.
Proof.
  intros H. unfold group_settlements in H.
  apply (seed_groups_chains _ (ltac:(rewrite enumerate_fst; apply NoDup_seq))
           (ltac:(rewrite enumerate_snd; apply sort_desc_sorted))
           _ [] ∅ groups eq_refl (ltac:(set_solver))) in H.
  eapply Forall_impl; [exact H|]. simpl.
  intros g Hg. split; [exact Hg|].
  destruct Hg as (seed & added & -> & _ & Hle).
  intros out Hout. exists seed. split; [reflexivity|].
  destruct (process_settlement_group_spec _ _ Hout) as (_ & (m & Hm & Hname) & _).
  by rewrite Hname, (first_greatest_seed m seed added Hm Hle).
Qed.

End ClustererMore.

Lemma clusters_partition_the_input_witness :
  concat [[north_field; south_field]] ≡ₚ [north_field; south_field] /\
  Forall (fun g => g <> []) [[north_field; south_field]] /\
  (length [[north_field; south_field]] <= length [north_field; south_field])%nat.
Proof.
  apply (clusters_partition_the_input (fun _ _ => 0%Q) 30%Q).
  vm_compute. reflexivity.
Defined.

Lemma clusters_are_seeded_chains_witness :
  Forall (fun g =>
            seeded_chain (fun _ _ => 0%Q) 30%Q g /\
            forall out, process_settlement_group g = Ok out ->
                        exists seed, head g = Some seed /\ name out = name seed)
         [[north_field; south_field]].
Proof.
  apply (clusters_are_seeded_chains (fun _ _ => 0%Q) 30%Q [north_field; south_field]).
  vm_compute. reflexivity.
Defined.

Section ClustererRegions.
Variable calculate_distance : Q * Q -> Q * Q -> Q.
Variable max_distance : Q.

Lemma scan_no_candidate r items : forall group used,
  Forall (fun js => fst js ∈ used \/ get_admin_region (name (snd js)) <> r) items ->
  scan calculate_distance max_distance r items group used = Ok (group, used).
Proof.
  induction items as [|[j s2] items IH]; intros group used H; simpl; [reflexivity|].
  apply Forall_cons in H as [Hj H]. simpl in Hj.
  destruct (decide (j ∈ used)); [by apply IH|].
  destruct (decide (r = _)) as [Hr|Hr]; [|by apply IH].
  destruct Hj; congruence.
Qed.

Lemma NoDup_map_inj {A B} (f : A -> B) (l : list A) x y :
  NoDup (map f l) -> x ∈ l -> y ∈ l -> f x = f y -> x = y.
Proof.
  induction l as [|a l IH]; simpl; intros Hnd Hx Hy Hf; [by apply elem_of_nil in Hx|].
  apply NoDup_cons in Hnd as [Ha Hnd].
  apply elem_of_cons in Hx as [->|Hx]; apply elem_of_cons in Hy as [->|Hy].
  - reflexivity.
  - exfalso. apply Ha. rewrite Hf. apply list_elem_of_fmap. by exists y.
  - exfalso. apply Ha. rewrite <- Hf. apply list_elem_of_fmap. by exists x.
  - by apply IH.
Qed.

Lemma seed_groups_singletons all :
  NoDup (map (fun js => get_admin_region (name (snd js))) all) ->
  forall items used,
  (forall js, js ∈ items -> js ∈ all) ->
  NoDup (map fst items) ->
  (forall j, j ∈ map fst items -> j ∉ used) ->
  seed_groups calculate_distance max_distance all items used
  = Ok (map (fun js => [snd js]) items).
Proof.
  intros Hreg. induction items as [|[i s1] items IH]; intros used Hsub Hnd Hun;
    simpl; [reflexivity|].
  simpl in Hnd. apply NoDup_cons in Hnd as [Hi Hnd].
  rewrite decide_False by (apply Hun; simpl; set_solver).
  rewrite (scan_no_candidate _ all [s1] ({[i]} ∪ used)).
  - cbn [rbind fst snd]. rewrite IH; [reflexivity| | exact Hnd |].
    + intros js Hjs. apply Hsub. set_solver.
    + intros j Hj. specialize (Hun j). simpl in Hun. set_solver.
  - apply Forall_forall. intros [j s2] Hjs. simpl.
    destruct (decide (j = i)) as [->|Hne]; [left; set_solver|].
    right. intros Heq. apply Hne.
    assert (Hin : (i, s1) ∈ all) by (apply Hsub; set_solver).
    by injection (NoDup_map_inj _ all (j, s2) (i, s1) Hreg Hjs Hin Heq).
Qed.

(** X3: settlements of pairwise different administrative regions are
    never merged and never compared: the clusters are the singletons, in
    descending order of population, whatever the coordinates are and
    whether the records carry any. *)
Theorem distinct_regions_stay_apart (ss : list settlement) :
  NoDup (map (fun s => get_admin_region (name s)) ss) ->
  group_settlements calculate_distance max_distance ss
  = Ok (map (fun s => [s]) (sort_desc ss)).
Proof.
  intros Hnd. unfold group_settlements.
  rewrite seed_groups_singletons.
  - f_equal. rewrite <- (enumerate_snd (sort_desc ss)) at 2.
    by rewrite map_map.
  - rewrite <- (map_map snd (fun s => get_admin_region (name s))).
    rewrite enumerate_snd.
    pose proof (Permutation_map (fun s => get_admin_region (name s))
                  (sort_desc_perm ss)) as Hp.
    rewrite Hp. exact Hnd.
  - auto.
  - rewrite enumerate_fst. apply NoDup_seq.
  - set_solver.
Qed.

Lemma scan_raises r a items : forall used,
  lat a = None ->
  (forall js, js ∈ items -> fst js ∉ used) ->
  Exists (fun js => get_admin_region (name (snd js)) = r) items ->
  scan calculate_distance max_distance r items [a] used = Raise (KeyError "lat").
Proof.
  induction items as [|[j s2] items IH]; intros used Ha Hun Hex.
  - by apply Exists_nil in Hex.
  - simpl. rewrite decide_False by (apply (Hun (j, s2)); set_solver).
    destruct (decide (r = _)) as [Hr|Hr].
    + unfold within, get_lat. rewrite Ha. reflexivity.
    + apply IH; [exact Ha | intros js Hjs; apply Hun; set_solver |].
      apply Exists_cons in Hex as [Hex|Hex]; [simpl in Hex; congruence | exact Hex].
Qed.

(** X4: coordinates are read when two settlements of one region are
    compared. If the settlement of greatest population (the first seed)
    has no [lat] and some other settlement lies in its region,
    [group_settlements] raises [KeyError('lat')]. *)
Theorem seed_without_latitude (ss : list settlement) (a : settlement)
    (rest : list settlement) :
  sort_desc ss = a :: rest ->
  lat a = None ->
  Exists (fun s => get_admin_region (name s) = get_admin_region (name a)) rest ->
  group_settlements calculate_distance max_distance ss = Raise (KeyError "lat").
Proof.
  intros Hsort Ha Hex. unfold group_settlements. rewrite Hsort.
  pose proof (enumerate_fst (a :: rest)) as Hfst.
  pose proof (enumerate_snd (a :: rest)) as Hsnd.
  destruct (enumerate (a :: rest)) as [|[i s] items]; [discriminate|].
  simpl in Hfst, Hsnd. injection Hfst as -> Hfst. injection Hsnd as -> Hsnd.
  simpl. rewrite decide_False by set_solver.
  rewrite decide_True by set_solver.
  rewrite scan_raises; [reflexivity | exact Ha | |].
  - intros js Hjs.
    assert (Hin : fst js ∈ map fst items) by (apply list_elem_of_fmap; eauto).
    rewrite Hfst in Hin. apply list_elem_of_In, in_seq in Hin.
    intros Hu. apply elem_of_union in Hu as [Hu|Hu]; [|set_solver].
    apply elem_of_singleton in Hu. lia.
  - rewrite <- Hsnd in Hex. apply Exists_exists in Hex as (s & Hs & Hr).
    apply list_elem_of_fmap in Hs as (js & -> & Hjs).
    apply Exists_exists. by exists js.
Qed.

End ClustererRegions.

Lemma distinct_regions_stay_apart_witness :
  group_settlements far_apart 30%Q [leaf "A, Region1" 500; leaf "B, Region2" 600]
  = Ok [[leaf "B, Region2" 600]; [leaf "A, Region1" 500]].
Proof.
  apply (distinct_regions_stay_apart far_apart 30%Q
           [leaf "A, Region1" 500; leaf "B, Region2" 600]).
  vm_compute. repeat constructor; set_solver.
Defined.

Lemma seed_without_latitude_witness :
  group_settlements far_apart 30%Q scenario_input = Raise (KeyError "lat").
Proof.
  apply (seed_without_latitude far_apart 30%Q scenario_input
           (leaf "B, Region1" 600) [leaf "A, Region1" 500]).
  - reflexivity.
  - reflexivity.
  - constructor. reflexivity.
Defined.

(** ** The settlement merger: errors, centroid and constituents *)

Lemma sum_weighted_missing_lat acc group :
  Exists (fun s => lat s = None) group ->
  sum_weighted get_lat acc group = Raise (KeyError "lat").
Proof.
  intros H. revert acc. induction group as [|s group IH]; intros acc.
  - by apply Exists_nil in H.
  - simpl. unfold get_lat at 1. destruct (lat s) as [x|] eqn:Hs; [|reflexivity].
    simpl. apply IH. apply Exists_cons in H as [H|H]; [congruence | exact H].
Qed.

Lemma sum_weighted_missing_lon acc group :
  Exists (fun s => lon s = None) group ->
  sum_weighted get_lon acc group = Raise (KeyError "lon").
Proof.
  intros H. revert acc. induction group as [|s group IH]; intros acc.
  - by apply Exists_nil in H.
  - simpl. unfold get_lon at 1. destruct (lon s) as [x|] eqn:Hs; [|reflexivity].
    simpl. apply IH. apply Exists_cons in H as [H|H]; [congruence | exact H].
Qed.

(** X5: the errors of the merger. An empty cluster raises
    [ZeroDivisionError]; so does a cluster whose members all carry a
    latitude and whose populations sum to zero. A member without [lat]
    raises [KeyError('lat')], whatever the populations; with every [lat]
    present and a total population other than zero, a member without
    [lon] raises [KeyError('lon')]. *)
Theorem merger_errors (group : list settlement) :
  process_settlement_group [] = Raise ZeroDivisionError /\
  (Forall (fun s => is_Some (lat s)) group -> sum_population group = 0 ->
   process_settlement_group group = Raise ZeroDivisionError) /\
  (Exists (fun s => lat s = None) group ->
   process_settlement_group group = Raise (KeyError "lat")) /\
  (Forall (fun s => is_Some (lat s)) group -> sum_population group <> 0 ->
   Exists (fun s => lon s = None) group ->
   process_settlement_group group = Raise (KeyError "lon")).
Proof.
  assert (Hlat : Forall (fun s => is_Some (lat s)) group ->
                 exists q, sum_weighted get_lat 0%Q group = Ok q).
  { intros H. generalize 0%Q.
    induction H as [|s l [x Hx] _ IH]; intros acc; simpl; [eauto|].
    unfold get_lat at 1. rewrite Hx. simpl. apply IH. }
  split; [reflexivity|]. split; [|split].
  - intros Hc Hz. unfold process_settlement_group, py_div.
    destruct (Hlat Hc) as [q ->]. simpl. by rewrite Hz.
  - intros Hex. unfold process_settlement_group.
    by rewrite sum_weighted_missing_lat.
  - intros Hc Hz Hex. unfold process_settlement_group, py_div.
    destruct (Hlat Hc) as [q ->]. simpl.
    replace (sum_population group =? 0) with false
      by (symmetry; by apply Z.eqb_neq).
    simpl. by rewrite sum_weighted_missing_lon.
Qed.

Lemma merger_errors_witness :
  process_settlement_group [mkSettlement "Empty, Mayo" 0 (Some (54 # 1)%Q)
                              (Some (- (9 # 1))%Q) None None None]
  = Raise ZeroDivisionError /\
  process_settlement_group scenario_input = Raise (KeyError "lat").
Proof.
  split.
  - destruct (merger_errors [mkSettlement "Empty, Mayo" 0 (Some (54 # 1)%Q)
                               (Some (- (9 # 1))%Q) None None None])
      as (_ & H & _).
    apply H; [repeat constructor; simpl; eauto | reflexivity].
  - destruct (merger_errors scenario_input) as (_ & _ & H & _).
    apply H. constructor. reflexivity.
Defined.

Lemma moment_bounds (get : settlement -> option Q) (a b : Q) group :
  Forall (fun s => 0 <= population s) group ->
  Forall (fun s => exists x, get s = Some x /\ (a <= x /\ x <= b)%Q) group ->
  (a * inject_Z (sum_population group) <= moment get group /\
   moment get group <= b * inject_Z (sum_population group))%Q.
Proof.
  intros Hp Hx. induction Hp as [|s l Hs Hp IH].
  - simpl. change (inject_Z 0) with 0%Q. split; lra.
  - apply Forall_cons in Hx as [(x & Hget & Hax & Hxb) Hx].
    destruct (IH Hx) as [IH1 IH2].
    cbn [moment fold_right sum_population]. fold (moment get l).
    fold (sum_population l).
    rewrite Hget. cbn [default]. rewrite inject_Z_plus.
    assert (Hpq : (0 <= inject_Z (population s))%Q).
    { change 0%Q with (inject_Z 0). by rewrite <- Zle_Qle. }
    pose proof (Qmult_le_compat_r _ _ _ Hax Hpq) as H1.
    pose proof (Qmult_le_compat_r _ _ _ Hxb Hpq) as H2.
    unfold id. split; lra.
Qed.

Lemma nonneg_sum l :
  Forall (fun s => 0 <= population s) l -> 0 <= sum_population l.
Proof. induction 1; simpl; lia. Qed.

Lemma merged_total_positive group out :
  Forall (fun s => 0 <= population s) group ->
  process_settlement_group group = Ok out ->
  (0 < inject_Z (sum_population group))%Q.
Proof.
  intros Hp Hout. change 0%Q with (inject_Z 0). rewrite <- Zlt_Qlt.
  pose proof (nonneg_sum _ Hp).
  assert (sum_population group <> 0); [|lia].
  intros Hz. unfold process_settlement_group, py_div in Hout.
  destruct (sum_weighted get_lat 0 group); [|discriminate]. simpl in Hout.
  by rewrite Hz in Hout.
Qed.

(** A weighted mean with non-negative weights lies between any two
    bounds of the values. *)
Lemma mean_between (get : settlement -> option Q) (a b q : Q) group :
  Forall (fun s => 0 <= population s) group ->
  (0 < inject_Z (sum_population group))%Q ->
  Forall (fun s => exists x, get s = Some x /\ (a <= x /\ x <= b)%Q) group ->
  (q * inject_Z (sum_population group) == moment get group)%Q ->
  (a <= q /\ q <= b)%Q.
Proof.
  intros Hp HT Hx Hq.
  destruct (moment_bounds get a b group Hp Hx) as [A1 A2].
  rewrite <- Hq in A1, A2.
  apply Qmult_le_r in A1, A2; try exact HT. by split.
Qed.

Lemma merged_in_box (b : bbox) (group : list settlement) (out : settlement) :
  Forall (fun s => 0 <= population s) group ->
  Forall (located_in b) group ->
  process_settlement_group group = Ok out ->
  located_in b out.
Proof.
  intros Hp Hbox Hout.
  pose proof (merged_total_positive group out Hp Hout) as HT.
  destruct (process_settlement_group_spec _ _ Hout)
    as (_ & _ & (la & lo & Hla & Hlo & Hmla & Hmlo) & _).
  exists la, lo. split; [exact Hla|]. split; [exact Hlo|].
  destruct (mean_between lat (min_lat b) (max_lat b) la group Hp HT) as [A1 A2];
    [|exact Hmla|].
  { eapply Forall_impl; [exact Hbox|]. simpl.
    intros s (x & y & Hx & _ & H1 & H2 & _). eauto. }
  destruct (mean_between lon (min_lon b) (max_lon b) lo group Hp HT) as [B1 B2];
    [|exact Hmlo|].
  { eapply Forall_impl; [exact Hbox|]. simpl.
    intros s (x & y & _ & Hy & _ & _ & H3 & H4). eauto. }
  by repeat split.
Qed.

(** X6: the centroid stays between the members. When no member of a
    cluster has a negative population and [process_settlement_group]
    returns, the latitude of the result lies between any two bounds
    that hold for the latitude of every member, and likewise the
    longitude: the merged settlement lies inside every
    latitude-longitude box that holds all the members. *)
Theorem centroid_stays_between_members (group : list settlement)
    (out : settlement) (a b : Q) :
  Forall (fun s => 0 <= population s) group ->
  process_settlement_group group = Ok out ->
  (Forall (fun s => exists x, lat s = Some x /\ (a <= x /\ x <= b)%Q) group ->
   exists x, lat out = Some x /\ (a <= x /\ x <= b)%Q) /\
  (Forall (fun s => exists x, lon s = Some x /\ (a <= x /\ x <= b)%Q) group ->
   exists x, lon out = Some x /\ (a <= x /\ x <= b)%Q).
Proof.
  intros Hp Hout.
  pose proof (merged_total_positive group out Hp Hout) as HT.
  destruct (process_settlement_group_spec _ _ Hout)
    as (_ & _ & (la & lo & Hla & Hlo & Hmla & Hmlo) & _).
  split; intros Hall.
  - exists la. split; [exact Hla|].
    exact (mean_between lat a b la group Hp HT Hall Hmla).
  - exists lo. split; [exact Hlo|].
    exact (mean_between lon a b lo group Hp HT Hall Hmlo).
Qed.

Lemma centroid_stays_between_members_witness :
  exists out x,
    process_settlement_group two_members = Ok out /\
    lat out = Some x /\ (53 <= x /\ x <= 54)%Q.
Proof.
  destruct (process_settlement_group two_members) as [out|e] eqn:Hout;
    [|vm_compute in Hout; discriminate].
  destruct (centroid_stays_between_members two_members out 53 54) as [H _].
  - repeat constructor; simpl; lia.
  - exact Hout.
  - destruct H as (x & Hx & Hb).
    + repeat constructor; eexists; (split; [reflexivity|]); split; discriminate.
    + by exists out, x.
Defined.

(** X7: the constituents of a merged settlement. Whenever
    [process_settlement_group] returns, the constituent list of the
    result has no duplicates, holds the name of every member and the
    result's own name, and holds nothing but names and constituents of
    members. *)
Theorem merged_constituents (group : list settlement) (out : settlement) :
  process_settlement_group group = Ok out ->
  exists cs,
    constituent_settlements out = Some cs /\
    NoDup cs /\
    name out ∈ cs /\
    (forall s, s ∈ group -> name s ∈ cs) /\
    (forall c, c ∈ cs -> exists s, s ∈ group /\ c ∈ listed_names s).
Proof.
  intros Hout.
  destruct (process_settlement_group_spec _ _ Hout)
    as (_ & (m & (before & after & Hm & _) & Hname) & _ & Hcs).
  exists (collect_constituents group). split; [exact Hcs|].
  unfold collect_constituents.
  assert (Hall : forall s, s ∈ group -> name s ∈ fromkeys (flat_map listed_names group)).
  { intros s Hs. rewrite elem_of_fromkeys, list_elem_of_In, in_flat_map.
    exists s. rewrite <- !list_elem_of_In. split; [exact Hs|].
    unfold listed_names. set_solver. }
  split; [apply NoDup_fromkeys|]. split; [|split; [exact Hall|]].
  - rewrite Hname. apply Hall. rewrite Hm. set_solver.
  - intros c Hc. rewrite elem_of_fromkeys, list_elem_of_In, in_flat_map in Hc.
    destruct Hc as (s & Hs & Hc). exists s. by rewrite !list_elem_of_In.
Qed.

Lemma merged_constituents_witness :
  exists out cs,
    process_settlement_group two_members = Ok out /\
    constituent_settlements out = Some cs /\ NoDup cs /\ name out ∈ cs.
Proof.
  destruct (merged_constituents two_members
              (mkSettlement "B, R" 400 (Some (21500 # 400)%Q) (Some (- (2900 # 400))%Q)
                            None None (Some ["A, R"; "B, R"; "C, R"])))
    as (cs & Hcs & Hnd & Hin & _); [reflexivity|].
  eexists _, cs. split; [reflexivity|]. by repeat split.
Defined.

(** ** The pregrouper: the names it carries *)

Lemma filter_all {A} (P : A -> Prop) `{!forall x, Decision (P x)} (l : list A) :
  Forall P l -> filter P l = l.
Proof.
  induction 1 as [|x l Hx _ IH]; [reflexivity|].
  rewrite filter_cons, decide_True by exact Hx. by rewrite IH.
Qed.

Lemma fromkeys_NoDup l : NoDup l -> fromkeys l = l.
Proof.
  induction 1 as [|x l Hx _ IH]; [reflexivity|].
  rewrite fromkeys_cons, IH. f_equal. apply filter_all.
  apply Forall_forall. intros y Hy ->. exact (Hx Hy).
Qed.

Lemma census_listed_names group :
  Forall census_record group -> flat_map listed_names group = map name group.
Proof.
  induction 1 as [|s l Hs _ IH]; [reflexivity|].
  cbn [flat_map map]. unfold listed_names at 1. unfold census_record in Hs.
  rewrite Hs. cbn [app]. by rewrite IH.
Qed.

Lemma census_names_carried l :
  Forall census_record l -> names_carried l = map name l.
Proof.
  induction 1 as [|s l Hs _ IH]; [reflexivity|].
  unfold names_carried in *. cbn [flat_map map]. unfold constituents_or_name at 1.
  unfold census_record in Hs. rewrite Hs. cbn [default app]. by rewrite IH.
Qed.

Lemma emit_group_names current others t :
  Forall census_record (current :: others) ->
  constituents_or_name (emit_group current others t)
  = fromkeys (map name (current :: others)).
Proof.
  intros Hc. destruct others as [|o others].
  - simpl. apply Forall_cons in Hc as [Hc _].
    unfold constituents_or_name. rewrite Hc. reflexivity.
  - unfold emit_group, constituents_or_name, collect_constituents.
    cbn [constituent_settlements default]. by rewrite census_listed_names.
Qed.

Lemma names_carried_app l1 l2 :
  names_carried (l1 ++ l2) = names_carried l1 ++ names_carried l2.
Proof. unfold names_carried. apply flat_map_app. Qed.

Lemma groups_of_names_elem m rs out x :
  groups_of m rs out -> Forall census_record rs ->
  x ∈ names_carried out <-> x ∈ map name rs.
Proof.
  induction 1 as [|current others|current others rest out Hm Hne Hg IH]; intros Hc.
  - reflexivity.
  - unfold names_carried. simpl. rewrite app_nil_r, emit_group_names by exact Hc.
    apply elem_of_fromkeys.
  - change (current :: others ++ rest) with ((current :: others) ++ rest) in *.
    apply Forall_app in Hc as [Hc1 Hc2].
    change (names_carried (?a :: out)) with (constituents_or_name a ++ names_carried out).
    rewrite emit_group_names by exact Hc1.
    rewrite map_app, !elem_of_app, elem_of_fromkeys, (IH Hc2). reflexivity.
Qed.

Lemma groups_of_names_eq m rs out :
  groups_of m rs out -> Forall census_record rs -> NoDup (map name rs) ->
  names_carried out = map name rs.
Proof.
  induction 1 as [|current others|current others rest out Hm Hne Hg IH]; intros Hc Hnd.
  - reflexivity.
  - unfold names_carried. simpl. rewrite app_nil_r, emit_group_names by exact Hc.
    by apply fromkeys_NoDup.
  - change (current :: others ++ rest) with ((current :: others) ++ rest) in *.
    apply Forall_app in Hc as [Hc1 Hc2].
    rewrite map_app in Hnd. apply NoDup_app in Hnd as (Hnd1 & _ & Hnd2).
    change (names_carried (?a :: out)) with (constituents_or_name a ++ names_carried out).
    rewrite emit_group_names by exact Hc1.
    rewrite (IH Hc2 Hnd2), fromkeys_NoDup by exact Hnd1.
    by rewrite map_app.
Qed.

Lemma regions_names_elem m d x :
  Forall census_record (region_members d) ->
  x ∈ names_carried (flat_map (fun kv => process_region m (sort_desc (snd kv))) d)
  <-> x ∈ map name (region_members d).
Proof.
  unfold region_members.
  induction d as [|[k l] d IH]; intros Hc; [reflexivity|].
  simpl in *. apply Forall_app in Hc as [Hc1 Hc2].
  rewrite names_carried_app, map_app, !elem_of_app, (IH Hc2).
  rewrite (groups_of_names_elem m (sort_desc l) _ x (process_region_groups _ _)).
  - by rewrite (Permutation_map name (sort_desc_perm l)).
  - by rewrite (sort_desc_perm l).
Qed.

Lemma regions_names_perm m d :
  Forall census_record (region_members d) ->
  NoDup (map name (region_members d)) ->
  names_carried (flat_map (fun kv => process_region m (sort_desc (snd kv))) d)
  ≡ₚ map name (region_members d).
Proof.
  unfold region_members.
  induction d as [|[k l] d IH]; intros Hc Hnd; [reflexivity|].
  simpl in *. apply Forall_app in Hc as [Hc1 Hc2].
  rewrite map_app in Hnd. apply NoDup_app in Hnd as (Hnd1 & _ & Hnd2).
  rewrite names_carried_app, map_app, (IH Hc2 Hnd2).
  rewrite (groups_of_names_eq m (sort_desc l) _ (process_region_groups _ _)).
  - by rewrite (Permutation_map name (sort_desc_perm l)).
  - by rewrite (sort_desc_perm l).
  - by rewrite (Permutation_map name (sort_desc_perm l)).
Qed.

Lemma split_perm (m : Z) (l : list settlement) :
  filter (fun s => m <= population s) l ++ filter (fun s => population s < m) l ≡ₚ l.
Proof.
  induction l as [|x l IH]; [reflexivity|].
  rewrite !filter_cons. repeat case_decide; simpl; try lia.
  - by rewrite IH.
  - rewrite <- Permutation_middle. by rewrite IH.
Qed.

Lemma grouped_result_names (ss : list settlement) (m : Z) :
  Forall census_record ss ->
  (forall x, x ∈ names_carried (grouped_result ss m) <-> x ∈ map name ss) /\
  (NoDup (map name ss) -> names_carried (grouped_result ss m) ≡ₚ map name ss).
Proof.
  intros Hc. unfold grouped_result.
  set (sorted := sort_desc ss).
  set (kept := filter (fun s => m <= population s) sorted).
  set (remaining := filter (fun s => population s < m) sorted).
  assert (Hperm : kept ++ remaining ≡ₚ ss).
  { unfold kept, remaining. rewrite split_perm. apply sort_desc_perm. }
  assert (Hc' : Forall census_record (kept ++ remaining)) by by rewrite Hperm.
  apply Forall_app in Hc' as [Hk Hr].
  assert (Hd : Forall census_record (region_members (by_admin_region remaining)))
    by by rewrite by_admin_region_members.
  rewrite names_carried_app, census_names_carried by exact Hk.
  split.
  - intros x. rewrite elem_of_app, (regions_names_elem m _ x Hd).
    rewrite (Permutation_map name (by_admin_region_members remaining)).
    rewrite <- elem_of_app, <- map_app.
    by rewrite (Permutation_map name Hperm).
  - intros Hnd. rewrite regions_names_perm.
    + rewrite (Permutation_map name (by_admin_region_members remaining)).
      rewrite <- map_app. by apply Permutation_map.
    + exact Hd.
    + rewrite (Permutation_map name (by_admin_region_members remaining)).
      rewrite <- (Permutation_map name Hperm), map_app in Hnd.
      by apply NoDup_app in Hnd as (_ & _ & Hnd).
Qed.

(** X8: no census name is lost or invented by the pregrouper. For
    census records (records without the key [constituent_settlements])
    the names carried by the output of [pregroup_small_settlements] -
    the constituents of a merged record, the own name of an untouched
    one - are exactly the names of the input, whatever the floor and the
    target count; when the input names are distinct, every one of them
    is carried exactly once. *)
Theorem pregroup_carries_every_name (ss : list settlement) (m n : Z)
    (out : list settlement) :
  Forall census_record ss ->
  pregroup_small_settlements ss m n = Ok out ->
  (forall x, x ∈ names_carried out <-> x ∈ map name ss) /\
  (NoDup (map name ss) -> names_carried out ≡ₚ map name ss).
Proof.
  intros Hc Hout. rewrite pregroup_small_settlements_eq in Hout.
  injection Hout as <-.
  destruct (Z.of_nat (length ss) <=? n).
  - rewrite census_names_carried by exact Hc.
    split; [intros x; reflexivity | intros _; reflexivity].
  - destruct (grouped_result_names ss m Hc) as [Helem Hperm].
    split; [exact Helem | exact Hperm].
Qed.

Lemma pregroup_carries_every_name_witness :
  exists out,
    pregroup_small_settlements scenario_input 1000 1 = Ok out /\
    names_carried out ≡ₚ map name scenario_input.
Proof.
  eexists. split; [reflexivity|].
  destruct (pregroup_carries_every_name scenario_input 1000 1
              (grouped_result scenario_input 1000)) as [_ H].
  - repeat constructor.
  - reflexivity.
  - apply H. vm_compute. repeat constructor; set_solver.
Defined.

(** ** The resolver: failures and the entries of its result *)

Section ResolverMore.
Variable geocode : list string -> string -> option (Q * Q).

Lemma process_batch_entries batch : forall results w results' w',
  process_batch geocode batch results w = (Ok results', w') ->
  forall n c, results' !! n = Some c ->
    results !! n = Some c \/ (n ∈ batch /\ answered geocode n c).
Proof.
  induction batch as [|n0 batch IH]; intros results w results' w' Hrun n c Hn.
  - injection Hrun as <- <-. by left.
  - cbn [process_batch] in Hrun. unfold bind, fetch_google_maps_location in Hrun.
    destruct (IH _ _ _ _ Hrun n c Hn) as [H1|[Hin Ha]].
    + destruct (geocode (requests w) n0) as [l|] eqn:Hg; [|by left].
      apply lookup_insert_Some in H1 as [[-> ->]|[_ H1]]; [|by left].
      right. split; [set_solver|]. by exists (requests w).
    + right. split; [set_solver | exact Ha].
Qed.

Lemma process_batches_entries batches : forall results w results' w',
  process_batches geocode batches results w = (Ok results', w') ->
  forall n c, results' !! n = Some c ->
    results !! n = Some c \/ (n ∈ concat batches /\ answered geocode n c).
Proof.
  induction batches as [|batch batches IH]; intros results w results' w' Hrun n c Hn.
  - injection Hrun as <- <-. by left.
  - cbn [process_batches] in Hrun. unfold bind at 1 in Hrun.
    destruct (process_batch geocode batch results w) as [[results1|e] w1] eqn:Hb;
      [|discriminate].
    unfold bind at 1, save_locations, update_checkpoints in Hrun.
    destruct (IH _ _ _ _ Hrun n c Hn) as [H1|[Hin Ha]].
    + destruct (process_batch_entries _ _ _ _ _ Hb n c H1) as [H2|[Hin Ha]];
        [by left|].
      right. split; [simpl; set_solver | exact Ha].
    + right. split; [simpl; set_solver | exact Ha].
Qed.

(** X9: the resolver invents nothing. Whatever the service answers and
    whatever the batch size, every entry of the mapping
    [fetch_locations_batch] returns is an entry of the loaded
    [locations] checkpoint, or belongs to one of the requested names
    that the checkpoint lacked and holds a coordinate the service gave
    for that very name. *)
Theorem resolver_invents_nothing (names : list string) (batch_size : nat)
    (w w' : world) (results : gmap string (Q * Q)) :
  let ck := default ∅ (locations_pickle (checkpoint_dir w)) in
  fetch_locations_batch true geocode names batch_size w = (Ok results, w') ->
  forall n c, results !! n = Some c ->
    ck !! n = Some c \/
    (n ∈ names /\ ck !! n = None /\ answered geocode n c).
Proof.
  intros ck Hrun n c Hn.
  unfold fetch_locations_batch in Hrun. cbn [negb] in Hrun.
  unfold bind, load_checkpoint in Hrun. fold ck in Hrun.
  destruct (filter (fun n => ck !! n = None) names) as [|n0 todo] eqn:Htodo.
  - injection Hrun as <- <-. by left.
  - destruct batch_size as [|k]; [discriminate|].
    destruct (process_batches_entries _ _ _ _ _ Hrun n c Hn) as [H|[Hin Ha]];
      [by left|].
    rewrite concat_chunks, <- Htodo, list_elem_of_filter in Hin.
    right. tauto.
Qed.

(** X10: the failures of the resolver. It raises in two cases only:
    [ValueError] when the API key is not set, and [ZeroDivisionError]
    when the key is set, the batch size is 0 and some requested name is
    absent from the checkpoint. In both cases no request has been sent
    and no file has been written; a geocoding failure never makes the
    resolver raise. *)
Theorem resolver_failures (key : bool) (names : list string) (batch_size : nat)
    (w : world) :
  let ck := default ∅ (locations_pickle (checkpoint_dir w)) in
  let run := fetch_locations_batch key geocode names batch_size w in
  (forall e w', run = (Raise e, w') ->
     w' = w /\
     (key = false /\ e = ValueError \/
      key = true /\ batch_size = 0%nat /\ e = ZeroDivisionError /\
      Exists (fun n => ck !! n = None) names)) /\
  (key = false -> run = (Raise ValueError, w)) /\
  (key = true -> batch_size = 0%nat -> Exists (fun n => ck !! n = None) names ->
   run = (Raise ZeroDivisionError, w)).
Proof.
  intros ck run. subst run. unfold fetch_locations_batch.
  destruct key; cbn [negb].
  - unfold bind, load_checkpoint. fold ck.
    destruct (filter (fun n => ck !! n = None) names) as [|n0 todo] eqn:Htodo.
    + split; [discriminate|]. split; [discriminate|].
      intros _ _ Hex. apply Exists_exists in Hex as (n & Hn & Hnone).
      assert (n ∈ filter (fun n => ck !! n = None) names)
        by (by apply list_elem_of_filter).
      rewrite Htodo in H. by apply elem_of_nil in H.
    + assert (Hex : Exists (fun n => ck !! n = None) names).
      { apply Exists_exists. exists n0.
        assert (H : n0 ∈ filter (fun n => ck !! n = None) names)
          by (rewrite Htodo; set_solver).
        apply list_elem_of_filter in H. tauto. }
      destruct batch_size as [|k].
      * split; [|done]. intros e w' H. injection H as <- <-.
        split; [reflexivity|]. right. done.
      * split; [|split; [discriminate|discriminate]].
        intros e w' H.
        destruct (process_batches_run geocode (chunks (S k) (n0 :: todo)) ck w)
          as (r & w1 & Hrun & _).
        rewrite Hrun in H. discriminate.
  - split; [|done]. intros e w' H. injection H as <- <-.
    split; [reflexivity|]. by left.
Qed.

End ResolverMore.

Lemma resolver_invents_nothing_witness :
  default ∅ (locations_pickle (checkpoint_dir resumed_world)) !! "S0"
  = Some ((52 # 1)%Q, (- (9 # 1))%Q) \/
  ("S0" ∈ ["S0"; "S1"] /\
   default ∅ (locations_pickle (checkpoint_dir resumed_world)) !! "S0" = None /\
   answered never_found "S0" ((52 # 1)%Q, (- (9 # 1))%Q)).
Proof.
  apply (resolver_invents_nothing never_found ["S0"; "S1"] 50 resumed_world
           (snd (fetch_locations_batch true never_found ["S0"; "S1"] 50 resumed_world))
           {[ "S0" := ((52 # 1)%Q, (- (9 # 1))%Q) ]}).
  - vm_compute. reflexivity.
  - vm_compute. reflexivity.
Defined.

Lemma resolver_failures_witness :
  fetch_locations_batch false never_found ["S1"] 50 resumed_world
  = (Raise ValueError, resumed_world) /\
  fetch_locations_batch true never_found ["S1"] 0 resumed_world
  = (Raise ZeroDivisionError, resumed_world).
Proof.
  destruct (resolver_failures never_found false ["S1"] 50 resumed_world)
    as (_ & H1 & _).
  destruct (resolver_failures never_found true ["S1"] 0 resumed_world)
    as (_ & _ & H2).
  split; [by apply H1|].
  apply H2; [reflexivity | reflexivity |].
  constructor. vm_compute. reflexivity.
Defined.

(** ** The resolver against a service that answers the same every time *)

Section StableService.
Variable g : string -> option (Q * Q).

Lemma process_batch_stable batch : forall results w,
  exists results',
    process_batch (fun _ => g) batch results w = (Ok results', add_requests w batch) /\
    forall n, results' !! n =
              if decide (n ∈ batch)
              then match g n with Some l => Some l | None => results !! n end
              else results !! n.
Proof.
  induction batch as [|n0 batch IH]; intros results w.
  - exists results. cbn [process_batch]. unfold ret. rewrite add_requests_nil.
    split; [reflexivity|]. intros n.
    case_decide as H; [by apply elem_of_nil in H | reflexivity].
  - cbn [process_batch]. unfold bind, fetch_google_maps_location.
    set (results1 := match g n0 with
                     | Some l => <[n0:=l]> results
                     | None => results
                     end).
    destruct (IH results1 (add_requests w [n0])) as (results' & Hrun & Hspec).
    exists results'. split.
    + unfold add_requests in Hrun at 1. rewrite Hrun.
      by rewrite add_requests_app.
    + intros n. rewrite Hspec.
      assert (H1 : results1 !! n =
                   if decide (n = n0)
                   then match g n with Some l => Some l | None => results !! n end
                   else results !! n).
      { unfold results1. destruct (decide (n = n0)) as [->|Hne].
        - destruct (g n0); [by rewrite lookup_insert_eq|done].
        - destruct (g n0); [by rewrite lookup_insert_ne|done]. }
      destruct (decide (n ∈ batch)) as [Hin|Hin].
      * rewrite decide_True by set_solver.
        destruct (g n); [reflexivity|]. rewrite H1. by destruct (decide (n = n0)).
      * rewrite H1. destruct (decide (n = n0)) as [->|Hne].
        -- rewrite decide_True by set_solver. reflexivity.
        -- rewrite decide_False by set_solver. reflexivity.
Qed.

Lemma process_batches_stable batches : forall results w,
  exists results' w',
    process_batches (fun _ => g) batches results w = (Ok results', w') /\
    forall n, results' !! n =
              if decide (n ∈ concat batches)
              then match g n with Some l => Some l | None => results !! n end
              else results !! n.
Proof.
  induction batches as [|batch batches IH]; intros results w.
  - exists results, w. split; [reflexivity|]. intros n. cbn [concat].
    case_decide as H; [by apply elem_of_nil in H | reflexivity].
  - cbn [process_batches]. unfold bind at 1.
    destruct (process_batch_stable batch results w) as (results1 & -> & H1).
    unfold bind at 1, save_locations, update_checkpoints.
    match goal with |- context [process_batches _ batches results1 ?w1] =>
      destruct (IH results1 w1) as (results' & w' & -> & H2)
    end.
    exists results', w'. split; [reflexivity|]. intros n.
    rewrite H2, H1. cbn [concat].
    destruct (decide (n ∈ concat batches)) as [Hc|Hc];
      destruct (decide (n ∈ batch)) as [Hb|Hb].
    + rewrite decide_True by set_solver. by destruct (g n).
    + rewrite decide_True by set_solver. reflexivity.
    + rewrite decide_True by set_solver. reflexivity.
    + rewrite decide_False by set_solver. reflexivity.
Qed.

(** X11: the resolver against a service whose answer to a name does not
    depend on earlier requests. With the API key set and a positive
    batch size the resolver returns, and its result holds for every name
    the checkpoint's coordinate when the checkpoint has one, otherwise
    the service's answer when the name was among those asked for, and
    nothing for any other name: the checkpoint always wins over the
    service, and duplicates in the name list change nothing. *)
Theorem resolver_with_stable_service (names : list string) (k : nat) (w : world) :
  let ck := default ∅ (locations_pickle (checkpoint_dir w)) in
  exists results w',
    fetch_locations_batch true (fun _ => g) names (S k) w = (Ok results, w') /\
    forall n, results !! n = resolved ck g names n.
Proof.
  intros ck. unfold fetch_locations_batch. cbn [negb].
  unfold bind, load_checkpoint. fold ck. unfold resolved.
  destruct (filter (fun n => ck !! n = None) names) as [|n0 todo] eqn:Htodo.
  - exists ck, w. split; [reflexivity|]. intros n.
    destruct (ck !! n) as [c|] eqn:Hn; [reflexivity|].
    rewrite decide_False; [reflexivity|]. intros Hin.
    assert (H : n ∈ filter (fun n => ck !! n = None) names)
      by (by apply list_elem_of_filter).
    rewrite Htodo in H. by apply elem_of_nil in H.
  - destruct (process_batches_stable (chunks (S k) (n0 :: todo)) ck w)
      as (results & w' & -> & Hspec).
    exists results, w'. split; [reflexivity|]. intros n.
    rewrite Hspec, concat_chunks, <- Htodo.
    destruct (ck !! n) as [c|] eqn:Hn.
    + rewrite decide_False; [reflexivity|].
      rewrite list_elem_of_filter. intros [H _]. congruence.
    + destruct (decide (n ∈ names)) as [Hin|Hin].
      * rewrite decide_True by (by apply list_elem_of_filter).
        by destruct (g n).
      * rewrite decide_False; [reflexivity|].
        rewrite list_elem_of_filter. tauto.
Qed.

End StableService.

(** ** The orchestrator: what a run does to [settlements.json] *)

Lemma no_exit_rbind {A B} (r : result A) (k : A -> result B) :
  no_exit r -> (forall a, no_exit (k a)) -> no_exit (rbind r k).
Proof.
  intros Hr Hk. destruct r as [a|e]; simpl; [apply Hk|].
  intros code [= ->]. by apply (Hr code).
Qed.

Lemma no_exit_mapM {A B} (f : A -> result B) (l : list A) :
  (forall a, no_exit (f a)) -> no_exit (mapM f l).
Proof.
  intros Hf. induction l as [|x l IH]; simpl; [intros c; discriminate|].
  apply no_exit_rbind; [apply Hf|]. intros y.
  apply no_exit_rbind; [exact IH|]. intros ys c. discriminate.
Qed.

Lemma no_exit_get_lat s : no_exit (get_lat s).
Proof. unfold get_lat. destruct (lat s); intros c; discriminate. Qed.

Lemma no_exit_get_lon s : no_exit (get_lon s).
Proof. unfold get_lon. destruct (lon s); intros c; discriminate. Qed.

Lemma no_exit_py_div a b : no_exit (py_div a b).
Proof. unfold py_div. destruct (b =? 0); intros c; discriminate. Qed.

Lemma no_exit_int_truediv a b : no_exit (int_truediv a b).
Proof.
  unfold int_truediv. destruct (b =? 0); [intros c; discriminate|].
  destruct (SpecFloat.SFdiv _ _ _ _); intros c; discriminate.
Qed.

Lemma no_exit_int_to_float z : no_exit (int_to_float z).
Proof.
  unfold int_to_float.
  destruct (SpecFloat.binary_normalize _ _ _ _ _); intros c; discriminate.
Qed.

Lemma no_exit_round_float x : no_exit (round_float x).
Proof. destruct x; intros c; discriminate. Qed.

Section NoExit.
Variable calculate_distance : Q * Q -> Q * Q -> Q.
Variable max_distance : Q.

Lemma no_exit_within s s2 : no_exit (within calculate_distance max_distance s s2).
Proof.
  unfold within.
  apply no_exit_rbind; [apply no_exit_get_lat|]. intros la1.
  apply no_exit_rbind; [apply no_exit_get_lon|]. intros lo1.
  apply no_exit_rbind; [apply no_exit_get_lat|]. intros la2.
  apply no_exit_rbind; [apply no_exit_get_lon|]. intros lo2 c. discriminate.
Qed.

Lemma no_exit_near_group group s2 :
  no_exit (near_group calculate_distance max_distance group s2).
Proof.
  induction group as [|s group IH]; simpl; [intros c; discriminate|].
  apply no_exit_rbind; [apply no_exit_within|].
  intros [|]; [intros c; discriminate | exact IH].
Qed.

Lemma no_exit_scan r items : forall group used,
  no_exit (scan calculate_distance max_distance r items group used).
Proof.
  induction items as [|[j s2] items IH]; intros group used; simpl;
    [intros c; discriminate|].
  repeat case_decide; try apply IH.
  apply no_exit_rbind; [apply no_exit_near_group|]. intros [|]; apply IH.
Qed.

Lemma no_exit_seed_groups all items : forall used,
  no_exit (seed_groups calculate_distance max_distance all items used).
Proof.
  induction items as [|[i s1] items IH]; intros used; simpl;
    [intros c; discriminate|].
  case_decide; [apply IH|].
  apply no_exit_rbind; [apply no_exit_scan|]. intros gu.
  apply no_exit_rbind; [apply IH|]. intros groups c. discriminate.
Qed.

Lemma no_exit_group_settlements ss :
  no_exit (group_settlements calculate_distance max_distance ss).
Proof. apply no_exit_seed_groups. Qed.

End NoExit.

Lemma no_exit_sum_weighted get group : forall acc,
  (forall s, no_exit (get s)) -> no_exit (sum_weighted get acc group).
Proof.
  induction group as [|s group IH]; intros acc Hget; simpl;
    [intros c; discriminate|].
  apply no_exit_rbind; [apply Hget|]. intros x. by apply IH.
Qed.

Lemma no_exit_process_settlement_group group :
  no_exit (process_settlement_group group).
Proof.
  unfold process_settlement_group.
  apply no_exit_rbind; [apply no_exit_sum_weighted, no_exit_get_lat|]. intros x1.
  apply no_exit_rbind; [apply no_exit_py_div|]. intros x2.
  apply no_exit_rbind; [apply no_exit_sum_weighted, no_exit_get_lon|]. intros x3.
  apply no_exit_rbind; [apply no_exit_py_div|]. intros x4.
  apply no_exit_rbind; [destruct group; intros c; discriminate|].
  intros x5 c. discriminate.
Qed.

Lemma no_exit_set_grid t s : no_exit (set_grid t s).
Proof.
  unfold set_grid.
  apply no_exit_rbind; [apply no_exit_get_lon|]. intros lo.
  apply no_exit_rbind; [apply no_exit_get_lat|]. intros la.
  simpl. intros c. discriminate.
Qed.

Lemma no_exit_finalize calculate_distance existing total geocoded not_found names :
  no_exit (finalize calculate_distance existing total geocoded not_found names).
Proof.
  unfold finalize.
  apply no_exit_rbind; [apply no_exit_group_settlements|]. intros groups.
  apply no_exit_rbind; [apply no_exit_mapM, no_exit_process_settlement_group|].
  intros merged.
  apply no_exit_rbind; [apply no_exit_mapM; intros; apply no_exit_set_grid|].
  intros final. destruct existing as [d|].
  - unfold combine_with_existing.
    apply no_exit_rbind.
    + destruct (0 <? _); [|intros c; discriminate].
      unfold undistribute. apply no_exit_mapM. intros s.
      apply no_exit_rbind; [apply no_exit_int_truediv|]. intros proportion.
      apply no_exit_rbind; [apply no_exit_int_to_float|]. intros amount.
      apply no_exit_rbind; [apply no_exit_round_float|]. intros share c. discriminate.
    + intros ex. apply no_exit_rbind; [apply no_exit_py_div|].
      intros rate c. discriminate.
  - unfold fresh_dataset. apply no_exit_rbind; [apply no_exit_py_div|].
    intros rate c. discriminate.
Qed.

Lemma keeps_ret {A} (a : A) : keeps_dataset (ret a).
Proof. intros w. split; [reflexivity|]. discriminate. Qed.

Lemma keeps_raise {A} e : exits_1 e -> keeps_dataset (@raise A e).
Proof. intros He w. split; [reflexivity|]. simpl. by intros e' [= <-]. Qed.

Lemma keeps_lift {A} (r : result A) : no_exit r -> keeps_dataset (lift r).
Proof.
  intros Hr w. split; [reflexivity|]. simpl. intros e -> code ->.
  by destruct (Hr code).
Qed.

Lemma keeps_bind {A B} (c : prog A) (k : A -> prog B) :
  keeps_dataset c -> (forall a, keeps_dataset (k a)) -> keeps_dataset (bind c k).
Proof.
  intros Hc Hk w. unfold bind. destruct (Hc w) as [H1 H2].
  destruct (c w) as [[a|e] w1]; simpl in *.
  - destruct (Hk a w1) as [H3 H4]. split; [congruence | exact H4].
  - split; [exact H1|]. intros e' [= <-]. by apply H2.
Qed.

Lemma keeps_load {A} (file : checkpoints -> option A) :
  keeps_dataset (load_checkpoint file).
Proof. intros w. split; [reflexivity|]. discriminate. Qed.

Lemma keeps_update f : keeps_dataset (update_checkpoints f).
Proof. intros w. split; [reflexivity|]. discriminate. Qed.

Lemma keeps_save_unmatched d : keeps_dataset (save_unmatched_settlements d).
Proof. intros w. split; [reflexivity|]. discriminate. Qed.

Lemma exits_1_one : exits_1 (SystemExit 1).
Proof. by intros code [= <-]. Qed.

Lemma exits_1_runtime : exits_1 RuntimeError.
Proof. intros code. discriminate. Qed.

Lemma no_exit_exits_1 {A} (r : result A) e : no_exit r -> r = Raise e -> exits_1 e.
Proof. intros Hr -> code ->. by destruct (Hr code). Qed.

Section OrchestratorOutcome.
Variable geocode : list string -> string -> option (Q * Q).
Variable calculate_distance : Q * Q -> Q * Q -> Q.
Variable population_csv : option (list settlement).
Variable missing_settlements : option (list (string * Z)).

Lemma keeps_stage_1 append :
  keeps_dataset (stage_1 population_csv missing_settlements append).
Proof.
  unfold stage_1, load_existing_settlements, load_missing_settlements,
    fetch_cso_settlements, clear_checkpoints, save_cso_settlements.
  destruct append.
  - apply keeps_bind; [intros w; split; [reflexivity|discriminate]|].
    intros [existing|]; [|apply keeps_raise, exits_1_one].
    apply keeps_bind.
    + destruct missing_settlements; [apply keeps_ret | apply keeps_raise, exits_1_one].
    + intros cso. apply keeps_bind; [apply keeps_update|]. intros _. apply keeps_ret.
  - apply keeps_bind; [apply keeps_load|].
    intros [cso|]; [apply keeps_ret|].
    apply keeps_bind.
    + destruct population_csv as [[|s l]|];
        [apply keeps_raise, exits_1_runtime | apply keeps_ret
        | apply keeps_raise, exits_1_one].
    + intros cso. apply keeps_bind; [apply keeps_update|]. intros _. apply keeps_ret.
Qed.

Lemma keeps_stage_2 cso : keeps_dataset (stage_2 cso).
Proof.
  unfold stage_2, save_grouped_settlements.
  apply keeps_bind; [apply keeps_load|].
  intros [grouped|]; [apply keeps_ret|].
  apply keeps_bind.
  - apply keeps_lift. unfold pregroup_default.
    rewrite pregroup_small_settlements_eq. intros c. discriminate.
  - intros g. apply keeps_bind; [apply keeps_update|]. intros _. apply keeps_ret.
Qed.

Lemma keeps_fetch_locations_batch names :
  keeps_dataset (fetch_locations_batch true geocode names 50).
Proof.
  intros w.
  destruct (fetch_locations_batch_run geocode names 49 w)
    as (results & w' & Hrun & _ & _ & _ & (Hj & _) & _).
  rewrite Hrun. simpl. split; [exact Hj | discriminate].
Qed.

Lemma keeps_stage_4 grouped locations : keeps_dataset (stage_4 grouped locations).
Proof.
  unfold stage_4, save_processed_settlements, failure_gate.
  destruct (attach_coordinates locations grouped) as [[geocoded not_found] details].
  apply keeps_bind; [apply keeps_update|]. intros _.
  apply keeps_bind.
  { destruct details; [apply keeps_ret | apply keeps_save_unmatched]. }
  intros _. apply keeps_bind.
  { destruct not_found as [|n not_found]; [apply keeps_ret|].
    apply keeps_bind; [apply keeps_lift, no_exit_py_div|].
    intros rate. destruct (high_failure_rate rate);
      [apply keeps_raise, exits_1_one | apply keeps_ret]. }
  intros _. destruct geocoded; [apply keeps_raise, exits_1_one | apply keeps_ret].
Qed.

Lemma stage_5_outcome existing total geocoded not_found names :
  writes_or_keeps (stage_5 calculate_distance existing total geocoded not_found names).
Proof.
  intros w. unfold stage_5, bind, load_checkpoint, lift, save_final_settlements,
    write_settlements_json, update_checkpoints, clear_checkpoints, ret.
  destruct (final_settlements_pickle (checkpoint_dir w)) as [d|] eqn:Hck.
  - cbn [fst snd checkpoint_dir settlements_json].
    destruct (high_failure_rate (failure_rate (metadata d))) eqn:Hrate;
      cbn [fst snd]; exists d; cbn [settlements_json checkpoint_dir];
      rewrite Hrate; by split.
  - destruct (finalize calculate_distance existing total geocoded not_found names)
      as [d|e] eqn:Hfin.
    + cbn [fst snd checkpoint_dir settlements_json].
      destruct (high_failure_rate (failure_rate (metadata d))) eqn:Hrate;
        cbn [fst snd]; exists d; cbn [settlements_json checkpoint_dir];
        rewrite Hrate; by split.
    + cbn [fst snd]. split; [|reflexivity].
      eapply no_exit_exits_1; [apply no_exit_finalize | exact Hfin].
Qed.

Lemma outcome_bind {A} (c : prog A) (k : A -> prog unit) :
  keeps_dataset c -> (forall a, writes_or_keeps (k a)) -> writes_or_keeps (bind c k).
Proof.
  intros Hc Hk w. unfold bind. destruct (Hc w) as [H1 H2].
  destruct (c w) as [[a|e] w1]; simpl in *.
  - specialize (Hk a w1). destruct (fst (k a w1)); [exact Hk|].
    destruct Hk as [He Hj]. split; [exact He | congruence].
  - split; [by apply H2 | exact H1].
Qed.

Lemma main_body_outcome key append :
  writes_or_keeps (main_body key geocode calculate_distance population_csv
                             missing_settlements append).
Proof.
  unfold main_body. destruct key; cbn [negb].
  - apply outcome_bind; [apply keeps_stage_1|]. intros start.
    apply outcome_bind; [apply keeps_stage_2|]. intros grouped.
    apply outcome_bind; [apply keeps_fetch_locations_batch|]. intros locations.
    apply outcome_bind; [apply keeps_stage_4|]. intros found.
    apply stage_5_outcome.
  - intros w. simpl. split; [apply exits_1_one | reflexivity].
Qed.

(** X12: a run that fails leaves the dataset alone. When [parse_args]
    exits (argparse: status 2 on a command line it rejects, status 0
    after the help), [main] ends with that very exit and has touched
    nothing. When [parse_args] returns, [main] ends with exit status 0
    or 1, whatever the inputs, the checkpoints and the answers of the
    geocoding service. In every case, when the status is not 0,
    [settlements.json] is exactly what it was before the run (absent if
    it was absent). *)
Theorem failed_run_keeps_the_dataset (key : bool) (parse_args : result bool)
    (w w' : world) (r : result unit) :
  main key geocode calculate_distance population_csv missing_settlements parse_args w
  = (r, w') ->
  (forall e, parse_args = Raise e -> r = Raise e /\ w' = w) /\
  (forall append, parse_args = Ok append ->
     exit_status r = 0 \/ exit_status r = 1) /\
  (exit_status r <> 0 -> settlements_json w' = settlements_json w).
Proof.
  intros Hrun. destruct parse_args as [append|e0].
  - rewrite main_parsed in Hrun.
    pose proof (main_body_outcome key append w) as H.
    split; [discriminate|].
    destruct (main_body key geocode calculate_distance population_csv
                        missing_settlements append w) as [[[]|e] w1];
      cbn [fst snd] in H.
    + injection Hrun as <- <-. split; [by left | done].
    + destruct H as [He Hj].
      destruct e; injection Hrun as <- <-; cbn [exit_status];
        (split; [intros _ _; try by right | intros _; exact Hj]).
      right. by apply He.
  - unfold main, bind, lift in Hrun. injection Hrun as <- <-.
    split; [by intros e [= <-]|]. split; [discriminate | done].
Qed.

(** X13: a run that succeeds has written the dataset. When [main]
    returns (exit status 0), [parse_args] had returned, the API key was
    set, and [settlements.json] holds a dataset; if the failure rate
    recorded in it is at most 0.1 every checkpoint has been cleared,
    otherwise the [final_settlements] checkpoint holds the very dataset
    that was written. *)
Theorem successful_run_writes_the_dataset (key : bool) (parse_args : result bool)
    (w w' : world) :
  main key geocode calculate_distance population_csv missing_settlements parse_args w
  = (Ok tt, w') ->
  key = true /\
  (exists append, parse_args = Ok append) /\
  exists d, settlements_json w' = Some d /\
    if high_failure_rate (failure_rate (metadata d))
    then final_settlements_pickle (checkpoint_dir w') = Some d
    else checkpoint_dir w' = no_checkpoints.
Proof.
  intros Hrun. destruct parse_args as [append|e0];
    [|unfold main, bind, lift in Hrun; discriminate].
  rewrite main_parsed in Hrun.
  pose proof (main_body_outcome key append w) as H.
  assert (Hkey : key = true).
  { destruct key; [reflexivity|]. unfold main_body in Hrun. simpl in Hrun.
    discriminate. }
  split; [exact Hkey|]. split; [by exists append|].
  destruct (main_body key geocode calculate_distance population_csv
                      missing_settlements append w) as [[[]|e] w1];
    cbn [fst snd] in H.
  - injection Hrun as <-. exact H.
  - destruct e; discriminate.
Qed.

End OrchestratorOutcome.

Lemma failed_run_keeps_the_dataset_witness :
  settlements_json
    (snd (main true never_found far_apart None (Some [("Nowhere", 5)]) (Ok true)
               stale_world))
  = settlements_json stale_world /\
  main true never_found far_apart None None (Raise (SystemExit 2)) stale_world
  = (Raise (SystemExit 2), stale_world).
Proof.
  split.
  - destruct (failed_run_keeps_the_dataset never_found far_apart None
                (Some [("Nowhere", 5)]) true (Ok true) stale_world
                (snd (main true never_found far_apart None (Some [("Nowhere", 5)])
                           (Ok true) stale_world))
                (fst (main true never_found far_apart None (Some [("Nowhere", 5)])
                           (Ok true) stale_world)))
      as (_ & _ & H).
    + apply surjective_pairing.
    + apply H. vm_compute. discriminate.
  - destruct (failed_run_keeps_the_dataset never_found far_apart None None true
                (Raise (SystemExit 2)) stale_world
                (snd (main true never_found far_apart None None
                           (Raise (SystemExit 2)) stale_world))
                (fst (main true never_found far_apart None None
                           (Raise (SystemExit 2)) stale_world)))
      as (H & _ & _).
    + apply surjective_pairing.
    + destruct (H (SystemExit 2) eq_refl) as [Hr Hw].
      rewrite (surjective_pairing (main _ _ _ _ _ _ _)). by rewrite Hr, Hw.
Defined.

Lemma successful_run_writes_the_dataset_witness :
  is_Some (settlements_json
             (snd (main true all_but_S9 far_apart (Some ten_hamlets) None (Ok false)
                        empty_world))).
Proof.
  destruct (successful_run_writes_the_dataset all_but_S9 far_apart (Some ten_hamlets)
              None true (Ok false) empty_world
              (snd (main true all_but_S9 far_apart (Some ten_hamlets) None (Ok false)
                         empty_world)))
    as (_ & _ & d & Hd & _).
  - vm_compute. reflexivity.
  - rewrite Hd. eauto.
Defined.

(** ** Stage 5: the settlements of a freshly computed dataset *)

Lemma mapM_Forall {A B} (f : A -> result B) (P : A -> Prop) (R : B -> Prop) l l' :
  (forall a b, P a -> f a = Ok b -> R b) ->
  Forall P l -> mapM f l = Ok l' -> Forall R l'.
Proof.
  intros Hf Hl. revert l'. induction Hl as [|a l Ha _ IH]; intros l' H; simpl in H.
  - injection H as <-. constructor.
  - destruct (f a) as [b|] eqn:Hb; [|discriminate]. cbn [rbind] in H.
    destruct (mapM f l) as [bs|]; [|discriminate]. cbn [rbind] in H.
    injection H as <-. constructor; [by eapply Hf | by apply IH].
Qed.

Lemma set_grid_on_grid s s' :
  located_in IRELAND_BBOX s ->
  set_grid IrelandBounds.calculate_grid_transformation s = Ok s' ->
  located_in IRELAND_BBOX s' /\ on_grid s' /\
  constituent_settlements s' = constituent_settlements s.
Proof.
  intros (la & lo & Hla & Hlo & Hbox) H.
  unfold set_grid, get_lat, get_lon in H. rewrite Hla, Hlo in H. cbn [rbind] in H.
  destruct (orchestrator_grid_range la lo Hbox) as (x & y & Ht & Hr & _).
  rewrite Ht in H. injection H as <-.
  split; [by exists la, lo|]. split; [by exists x, y | reflexivity].
Qed.

(** X14: a freshly computed dataset lies on the grid, floats idealised
    as rationals. When the records that reach stage 5 carry coordinates
    inside the Ireland bounding box and no negative population, and
    stage 5 computes a dataset (no append mode), every settlement of
    that dataset carries, in exact arithmetic, coordinates inside the
    box and grid coordinates inside [0, 50000] x [0, 50000] (the floats
    of the program are these values up to rounding, so that a record on
    the very edge of the box can be written a last digit outside it);
    it carries a list of constituents, and the metadata counts and sums
    exactly the settlements of the dataset, which are integers. *)
Theorem fresh_dataset_lies_on_the_grid (calculate_distance : Q * Q -> Q * Q -> Q)
    (total : Z) (geocoded : list settlement) (not_found names : list string)
    (d : dataset) :
  Forall (fun s => 0 <= population s) geocoded ->
  Forall (located_in IRELAND_BBOX) geocoded ->
  finalize calculate_distance None total geocoded not_found names = Ok d ->
  Forall (fun s => located_in IRELAND_BBOX s /\ on_grid s /\
                   is_Some (constituent_settlements s)) (settlements d) /\
  total_settlements (metadata d) = len (settlements d) /\
  total_population (metadata d) = sum_population (settlements d).
Proof.
  intros Hp Hbox H. unfold finalize in H.
  destruct (group_settlements _ _ geocoded) as [groups|] eqn:Hg; [|discriminate].
  cbn [rbind] in H.
  destruct (mapM process_settlement_group groups) as [finals|] eqn:Hf;
    [|discriminate].
  cbn [rbind] in H.
  destruct (mapM _ finals) as [finals'|] eqn:Hs; [|discriminate]. cbn [rbind] in H.
  unfold fresh_dataset, py_div in H.
  destruct (len names =? 0); [discriminate|]. cbn [rbind] in H.
  injection H as <-.
  cbn [metadata settlements total_population total_settlements].
  split; [|by split].
  apply group_settlements_spec in Hg.
  assert (Hfin : Forall (fun s => located_in IRELAND_BBOX s /\
                                  is_Some (constituent_settlements s)) finals).
  { eapply (mapM_Forall process_settlement_group); [|exact Hg|exact Hf].
    intros g out (_ & _ & Hmem) Hout. split.
    - apply (merged_in_box IRELAND_BBOX g out); [| |exact Hout].
      + rewrite Forall_forall in Hmem, Hp. apply Forall_forall. auto.
      + rewrite Forall_forall in Hmem, Hbox. apply Forall_forall. auto.
    - destruct (process_settlement_group_spec _ _ Hout) as (_ & _ & _ & ->). eauto. }
  eapply (mapM_Forall (set_grid _)); [|exact Hfin|exact Hs].
  intros s s' [Hin Hcs] Hs'.
  destruct (set_grid_on_grid s s' Hin Hs') as (H1 & H2 & H3).
  split; [exact H1|]. split; [exact H2|]. by rewrite H3.
Qed.

Lemma fresh_dataset_lies_on_the_grid_witness :
  exists d,
    finalize far_apart None 21000 [athlone] [] ["Athlone, Westmeath"] = Ok d /\
    Forall on_grid (settlements d).
Proof.
  destruct (finalize far_apart None 21000 [athlone] [] ["Athlone, Westmeath"])
    as [d|e] eqn:Hd; [|vm_compute in Hd; discriminate].
  exists d. split; [reflexivity|].
  destruct (fresh_dataset_lies_on_the_grid far_apart 21000 [athlone] []
              ["Athlone, Westmeath"] d) as [H _].
  - repeat constructor. simpl. lia.
  - repeat constructor. eexists _, _. split; [reflexivity|]. split; [reflexivity|].
    unfold in_bbox. simpl. repeat split; discriminate.
  - exact Hd.
  - eapply Forall_impl; [exact H|]. simpl. tauto.
Defined.

(** ** The two grid transformations *)

(** X15: the exporter's grid is the orchestrator's grid doubled. For
    every settlement with coordinates, inside the bounding box or not,
    the orchestrator stores [grid_x] and [grid_y], and the coordinates
    [transform_settlements.transform_coordinates] computes from the same
    [lat] and [lon] are exactly twice the stored ones. *)
Theorem exporter_doubles_the_grid (s : settlement) (la lo : Q) :
  lat s = Some la -> lon s = Some lo ->
  exists s' gx gy,
    set_grid IrelandBounds.calculate_grid_transformation s = Ok s' /\
    grid_x s' = Some gx /\ grid_y s' = Some gy /\
    (fst (TransformSettlements.transform_coordinates la lo) == 2 * gx)%Q /\
    (snd (TransformSettlements.transform_coordinates la lo) == 2 * gy)%Q.
Proof.
  intros Hla Hlo. unfold set_grid, get_lat, get_lon. rewrite Hla, Hlo.
  cbn [rbind IrelandBounds.transform_coordinates map].
  eexists _, _, _. split; [reflexivity|].
  cbn [grid_x grid_y fst snd]. split; [reflexivity|]. split; [reflexivity|].
  unfold TransformSettlements.transform_coordinates,
    IrelandBounds.calculate_grid_transformation.
  cbn -[Qmult Qminus Qdiv Qplus Qle Qeq].
  split; field; discriminate.
Qed.

Lemma exporter_doubles_the_grid_witness :
  exists s' gx gy,
    set_grid IrelandBounds.calculate_grid_transformation athlone = Ok s' /\
    grid_x s' = Some gx /\ grid_y s' = Some gy /\
    (fst (TransformSettlements.transform_coordinates (534 # 10) (- (79 # 10)))
     == 2 * gx)%Q /\
    (snd (TransformSettlements.transform_coordinates (534 # 10) (- (79 # 10)))
     == 2 * gy)%Q.
Proof.
  apply (exporter_doubles_the_grid athlone (534 # 10) (- (79 # 10)));
    reflexivity.
Defined.

(** ** From the pregrouper to the merger: records head their own lists *)

Lemma max_from_sorted best l :
  Forall (fun s => population s <= population best) l -> max_from best l = best.
Proof.
  unfold max_from. induction 1 as [|s l Hs _ IH]; simpl; [reflexivity|].
  replace (population best <? population s) with false
    by (symmetry; apply Z.ltb_ge; lia).
  exact IH.
Qed.

Lemma emit_group_own_name_first current others t :
  Forall census_record (current :: others) ->
  Forall (fun s => population s <= population current) others ->
  own_name_first (emit_group current others t).
Proof.
  intros Hc Hle. destruct others as [|o others].
  - apply Forall_cons in Hc as [Hc _]. exists []. simpl.
    unfold constituents_or_name. unfold census_record in Hc. by rewrite Hc.
  - unfold emit_group, own_name_first, constituents_or_name.
    cbn [constituent_settlements name default].
    rewrite max_from_sorted by exact Hle.
    unfold collect_constituents. cbn [flat_map]. unfold listed_names at 1.
    cbn [app]. rewrite fromkeys_cons. eauto.
Qed.

Lemma groups_of_own_name_first m rs out :
  groups_of m rs out -> Forall census_record rs -> StronglySorted desc rs ->
  Forall own_name_first out.
Proof.
  induction 1 as [|current others|current others rest out Hm Hne Hg IH];
    intros Hc Hs.
  - constructor.
  - constructor; [|constructor].
    apply emit_group_own_name_first; [exact Hc|].
    inversion Hs as [|? ? _ Hle]; subst. exact Hle.
  - change (current :: others ++ rest) with ((current :: others) ++ rest) in *.
    apply Forall_app in Hc as [Hc1 Hc2].
    pose proof (StronglySorted_app_1_l _ _ _ Hs) as Hs1.
    pose proof (StronglySorted_app_1_r _ _ _ Hs) as Hs2.
    constructor; [|by apply IH].
    apply emit_group_own_name_first; [exact Hc1|].
    inversion Hs1 as [|? ? _ Hle]; subst. exact Hle.
Qed.

Lemma regions_own_name_first m d :
  Forall census_record (region_members d) ->
  Forall own_name_first
    (flat_map (fun kv => process_region m (sort_desc (snd kv))) d).
Proof.
  unfold region_members.
  induction d as [|[k l] d IH]; intros Hc; [constructor|].
  simpl in *. apply Forall_app in Hc as [Hc1 Hc2].
  apply Forall_app. split; [|by apply IH].
  apply (groups_of_own_name_first m (sort_desc l));
    [apply process_region_groups | by rewrite (sort_desc_perm l)
    | apply sort_desc_sorted].
Qed.

Lemma census_own_name_first l :
  Forall census_record l -> Forall own_name_first l.
Proof.
  intros H. eapply Forall_impl; [exact H|]. intros s Hs. exists [].
  unfold constituents_or_name. unfold census_record in Hs. by rewrite Hs.
Qed.

Lemma geocoded_self_headed locations grouped :
  Forall own_name_first grouped -> Forall self_headed (geocoded_of locations grouped).
Proof.
  unfold geocoded_of.
  induction 1 as [|s grouped [tl Hs] _ IH]; simpl; [constructor|].
  destruct (attach_coordinates locations grouped) as [[found nf] det].
  simpl in IH. destruct (locations !! name s); simpl; [|exact IH].
  constructor; [|exact IH].
  intros cs. cbn [constituent_settlements name]. intros [= <-]. eauto.
Qed.

Lemma pregroup_own_name_first (ss : list settlement) (m n : Z)
    (grouped : list settlement) :
  Forall census_record ss ->
  pregroup_small_settlements ss m n = Ok grouped ->
  Forall own_name_first grouped.
Proof.
  intros Hc Hout.
  rewrite pregroup_small_settlements_eq in Hout. injection Hout as <-.
  destruct (Z.of_nat (length ss) <=? n); [by apply census_own_name_first|].
  unfold grouped_result.
  assert (Hperm :
    filter (fun s => m <= population s) (sort_desc ss)
    ++ filter (fun s => population s < m) (sort_desc ss) ≡ₚ ss)
    by (rewrite split_perm; apply sort_desc_perm).
  assert (Hc' := Hc). rewrite <- Hperm in Hc'.
  apply Forall_app in Hc' as [Hk Hr].
  apply Forall_app. split; [by apply census_own_name_first|].
  apply regions_own_name_first. by rewrite by_admin_region_members.
Qed.

(** X16: the records of the pipeline head their own constituent lists.
    For census records, whatever the floor and the target count, every
    record [pregroup_small_settlements] returns stands for a list of
    names that starts with the record's own name (a merged record is
    named after the first, most populous member of its group); hence
    every record stage 4 hands to the clusterer and the merger carries
    constituents that start with its own name. *)
Theorem pipeline_records_head_their_lists (ss : list settlement) (m n : Z)
    (grouped : list settlement) (locations : gmap string (Q * Q)) :
  Forall census_record ss ->
  pregroup_small_settlements ss m n = Ok grouped ->
  Forall own_name_first grouped /\
  Forall self_headed (geocoded_of locations grouped).
Proof.
  intros Hc Hout.
  pose proof (pregroup_own_name_first ss m n grouped Hc Hout) as H.
  split; [exact H | by apply geocoded_self_headed].
Qed.

Lemma pipeline_records_head_their_lists_witness :
  Forall own_name_first (grouped_result scenario_input 1000) /\
  Forall self_headed (geocoded_of ∅ (grouped_result scenario_input 1000)).
Proof.
  apply (pipeline_records_head_their_lists scenario_input 1000 1).
  - repeat constructor.
  - reflexivity.
Defined.

(** ** The search text: [clean_search_name] *)

Lemma append_assoc (a b c : string) : ((a ++ b) ++ c = a ++ b ++ c)%string.
Proof.
  induction a as [|x a IH]; [reflexivity|].
  change (String x ((a ++ b) ++ c) = String x (a ++ b ++ c))%string.
  by rewrite IH.
Qed.

Lemma contains_app c a b :
  Str.contains c (a ++ b)%string = Str.contains c a || Str.contains c b.
Proof.
  induction a as [|x a IH]; simpl; [reflexivity|].
  rewrite IH. by rewrite orb_assoc.
Qed.

Lemma split_parts_free c s :
  Forall (fun p => Str.contains c p = false) (Str.split c s).
Proof.
  induction s as [|a s IH]; simpl; [repeat constructor|].
  destruct (Ascii.eqb a c) eqn:Ha; [by constructor|].
  destruct (Str.split c s) as [|p ps]; [repeat constructor; simpl; by rewrite Ha|].
  apply Forall_cons in IH as [Hp Hps].
  constructor; [simpl; by rewrite Ha, Hp | exact Hps].
Qed.

Lemma lstrip_free c s :
  Str.contains c s = false -> Str.contains c (Str.lstrip s) = false.
Proof.
  induction s as [|a s IH]; simpl; [done|].
  intros H. apply orb_false_iff in H as [Ha Hs].
  destruct (Str.is_space a); [by apply IH | simpl; by rewrite Ha, Hs].
Qed.

Lemma rstrip_free c s :
  Str.contains c s = false -> Str.contains c (Str.rstrip s) = false.
Proof.
  induction s as [|a s IH]; simpl; [done|].
  intros H. apply orb_false_iff in H as [Ha Hs]. specialize (IH Hs).
  destruct (Str.rstrip s) as [|b r].
  - destruct (Str.is_space a); simpl; [done | by rewrite Ha].
  - cbn [Str.contains]. rewrite Ha. exact IH.
Qed.

Lemma strip_free c s :
  Str.contains c s = false -> Str.contains c (Str.strip s) = false.
Proof. intros H. unfold Str.strip. by apply rstrip_free, lstrip_free. Qed.

Lemma replace_from_free c old new s : forall k,
  Str.contains c new = false -> Str.contains c s = false ->
  Str.contains c (Text.replace_from old new k s) = false.
Proof.
  induction s as [|a s IH]; intros k Hnew Hs; cbn [Text.replace_from]; [done|].
  simpl in Hs. apply orb_false_iff in Hs as [Ha Hs].
  destruct k as [|k]; [|by apply IH].
  destruct (String.prefix old (String a s)).
  - rewrite contains_app, Hnew. by apply IH.
  - cbn [Str.contains]. rewrite Ha. by apply IH.
Qed.

Lemma replace_all_free c olds s :
  Str.contains c s = false ->
  Str.contains c (fold_left (fun acc old => Text.replace old "" acc) olds s) = false.
Proof.
  revert s. induction olds as [|old olds IH]; intros s Hs; simpl; [exact Hs|].
  apply IH. by apply replace_from_free.
Qed.

Lemma words_from_free c s : forall cur,
  Str.contains c cur = false -> Str.contains c s = false ->
  Forall (fun w => Str.contains c w = false) (Text.words_from cur s).
Proof.
  induction s as [|a s IH]; intros cur Hcur Hs; simpl.
  - destruct cur; repeat constructor. exact Hcur.
  - simpl in Hs. apply orb_false_iff in Hs as [Ha Hs].
    destruct (Str.is_space a).
    + destruct cur; [by apply IH|]. constructor; [exact Hcur | by apply IH].
    + apply IH; [|exact Hs]. rewrite contains_app, Hcur. simpl. by rewrite Ha.
Qed.

Lemma join_free c sep l :
  Str.contains c sep = false ->
  Forall (fun w => Str.contains c w = false) l ->
  Str.contains c (Text.join sep l) = false.
Proof.
  intros Hsep. induction 1 as [|x l Hx Hl IH]; [reflexivity|].
  destruct l as [|y l]; [exact Hx|].
  change (Text.join sep (x :: y :: l))
    with (x ++ sep ++ Text.join sep (y :: l))%string.
  by rewrite !contains_app, Hx, Hsep, IH.
Qed.

Lemma Forall_list_filter {A} (P : A -> Prop) (f : A -> bool) l :
  Forall P l -> Forall P (List.filter f l).
Proof.
  induction 1 as [|x l Hx _ IH]; simpl; [constructor|].
  destruct (f x); [by constructor | exact IH].
Qed.

(** A string that does not start with white space. *)
Lemma lstrip_head s :
  match Str.lstrip s with
  | EmptyString => True
  | String a _ => Str.is_space a = false
  end.
Proof.
  induction s as [|a s IH]; simpl; [done|].
  destruct (Str.is_space a) eqn:Ha; [exact IH | exact Ha].
Qed.

Lemma rstrip_rstrip s : Str.rstrip (Str.rstrip s) = Str.rstrip s.
Proof.
  induction s as [|a s IH]; simpl; [reflexivity|].
  destruct (Str.rstrip s) as [|b r] eqn:Hr.
  - destruct (Str.is_space a) eqn:Ha; simpl; [reflexivity | by rewrite Ha].
  - cbn [Str.rstrip]. cbn [Str.rstrip] in IH. rewrite IH. reflexivity.
Qed.

Lemma lstrip_rstrip_head s :
  match s with
  | EmptyString => True
  | String a _ => Str.is_space a = false
  end ->
  Str.lstrip (Str.rstrip s) = Str.rstrip s.
Proof.
  destruct s as [|a s]; [reflexivity|]. intros Ha. cbn [Str.rstrip].
  destruct (Str.rstrip s); [rewrite Ha|]; cbn [Str.lstrip]; by rewrite Ha.
Qed.

Lemma strip_strip s : Str.strip (Str.strip s) = Str.strip s.
Proof.
  unfold Str.strip.
  rewrite (lstrip_rstrip_head (Str.lstrip s)) by apply lstrip_head.
  apply rstrip_rstrip.
Qed.

Lemma region_is_stripped n :
  Str.strip (get_admin_region n) = get_admin_region n /\
  Str.contains comma (get_admin_region n) = false.
Proof.
  unfold get_admin_region.
  pose proof (split_parts_free comma n) as H.
  destruct (Str.split comma n) as [|p [|r ps]]; simpl; [done|done|].
  apply Forall_cons in H as [_ H]. apply Forall_cons in H as [Hr _].
  split; [apply strip_strip | by apply strip_free].
Qed.

Lemma after_first_app c a b :
  Str.contains c a = false ->
  Str.after_first c (a ++ String c b)%string = Some b.
Proof.
  induction a as [|x a IH]; simpl.
  - intros _. by rewrite Ascii.eqb_refl.
  - intros H. apply orb_false_iff in H as [Hx Ha]. rewrite Hx. by apply IH.
Qed.

Lemma split_app_comma c a b :
  Str.contains c a = false ->
  Str.split c (a ++ String c b)%string = a :: Str.split c b.
Proof.
  induction a as [|x a IH]; simpl.
  - intros _. by rewrite Ascii.eqb_refl.
  - intros H. apply orb_false_iff in H as [Hx Ha]. rewrite Hx, (IH Ha). reflexivity.
Qed.

(** The region of [a, b] and of [a, b, c] is [b], stripped. *)
Lemma region_of_joined a r :
  Str.contains comma a = false ->
  Str.contains comma r = false ->
  get_admin_region (a ++ ", " ++ r)%string = Str.strip r /\
  forall rest, get_admin_region (a ++ ", " ++ r ++ ", " ++ rest)%string = Str.strip r.
Proof.
  intros Ha Hr.
  assert (Hl : forall x, Str.strip (" " ++ x)%string = Str.strip x) by reflexivity.
  unfold get_admin_region. split; [|intros rest].
  - change (", " ++ r)%string with (String comma (" " ++ r)%string).
    rewrite split_app_comma by exact Ha.
    rewrite split_no_comma by exact Hr. simpl. apply Hl.
  - change (", " ++ r ++ ", " ++ rest)%string
      with (String comma ((" " ++ r) ++ String comma (" " ++ rest))%string).
    rewrite split_app_comma by exact Ha.
    rewrite split_app_comma by exact Hr. simpl. apply Hl.
Qed.

Lemma cleaned_name_free n :
  Str.contains comma
    (Str.strip
       (Text.join " "
          (List.filter (fun part => negb (Str.contains "("%char part)
                                    && negb (Str.contains ")"%char part))
             (Text.words
                (fold_left (fun acc old => Text.replace old "" acc) search_qualifiers
                   match map Str.strip (Str.split comma n) with
                   | p :: _ => p
                   | [] => ""
                   end))))) = false.
Proof.
  apply strip_free, join_free; [reflexivity|].
  apply Forall_list_filter, words_from_free; [reflexivity|].
  apply replace_all_free.
  pose proof (split_parts_free comma n) as H.
  destruct (Str.split comma n) as [|p ps]; [reflexivity|].
  apply Forall_cons in H as [Hp _]. simpl. by apply strip_free.
Qed.

(** X17: the search text keeps the administrative region. For every
    name, the region [get_admin_region] reads from
    [clean_search_name(name)] is the region it reads from the name
    itself; and in the query sent to the geocoder the second
    comma-separated field is that region, or [Ireland] when the name
    has none. *)
Theorem search_name_keeps_the_region (n : string) :
  get_admin_region (clean_search_name n) = get_admin_region n /\
  get_admin_region (search_query n)
  = match get_admin_region n with
    | EmptyString => "Ireland"
    | r => r
    end.
Proof.
  destruct (region_is_stripped n) as [Hstrip Hfree].
  pose proof (cleaned_name_free n) as Hname.
  unfold search_query, clean_search_name.
  fold (get_admin_region n).
  set (cleaned := Str.strip (Text.join _ _)) in *.
  destruct (get_admin_region n) as [|a r] eqn:Hr.
  - split; [by apply get_admin_region_no_comma|].
    exact (proj1 (region_of_joined cleaned "Ireland" Hname eq_refl)).
  - destruct (region_of_joined cleaned (String a r) Hname Hfree) as [H1 H2].
    rewrite Hstrip in H1, H2. split; [exact H1|].
    rewrite append_assoc. exact (H2 "Ireland").
Qed.

(** ** The analysis of the census names absent from the dataset *)

Lemma assoc_app d1 d2 n :
  assoc (d1 ++ d2) n = match assoc d1 n with Some v => Some v | None => assoc d2 n end.
Proof.
  induction d1 as [|[k v] d1 IH]; simpl; [reflexivity|].
  case_decide; [reflexivity | exact IH].
Qed.

Lemma assoc_dict_set d k v n :
  assoc (AnalyzeMissing.dict_set d k v) n
  = if decide (k = n) then Some v else assoc d n.
Proof.
  induction d as [|[k' v'] d IH]; simpl; [reflexivity|].
  destruct (decide (k' = k)) as [->|Hk]; simpl.
  - by destruct (decide (k = n)).
  - rewrite IH. destruct (decide (k' = n)) as [->|]; [|reflexivity].
    by rewrite decide_False.
Qed.

Lemma keys_dict_set d k v n :
  n ∈ map fst (AnalyzeMissing.dict_set d k v) <-> n = k \/ n ∈ map fst d.
Proof.
  induction d as [|[k' v'] d IH]; simpl; [set_solver|].
  case_decide; simpl; [set_solver|].
  rewrite !elem_of_cons, IH. tauto.
Qed.

Lemma NoDup_dict_set d k v :
  NoDup (map fst d) -> NoDup (map fst (AnalyzeMissing.dict_set d k v)).
Proof.
  induction d as [|[k' v'] d IH]; simpl; intros H.
  - apply NoDup_singleton.
  - inversion H as [|? ? Hk' Hd]; subst. case_decide; simpl.
    + by constructor.
    + constructor; [|by apply IH].
      change (k' ∉ map fst (AnalyzeMissing.dict_set d k v)).
      rewrite keys_dict_set. intros [->|Hin]; [congruence | tauto].
Qed.

Lemma dict_of_rows rows : forall d0,
  NoDup (map fst d0) ->
  let d := fold_left (fun d r => AnalyzeMissing.dict_set d (fst r) (snd r)) rows d0 in
  NoDup (map fst d) /\
  forall n, assoc d n = match last_row rows n with
                        | Some v => Some v
                        | None => assoc d0 n
                        end.
Proof.
  unfold last_row.
  induction rows as [|[k v] rows IH]; intros d0 Hd0; simpl; [by split|].
  destruct (IH (AnalyzeMissing.dict_set d0 k v) (NoDup_dict_set _ _ _ Hd0))
    as [H1 H2].
  split; [exact H1|]. intros n. rewrite H2, assoc_app, assoc_dict_set. simpl.
  destruct (assoc (rev rows) n); [reflexivity|].
  by destruct (decide (k = n)).
Qed.

Lemma assoc_filter (S : gset string) d n :
  assoc (filter (fun np => fst np ∉ S) d) n
  = if decide (n ∈ S) then None else assoc d n.
Proof.
  induction d as [|[k v] d IH]; simpl; [by case_decide|].
  rewrite filter_cons. simpl.
  destruct (decide (k ∉ S)) as [Hk|Hk]; simpl.
  - destruct (decide (k = n)) as [->|]; [|exact IH].
    destruct (decide (n ∈ S)) as [Hn|]; [by destruct (Hk Hn) | reflexivity].
  - rewrite IH. destruct (decide (k = n)) as [->|]; [|reflexivity].
    destruct (decide (n ∈ S)) as [|Hn]; [reflexivity | by destruct (Hk Hn)].
Qed.

Lemma keys_filter (P : string * Z -> Prop) `{!forall x, Decision (P x)} d n :
  n ∈ map fst (filter P d) -> n ∈ map fst d.
Proof.
  induction d as [|[k v] d IH]; simpl; [done|].
  rewrite filter_cons. case_decide; simpl; set_solver.
Qed.

Lemma NoDup_keys_filter (P : string * Z -> Prop) `{!forall x, Decision (P x)} d :
  NoDup (map fst d) -> NoDup (map fst (filter P d)).
Proof.
  induction d as [|[k v] d IH]; simpl; intros Hnd; [constructor|].
  inversion Hnd as [|? ? Hk Hd]; subst.
  rewrite filter_cons. case_decide; simpl; [|by apply IH].
  constructor; [|by apply IH].
  intros Hin. apply Hk. by eapply keys_filter.
Qed.

Lemma fold_sum_values d : forall acc,
  fold_left (fun acc np => acc + snd np) d acc = acc + sum_values d.
Proof.
  induction d as [|x d IH]; intros acc; simpl; [lia|].
  rewrite IH. lia.
Qed.

Lemma json_names data names n :
  AnalyzeMissing.load_json_settlements (Some data) = Ok names ->
  n ∈ names <-> listed_in data n.
Proof.
  unfold AnalyzeMissing.load_json_settlements, listed_in.
  generalize (settlements data). intros l H.
  destruct (mapM _ l) as [lists|] eqn:Hl; [|discriminate].
  cbn [rbind] in H. injection H as <-.
  rewrite elem_of_list_to_set.
  revert lists Hl. induction l as [|s l IH]; intros lists Hl; simpl in Hl.
  - injection Hl as <-. simpl. split; [by intros ?%elem_of_nil|].
    intros (s & cs & Hs & _). by apply elem_of_nil in Hs.
  - destruct (constituent_settlements s) as [cs|] eqn:Hcs; [|discriminate].
    cbn [rbind] in Hl.
    destruct (mapM _ l) as [lists'|]; [|discriminate]. cbn [rbind] in Hl.
    injection Hl as <-. cbn [concat]. rewrite elem_of_app, (IH lists' eq_refl).
    split.
    + intros [Hn|(s' & cs' & Hs' & Hcs' & Hn)].
      * exists s, cs. split; [set_solver|]. by split.
      * exists s', cs'. split; [set_solver|]. by split.
    + intros (s' & cs' & Hs' & Hcs' & Hn).
      apply elem_of_cons in Hs' as [->|Hs'].
      * left. congruence.
      * right. by exists s', cs'.
Qed.

Lemma length_filter_le {A} (P : A -> Prop) `{!forall x, Decision (P x)} (l : list A) :
  (length (filter P l) <= length l)%nat.
Proof.
  induction l as [|x l IH]; simpl; [lia|].
  rewrite filter_cons. case_decide; simpl; lia.
Qed.

(** X18: the analysis lists exactly the census names the dataset lacks.
    Whenever [analyze_missing_settlements] returns, the dict
    [missing_settlements] has one entry for every census name that is
    not among the constituents of the dataset and none for any other
    name, and the entry holds the population of the last census row of
    that name; [total_missing] counts these entries,
    [total_missing_population] is the sum of their populations, and
    [percentage_missing] lies between 0 and 100. *)
Theorem analysis_lists_the_absent_names (data : dataset) (rows : list (string * Z))
    (out : AnalyzeMissing.analysis) :
  AnalyzeMissing.analyze_missing_settlements (Some data) (Some rows) = Ok out ->
  let missing := AnalyzeMissing.missing_settlements out in
  let meta := AnalyzeMissing.metadata out in
  NoDup (map fst missing) /\
  (forall n, listed_in data n -> assoc missing n = None) /\
  (forall n, ~ listed_in data n -> assoc missing n = last_row rows n) /\
  AnalyzeMissing.total_missing meta = len missing /\
  AnalyzeMissing.total_missing_population meta = sum_values missing /\
  (0 <= AnalyzeMissing.percentage_missing meta <= 100)%Q.
Proof.
  unfold AnalyzeMissing.analyze_missing_settlements. intros H.
  destruct (AnalyzeMissing.load_json_settlements (Some data)) as [names|] eqn:Hj;
    [|discriminate].
  cbn [rbind AnalyzeMissing.load_csv_settlements] in H.
  set (d := fold_left _ rows []) in H.
  destruct (dict_of_rows rows [] (NoDup_nil_2 (A:=string))) as [Hnd Hassoc]. fold d in Hnd, Hassoc.
  unfold py_div in H.
  destruct (len d =? 0) eqn:Hz; [discriminate|]. cbn [rbind] in H.
  injection H as <-.
  cbn [AnalyzeMissing.missing_settlements AnalyzeMissing.metadata
       AnalyzeMissing.total_missing AnalyzeMissing.total_missing_population
       AnalyzeMissing.percentage_missing].
  split; [by apply NoDup_keys_filter|].
  split; [|split; [|split; [reflexivity|split]]].
  - intros n Hn. rewrite assoc_filter, decide_True; [reflexivity|].
    by apply (json_names data names n Hj).
  - intros n Hn. rewrite assoc_filter, decide_False.
    + rewrite Hassoc. by destruct (last_row rows n).
    + by rewrite (json_names data names n Hj).
  - rewrite fold_sum_values. lia.
  - apply Z.eqb_neq in Hz.
    pose proof (length_filter_le (fun np => fst np ∉ names) d) as Hle.
    unfold len in *.
    set (a := length (filter _ d)) in *. set (b := length d) in *.
    assert (Hb : (0 < inject_Z (Z.of_nat b))%Q).
    { change 0%Q with (inject_Z 0). rewrite <- Zlt_Qlt. lia. }
    assert (Ha : (0 <= inject_Z (Z.of_nat a))%Q).
    { change 0%Q with (inject_Z 0). rewrite <- Zle_Qle. lia. }
    assert (Hab : (inject_Z (Z.of_nat a) <= inject_Z (Z.of_nat b))%Q).
    { rewrite <- Zle_Qle. lia. }
    split.
    + apply Qmult_le_0_compat; [|discriminate].
      apply Qle_shift_div_l; [exact Hb|]. lra.
    + assert (H1 : (inject_Z (Z.of_nat a) / inject_Z (Z.of_nat b) <= 1)%Q).
      { apply Qle_shift_div_r; [exact Hb|]. lra. }
      lra.
Qed.

Lemma analysis_lists_the_absent_names_witness :
  exists out,
    AnalyzeMissing.analyze_missing_settlements (Some small_dataset)
      (Some [("Cork, Cork", 1000); ("Inch, Kerry", 10); ("Inch, Kerry", 12)])
    = Ok out /\
    assoc (AnalyzeMissing.missing_settlements out) "Inch, Kerry" = Some 12 /\
    AnalyzeMissing.total_missing_population (AnalyzeMissing.metadata out)
    = sum_values (AnalyzeMissing.missing_settlements out).
Proof.
  destruct (AnalyzeMissing.analyze_missing_settlements (Some small_dataset)
              (Some [("Cork, Cork", 1000); ("Inch, Kerry", 10); ("Inch, Kerry", 12)]))
    as [out|e] eqn:Hout; [|vm_compute in Hout; discriminate].
  exists out. split; [reflexivity|].
  destruct (analysis_lists_the_absent_names small_dataset
              [("Cork, Cork", 1000); ("Inch, Kerry", 10); ("Inch, Kerry", 12)]
              out Hout) as (_ & _ & Habsent & _ & Hsum & _).
  split; [|exact Hsum].
  rewrite Habsent; [reflexivity|].
  intros (s & cs & Hs & Hcs & Hn). simpl in Hs.
  apply list_elem_of_singleton in Hs as ->. simpl in Hcs. injection Hcs as <-.
  apply list_elem_of_singleton in Hn. discriminate.
Defined.

(** *** The regions of the analysis *)

Lemma region_append_members d k x :
  concat (map snd (AnalyzeMissing.region_append d k x)) ≡ₚ x :: concat (map snd d).
Proof.
  induction d as [|[k' l] d IH]; simpl; [reflexivity|].
  case_decide; simpl.
  - rewrite <- app_assoc. simpl. symmetry. apply Permutation_middle.
  - rewrite IH. symmetry. apply Permutation_middle.
Qed.

Lemma region_append_keys d k x k' :
  k' ∈ map fst (AnalyzeMissing.region_append d k x) <-> k' = k \/ k' ∈ map fst d.
Proof.
  induction d as [|[k0 l] d IH]; simpl; [set_solver|].
  case_decide; simpl; [set_solver|].
  rewrite !elem_of_cons, IH. tauto.
Qed.

Lemma region_append_keyed d x :
  NoDup (map fst d) ->
  Forall (fun kv => snd kv <> [] /\
            Forall (fun np => AnalyzeMissing.region_key (fst np) = fst kv) (snd kv)) d ->
  let d' := AnalyzeMissing.region_append d (AnalyzeMissing.region_key (fst x)) x in
  NoDup (map fst d') /\
  Forall (fun kv => snd kv <> [] /\
            Forall (fun np => AnalyzeMissing.region_key (fst np) = fst kv) (snd kv)) d'.
Proof.
  intros Hnd Hall. induction d as [|[k0 l] d IH]; simpl.
  - split; [apply NoDup_singleton|]. repeat constructor. discriminate.
  - inversion Hnd as [|? ? Hk0 Hnd']; subst.
    inversion Hall as [|? ? [Hne Hl] Hall']; subst. simpl in *.
    case_decide as Hk; simpl.
    + split; [exact Hnd|]. constructor; [|exact Hall']. simpl. split.
      * intros Happ. by apply app_eq_nil in Happ as [_ ?].
      * apply Forall_app. split; [exact Hl|]. by repeat constructor.
    + destruct (IH Hnd' Hall') as [IH1 IH2]. split.
      * constructor; [|exact IH1].
        change (k0 ∉ map fst (AnalyzeMissing.region_append d
                                (AnalyzeMissing.region_key (fst x)) x)).
        rewrite region_append_keys. intros [->|Hin]; [congruence | tauto].
      * by constructor.
Qed.

Lemma regions_of_missing missing : forall d,
  NoDup (map fst d) ->
  Forall (fun kv => snd kv <> [] /\
            Forall (fun np => AnalyzeMissing.region_key (fst np) = fst kv) (snd kv)) d ->
  let d' := fold_left (fun d np => AnalyzeMissing.region_append d
                                     (AnalyzeMissing.region_key (fst np)) np)
                      missing d in
  NoDup (map fst d') /\
  Forall (fun kv => snd kv <> [] /\
            Forall (fun np => AnalyzeMissing.region_key (fst np) = fst kv) (snd kv)) d' /\
  concat (map snd d') ≡ₚ missing ++ concat (map snd d).
Proof.
  induction missing as [|x missing IH]; intros d Hnd Hall; simpl; [by repeat split|].
  destruct (region_append_keyed d x Hnd Hall) as [H1 H2].
  destruct (IH _ H1 H2) as (H3 & H4 & H5).
  split; [exact H3|]. split; [exact H4|].
  rewrite H5, region_append_members. symmetry. apply Permutation_middle.
Qed.

Lemma split_two_parts n :
  Str.contains comma n = true ->
  exists p r ps, Str.split comma n = p :: r :: ps.
Proof.
  induction n as [|a n IH]; simpl; [discriminate|].
  destruct (Ascii.eqb a comma) eqn:Ha; simpl.
  - intros _. destruct (Str.split comma n) as [|r ps] eqn:Hs;
      [by apply split_nonempty in Hs | eauto].
  - intros Hn. destruct (IH Hn) as (p & r & ps & ->). eauto.
Qed.

(** X19: the regions of the analysis. Whenever
    [analyze_missing_settlements] returns, [missing_by_region] files
    every entry of [missing_settlements] exactly once, under the region
    key of its name, with no key repeated and no key left without an
    entry. For a name with a comma the key is the administrative region
    [get_admin_region] reads from it; a name without a comma is filed
    under [Unknown], where [get_admin_region] reads the empty string. *)
Theorem analysis_files_by_region (data : dataset) (rows : list (string * Z))
    (out : AnalyzeMissing.analysis) :
  AnalyzeMissing.analyze_missing_settlements (Some data) (Some rows) = Ok out ->
  let regions := AnalyzeMissing.missing_by_region out in
  NoDup (map fst regions) /\
  concat (map snd regions) ≡ₚ AnalyzeMissing.missing_settlements out /\
  Forall (fun kv => snd kv <> [] /\
            Forall (fun np => AnalyzeMissing.region_key (fst np) = fst kv) (snd kv))
         regions /\
  forall n,
    AnalyzeMissing.region_key n
    = if Str.contains comma n then get_admin_region n else "Unknown".
Proof.
  unfold AnalyzeMissing.analyze_missing_settlements. intros H.
  destruct (AnalyzeMissing.load_json_settlements (Some data)) as [names|];
    [|discriminate].
  cbn [rbind AnalyzeMissing.load_csv_settlements] in H.
  destruct (py_div _ _) as [ratio|]; [|discriminate]. cbn [rbind] in H.
  injection H as <-.
  cbn [AnalyzeMissing.missing_settlements AnalyzeMissing.missing_by_region].
  match goal with |- context [fold_left _ ?m []] =>
    destruct (regions_of_missing m [] (NoDup_nil_2 (A:=string)) (Forall_nil_2 _))
      as (H1 & H2 & H3)
  end.
  simpl in H3. rewrite app_nil_r in H3.
  split; [exact H1|]. split; [exact H3|]. split; [exact H2|].
  intros n. unfold AnalyzeMissing.region_key, get_admin_region.
  destruct (Str.contains comma n) eqn:Hn.
  - destruct (split_two_parts n Hn) as (p & r & ps & ->). reflexivity.
  - by rewrite split_no_comma.
Qed.

Lemma analysis_files_by_region_witness :
  exists out,
    AnalyzeMissing.analyze_missing_settlements (Some small_dataset)
      (Some [("Cork, Cork", 1000); ("Inch, Kerry", 10); ("Tory", 12)])
    = Ok out /\
    concat (map snd (AnalyzeMissing.missing_by_region out))
    ≡ₚ AnalyzeMissing.missing_settlements out.
Proof.
  destruct (AnalyzeMissing.analyze_missing_settlements (Some small_dataset)
              (Some [("Cork, Cork", 1000); ("Inch, Kerry", 10); ("Tory", 12)]))
    as [out|e] eqn:Hout; [|vm_compute in Hout; discriminate].
  exists out. split; [reflexivity|].
  by destruct (analysis_files_by_region small_dataset
                 [("Cork, Cork", 1000); ("Inch, Kerry", 10); ("Tory", 12)]
                 out Hout) as (_ & H & _).
Defined.

(** *** From the analysis to append mode *)

Lemma sum_population_leaves d :
  sum_population (map (fun np => leaf (fst np) (snd np)) d) = sum_values d.
Proof. induction d as [|x d IH]; simpl; [reflexivity | by rewrite IH]. Qed.

(** X20: append mode takes up exactly what the analysis found missing.
    When [settlements.json] holds a dataset and
    [analyze_missing_settlements] has returned on it, stage 1 of the
    orchestrator in append mode, reading the [missing_settlements] of
    that analysis, loads the dataset, clears the checkpoints and hands
    on census records with distinct names, none of them listed among
    the constituents of the dataset, whose populations sum to the
    [total_missing_population] of the analysis. *)
Theorem append_takes_up_the_missing (data : dataset) (rows : list (string * Z))
    (out : AnalyzeMissing.analysis) (population_csv : option (list settlement))
    (w : world) :
  settlements_json w = Some data ->
  AnalyzeMissing.analyze_missing_settlements (settlements_json w) (Some rows) = Ok out ->
  exists cso w',
    stage_1 population_csv (Some (AnalyzeMissing.missing_settlements out)) true w
    = (Ok (Some data, cso), w') /\
    checkpoint_dir w' = no_checkpoints /\
    settlements_json w' = Some data /\
    Forall census_record cso /\
    NoDup (map name cso) /\
    Forall (fun s => ~ listed_in data (name s)) cso /\
    sum_population cso
    = AnalyzeMissing.total_missing_population (AnalyzeMissing.metadata out).
Proof.
  intros Hw H. rewrite Hw in H.
  unfold AnalyzeMissing.analyze_missing_settlements in H.
  destruct (AnalyzeMissing.load_json_settlements (Some data)) as [names|] eqn:Hj;
    [|discriminate].
  cbn [rbind AnalyzeMissing.load_csv_settlements] in H.
  set (d := fold_left _ rows []) in H.
  destruct (dict_of_rows rows [] (NoDup_nil_2 (A:=string))) as [Hnd _]. fold d in Hnd.
  destruct (py_div _ _) as [ratio|]; [|discriminate]. cbn [rbind] in H.
  injection H as <-.
  cbn [AnalyzeMissing.missing_settlements AnalyzeMissing.metadata
       AnalyzeMissing.total_missing_population].
  set (missing := filter (fun np => fst np ∉ names) d).
  eexists _, _. split.
  { unfold stage_1, bind, load_existing_settlements, load_missing_settlements,
      clear_checkpoints, update_checkpoints, ret.
    rewrite Hw. reflexivity. }
  cbn [checkpoint_dir settlements_json].
  split; [reflexivity|]. split; [exact Hw|]. split; [|split; [|split]].
  - apply Forall_forall. intros s Hs. rewrite list_elem_of_In, in_map_iff in Hs.
    by destruct Hs as (np & <- & _).
  - rewrite map_map. simpl. by apply NoDup_keys_filter.
  - apply Forall_forall. intros s Hs. rewrite list_elem_of_In, in_map_iff in Hs.
    destruct Hs as (np & <- & Hnp). rewrite <- list_elem_of_In in Hnp.
    apply list_elem_of_filter in Hnp as [Hnp _]. simpl.
    by rewrite <- (json_names data names _ Hj).
  - rewrite sum_population_leaves, fold_sum_values. lia.
Qed.

Lemma append_takes_up_the_missing_witness :
  exists out cso w',
    AnalyzeMissing.analyze_missing_settlements (settlements_json stale_world)
      (Some [("Cork, Cork", 1000); ("Inch, Kerry", 10); ("Inch, Kerry", 12)])
    = Ok out /\
    stage_1 None (Some (AnalyzeMissing.missing_settlements out)) true stale_world
    = (Ok (Some small_dataset, cso), w') /\
    sum_population cso
    = AnalyzeMissing.total_missing_population (AnalyzeMissing.metadata out).
Proof.
  destruct (AnalyzeMissing.analyze_missing_settlements (settlements_json stale_world)
              (Some [("Cork, Cork", 1000); ("Inch, Kerry", 10); ("Inch, Kerry", 12)]))
    as [out|e] eqn:Hout; [|vm_compute in Hout; discriminate].
  destruct (append_takes_up_the_missing small_dataset
              [("Cork, Cork", 1000); ("Inch, Kerry", 10); ("Inch, Kerry", 12)]
              out None stale_world eq_refl Hout)
    as (cso & w' & Hrun & _ & _ & _ & _ & _ & Hsum).
  by exists out, cso, w'.
Defined.

(** *** The failures of the analysis *)

Lemma load_json_total data :
  Forall (fun s => is_Some (constituent_settlements s)) (settlements data) ->
  exists names, AnalyzeMissing.load_json_settlements (Some data) = Ok names.
Proof.
  unfold AnalyzeMissing.load_json_settlements.
  generalize (settlements data). intros l H.
  assert (Hl : exists lists,
    mapM (fun s => match constituent_settlements s with
                   | Some cs => Ok cs
                   | None => Raise (KeyError "constituent_settlements")
                   end) l = Ok lists).
  { induction H as [|s l [cs Hs] _ [lists IH]]; simpl; [eauto|].
    rewrite Hs, IH. simpl. eauto. }
  destruct Hl as [lists ->]. simpl. eauto.
Qed.

Lemma load_json_key_error data :
  Exists (fun s => constituent_settlements s = None) (settlements data) ->
  AnalyzeMissing.load_json_settlements (Some data)
  = Raise (KeyError "constituent_settlements").
Proof.
  unfold AnalyzeMissing.load_json_settlements.
  generalize (settlements data). intros l H.
  assert (Hl : mapM (fun s => match constituent_settlements s with
                              | Some cs => Ok cs
                              | None => Raise (KeyError "constituent_settlements")
                              end) l = Raise (KeyError "constituent_settlements")).
  { induction l as [|s l IH]; [by apply Exists_nil in H|]. simpl.
    destruct (constituent_settlements s) as [cs|] eqn:Hs; [|reflexivity].
    simpl. rewrite IH; [reflexivity|].
    apply Exists_cons in H as [H|H]; [congruence | exact H]. }
  by rewrite Hl.
Qed.

Lemma dict_set_nonempty d k v : AnalyzeMissing.dict_set d k v <> [].
Proof. destruct d as [|[k' v'] d]; simpl; [done|]. by case_decide. Qed.

Lemma dict_of_rows_nonempty rows : forall d,
  (rows <> [] \/ d <> []) ->
  fold_left (fun d r => AnalyzeMissing.dict_set d (fst r) (snd r)) rows d <> [].
Proof.
  induction rows as [|r rows IH]; intros d H; simpl.
  - by destruct H.
  - apply IH. right. apply dict_set_nonempty.
Qed.

(** X21: the failures of the analysis. With both files present, the
    analysis returns whenever every settlement of the dataset carries
    the key [constituent_settlements] and the census has a row; on a
    census without rows it raises [ZeroDivisionError]; and a settlement
    without the key makes it raise [KeyError], whatever the census. *)
Theorem analysis_failures (data : dataset) (csv_file : option (list (string * Z))) :
  (Forall (fun s => is_Some (constituent_settlements s)) (settlements data) ->
   (forall rows, csv_file = Some rows -> rows <> [] ->
      exists out,
        AnalyzeMissing.analyze_missing_settlements (Some data) csv_file = Ok out) /\
   (csv_file = Some [] ->
      AnalyzeMissing.analyze_missing_settlements (Some data) csv_file
      = Raise ZeroDivisionError) /\
   (csv_file = None ->
      AnalyzeMissing.analyze_missing_settlements (Some data) csv_file
      = Raise (SystemExit 1))) /\
  (Exists (fun s => constituent_settlements s = None) (settlements data) ->
   AnalyzeMissing.analyze_missing_settlements (Some data) csv_file
   = Raise (KeyError "constituent_settlements")).
Proof.
  unfold AnalyzeMissing.analyze_missing_settlements. split.
  - intros Hall. destruct (load_json_total data Hall) as [names ->].
    cbn [rbind]. split; [|split].
    + intros rows -> Hne. cbn [rbind AnalyzeMissing.load_csv_settlements].
      pose proof (dict_of_rows_nonempty rows [] (or_introl Hne)) as Hd.
      unfold py_div.
      replace (len _ =? 0) with false; [cbn [rbind]; eauto|].
      symmetry. apply Z.eqb_neq. unfold len.
      destruct (fold_left _ rows []); [done | simpl; lia].
    + intros ->. reflexivity.
    + intros ->. reflexivity.
  - intros Hex. by rewrite load_json_key_error.
Qed.

Lemma analysis_failures_witness :
  AnalyzeMissing.analyze_missing_settlements (Some small_dataset) (Some [])
  = Raise ZeroDivisionError.
Proof.
  destruct (analysis_failures small_dataset (Some [])) as [H _].
  destruct H as (_ & H & _); [|by apply H].
  repeat constructor. simpl. eauto.
Defined.

(** ** The export of the dataset *)

Lemma exporter_insert_perm x l : Exporter.insert_desc x l ≡ₚ x :: l.
Proof.
  induction l as [|y l IH]; simpl; [reflexivity|].
  destruct (Exporter.population x <? Exporter.population y); [|reflexivity].
  rewrite IH. apply Permutation_swap.
Qed.

Lemma exporter_sort_perm l : Exporter.sort_desc l ≡ₚ l.
Proof.
  induction l as [|x l IH]; simpl; [reflexivity|].
  rewrite exporter_insert_perm. by rewrite IH.
Qed.

Lemma exporter_insert_sorted x l :
  StronglySorted exported_desc l ->
  StronglySorted exported_desc (Exporter.insert_desc x l).
Proof.
  induction 1 as [|y l Hl IH Hy]; simpl; [repeat constructor|].
  destruct (Exporter.population x <? Exporter.population y) eqn:E.
  - apply Z.ltb_lt in E. constructor; [exact IH|].
    rewrite exporter_insert_perm. constructor; [unfold exported_desc; lia | exact Hy].
  - apply Z.ltb_ge in E. constructor; [by constructor|].
    constructor; [exact E|].
    eapply Forall_impl; [exact Hy|]. unfold exported_desc. simpl. intros. lia.
Qed.

Lemma exporter_sort_sorted l : StronglySorted exported_desc (Exporter.sort_desc l).
Proof.
  induction l as [|x l IH]; simpl; [constructor | by apply exporter_insert_sorted].
Qed.

Lemma sum_exported l : forall acc,
  fold_left (fun acc r => acc + Exporter.population r) l acc
  = acc + fold_right Z.add 0 (map Exporter.population l).
Proof.
  induction l as [|x l IH]; intros acc; simpl; [lia|].
  rewrite IH. lia.
Qed.

Lemma sum_Z_perm (l1 l2 : list Z) :
  l1 ≡ₚ l2 -> fold_right Z.add 0 l1 = fold_right Z.add 0 l2.
Proof. induction 1; simpl; lia. Qed.

Lemma sum_population_map l :
  sum_population l = fold_right Z.add 0 (map population l).
Proof. induction l as [|x l IH]; simpl; [reflexivity | by rewrite IH]. Qed.

Lemma export_settlement_spec s r :
  Exporter.export_settlement s = Ok r ->
  Exporter.population r = population s /\
  Exporter.name r = Exporter.clean_settlement_name (name s) /\
  exists la lo, lat s = Some la /\ lon s = Some lo /\
    Exporter.coordinate r = TransformSettlements.transform_coordinates la lo.
Proof.
  destruct s as [n p la lo gx gy cs]. unfold Exporter.export_settlement, get_lat, get_lon.
  simpl. destruct la as [la|]; [|discriminate]. destruct lo as [lo|]; [|discriminate].
  simpl. intros [= <-]. simpl. repeat split. by exists la, lo.
Qed.

Lemma export_all_populations l rs :
  mapM Exporter.export_settlement l = Ok rs ->
  map Exporter.population rs = map population l.
Proof.
  revert rs. induction l as [|s l IH]; intros rs H; simpl in H.
  - by injection H as <-.
  - destruct (Exporter.export_settlement s) as [r|] eqn:Hr; [|discriminate].
    cbn [rbind] in H.
    destruct (mapM Exporter.export_settlement l) as [rs'|]; [|discriminate].
    cbn [rbind] in H. injection H as <-. simpl.
    destruct (export_settlement_spec s r Hr) as [-> _]. by rewrite (IH rs').
Qed.

(** X22: the export is the dataset, sorted. Whenever
    [transform_settlements] returns, the exported settlements are in
    descending order of population and carry exactly the populations of
    the settlements of the dataset, one record each;
    [total_settlements] is their number and [total_population] the sum
    of the populations of the dataset; and when every settlement of the
    dataset lies inside the Ireland bounding box, every exported
    coordinate lies inside the coordinate system the metadata
    declares. *)
Theorem export_is_the_dataset_sorted (data : dataset) (out : Exporter.export) :
  Exporter.transform_settlements (Some data) = Ok out ->
  StronglySorted exported_desc (Exporter.settlements out) /\
  map Exporter.population (Exporter.settlements out)
  ≡ₚ map population (settlements data) /\
  Exporter.total_settlements (Exporter.metadata out) = len (settlements data) /\
  Exporter.total_population (Exporter.metadata out)
  = sum_population (settlements data) /\
  (Forall (located_in IRELAND_BBOX) (settlements data) ->
   Forall (in_coordinate_system (Exporter.metadata out)) (Exporter.settlements out)).
Proof.
  unfold Exporter.transform_settlements, Exporter.export_all. intros H.
  destruct (mapM Exporter.export_settlement (settlements data)) as [rs|] eqn:Hrs;
    [|discriminate].
  cbn [rbind] in H. injection H as <-.
  cbn [Exporter.settlements Exporter.metadata].
  set (m := Exporter.mkExportMetadata _ _ _ _).
  assert (Hm : Exporter.coordinate_system m = (0%Q, 100000%Q, 0%Q, 100000%Q))
    by reflexivity.
  assert (Hn : Exporter.total_settlements m = len (Exporter.sort_desc rs))
    by reflexivity.
  assert (Ht : Exporter.total_population m
               = fold_left (fun acc r => acc + Exporter.population r)
                           (Exporter.sort_desc rs) 0) by reflexivity.
  clearbody m. rewrite Hn, Ht.
  pose proof (export_all_populations _ _ Hrs) as Hpop.
  pose proof (exporter_sort_perm rs) as Hperm.
  split; [apply exporter_sort_sorted|]. split; [|split; [|split]].
  - rewrite (Permutation_map Exporter.population Hperm). by rewrite Hpop.
  - unfold len. rewrite (Permutation_length Hperm).
    rewrite <- (length_map Exporter.population rs), Hpop. by rewrite length_map.
  - rewrite sum_exported, sum_population_map, <- Hpop.
    rewrite (sum_Z_perm _ _ (Permutation_map Exporter.population Hperm)). lia.
  - intros Hbox. rewrite Hperm.
    eapply (mapM_Forall Exporter.export_settlement); [|exact Hbox|exact Hrs].
    intros s r (la & lo & Hla & Hlo & Hin) Hr.
    destruct (export_settlement_spec s r Hr) as (_ & _ & la' & lo' & Hla' & Hlo' & Hc).
    rewrite Hla in Hla'. rewrite Hlo in Hlo'. injection Hla' as <-. injection Hlo' as <-.
    destruct (exporter_grid_range la lo Hin) as [(H1 & H2 & H3 & H4) _].
    unfold in_coordinate_system. rewrite Hm, Hc. by repeat split.
Qed.

Lemma export_is_the_dataset_sorted_witness :
  exists out,
    Exporter.transform_settlements (Some small_dataset) = Ok out /\
    Exporter.total_population (Exporter.metadata out) = 1000.
Proof.
  destruct (Exporter.transform_settlements (Some small_dataset))
    as [out|e] eqn:Hout; [|vm_compute in Hout; discriminate].
  exists out. split; [reflexivity|].
  by destruct (export_is_the_dataset_sorted small_dataset out Hout)
    as (_ & _ & _ & -> & _).
Defined.

(** X23: the exported name has lost its region. For every name,
    [clean_settlement_name] returns a text without a comma and without
    white space at either end, so [get_admin_region] reads no region
    from an exported name. *)
Theorem exported_name_has_no_region (n : string) :
  Str.contains comma (Exporter.clean_settlement_name n) = false /\
  Str.strip (Exporter.clean_settlement_name n) = Exporter.clean_settlement_name n /\
  get_admin_region (Exporter.clean_settlement_name n) = "".
Proof.
  assert (H : Str.contains comma (Exporter.clean_settlement_name n) = false).
  { unfold Exporter.clean_settlement_name.
    apply strip_free, replace_all_free, strip_free.
    pose proof (split_parts_free comma n) as Hp.
    destruct (Str.split comma n) as [|p ps]; [reflexivity|].
    by apply Forall_cons in Hp as [Hp _]. }
  split; [exact H|]. split; [apply strip_strip|].
  by apply get_admin_region_no_comma.
Qed.

(** ** The orchestrator: what the geocoding service is asked *)

Lemma silent_ret {A} (a : A) : silent (ret a).
Proof. by intros w. Qed.

Lemma silent_raise {A} e : silent (@raise A e).
Proof. by intros w. Qed.

Lemma silent_lift {A} (r : result A) : silent (lift r).
Proof. by intros w. Qed.

Lemma silent_bind {A B} (c : prog A) (k : A -> prog B) :
  silent c -> (forall a, silent (k a)) -> silent (bind c k).
Proof.
  intros Hc Hk w. unfold bind. specialize (Hc w).
  destruct (c w) as [[a|e] w1]; simpl in *; [|exact Hc].
  by rewrite Hk.
Qed.

Lemma silent_load {A} (file : checkpoints -> option A) : silent (load_checkpoint file).
Proof. by intros w. Qed.

Lemma silent_update f : silent (update_checkpoints f).
Proof. by intros w. Qed.

Lemma silent_save_unmatched d : silent (save_unmatched_settlements d).
Proof. by intros w. Qed.

Lemma silent_write d : silent (write_settlements_json d).
Proof. by intros w. Qed.

Lemma heads_carried l x :
  Forall own_name_first l -> x ∈ map name l -> x ∈ names_carried l.
Proof.
  unfold names_carried. induction 1 as [|s l [tl Hs] _ IH]; simpl; [done|].
  rewrite elem_of_cons, elem_of_app, Hs. intros [->|Hx]; [set_solver|].
  right. by apply IH.
Qed.

Lemma heads_NoDup l :
  Forall own_name_first l -> NoDup (names_carried l) -> NoDup (map name l).
Proof.
  unfold names_carried. induction 1 as [|s l [tl Hs] Hl IH]; simpl; [constructor|].
  intros Hnd. apply NoDup_app in Hnd as (_ & Hdisj & Hnd).
  constructor; [|by apply IH].
  intros Hin. apply (Hdisj (name s)); [rewrite Hs; set_solver|].
  by apply heads_carried.
Qed.

Section OrchestratorRequests.
Variable geocode : list string -> string -> option (Q * Q).
Variable calculate_distance : Q * Q -> Q * Q -> Q.
Variable population_csv : option (list settlement).
Variable missing_settlements : option (list (string * Z)).

Lemma silent_stage_1 append :
  silent (stage_1 population_csv missing_settlements append).
Proof.
  unfold stage_1, load_existing_settlements, load_missing_settlements,
    fetch_cso_settlements, clear_checkpoints, save_cso_settlements.
  destruct append.
  - apply silent_bind; [by intros w|].
    intros [existing|]; [|apply silent_raise].
    apply silent_bind.
    + destruct missing_settlements; [apply silent_ret | apply silent_raise].
    + intros cso. apply silent_bind; [apply silent_update|]. intros _. apply silent_ret.
  - apply silent_bind; [apply silent_load|].
    intros [cso|]; [apply silent_ret|].
    apply silent_bind.
    + destruct population_csv as [[|s l]|];
        [apply silent_raise | apply silent_ret | apply silent_raise].
    + intros cso. apply silent_bind; [apply silent_update|]. intros _. apply silent_ret.
Qed.

Lemma silent_stage_2 cso : silent (stage_2 cso).
Proof.
  unfold stage_2, save_grouped_settlements.
  apply silent_bind; [apply silent_load|].
  intros [grouped|]; [apply silent_ret|].
  apply silent_bind; [apply silent_lift|].
  intros g. apply silent_bind; [apply silent_update|]. intros _. apply silent_ret.
Qed.

Lemma silent_stage_4 grouped locations : silent (stage_4 grouped locations).
Proof.
  unfold stage_4, save_processed_settlements, failure_gate.
  destruct (attach_coordinates locations grouped) as [[geocoded not_found] details].
  apply silent_bind; [apply silent_update|]. intros _.
  apply silent_bind.
  { destruct details; [apply silent_ret | apply silent_save_unmatched]. }
  intros _. apply silent_bind.
  { destruct not_found as [|n not_found]; [apply silent_ret|].
    apply silent_bind; [apply silent_lift|].
    intros rate. destruct (high_failure_rate rate);
      [apply silent_raise | apply silent_ret]. }
  intros _. destruct geocoded; [apply silent_raise | apply silent_ret].
Qed.

Lemma silent_stage_5 existing total geocoded not_found names :
  silent (stage_5 calculate_distance existing total geocoded not_found names).
Proof.
  unfold stage_5, save_final_settlements, clear_checkpoints.
  apply silent_bind; [apply silent_load|]. intros loaded.
  apply silent_bind.
  { destruct loaded; [apply silent_ret|].
    apply silent_bind; [apply silent_lift|]. intros d.
    apply silent_bind; [apply silent_update|]. intros _. apply silent_ret. }
  intros d. apply silent_bind; [apply silent_write|]. intros _.
  destruct (high_failure_rate _); [apply silent_ret | apply silent_update].
Qed.

(** The requests of a run: none, or those of stage 3 for the names of
    the pregrouped records that the [locations] checkpoint lacks. *)
Lemma main_body_requests append w r w' :
  main_body true geocode calculate_distance population_csv missing_settlements
            append w = (r, w') ->
  requests w' = requests w \/
  exists existing cso w1 grouped w2,
    stage_1 population_csv missing_settlements append w = (Ok (existing, cso), w1) /\
    stage_2 cso w1 = (Ok grouped, w2) /\
    requests w'
    = requests w
      ++ filter (fun n => default ∅ (locations_pickle (checkpoint_dir w2)) !! n = None)
                (map name grouped).
Proof.
  intros Hrun. unfold main_body in Hrun. cbn [negb] in Hrun.
  unfold bind at 1 in Hrun.
  pose proof (silent_stage_1 append w) as S1.
  destruct (stage_1 population_csv missing_settlements append w)
    as [[[existing cso]|e] w1] eqn:H1; cbn [fst snd] in *;
    [|injection Hrun as <- <-; by left].
  unfold bind at 1 in Hrun.
  pose proof (silent_stage_2 cso w1) as S2.
  destruct (stage_2 cso w1) as [[grouped|e] w2] eqn:H2; cbn [fst snd] in *;
    [|injection Hrun as <- <-; left; congruence].
  right. exists existing, cso, w1, grouped, w2.
  split; [reflexivity|]. split; [exact H2|].
  cbv beta zeta in Hrun. unfold bind at 1 in Hrun.
  destruct (fetch_locations_batch_run geocode (map name grouped) 49 w2)
    as (locations & w3 & Hfetch & Hreq & _).
  rewrite Hfetch in Hrun.
  match type of Hrun with ?c w3 = _ => assert (Hs : silent c) end.
  { apply silent_bind; [apply silent_stage_4|]. intros found. apply silent_stage_5. }
  specialize (Hs w3). rewrite Hrun in Hs. cbn [snd] in Hs.
  rewrite Hs, Hreq. congruence.
Qed.

(** X24: the geocoding service is asked about heads only. In a run
    without append mode that starts without checkpoints on census
    records, whatever its outcome, the requests sent to the service
    are none at all or exactly the names of the pregrouped records, in
    order: never more requests than census rows, only names of census
    rows (the head of each merged record, never its other
    constituents), and no name twice when the census names are
    distinct. *)
Theorem geocoder_is_asked_for_heads_only (rows : list settlement) (w w' : world)
    (r : result unit) :
  population_csv = Some rows ->
  checkpoint_dir w = no_checkpoints ->
  Forall census_record rows ->
  main true geocode calculate_distance population_csv missing_settlements (Ok false) w
  = (r, w') ->
  exists asked grouped,
    requests w' = requests w ++ asked /\
    pregroup_default rows = Ok grouped /\
    (asked = [] \/ asked = map name grouped) /\
    (length asked <= length rows)%nat /\
    (forall n, n ∈ asked -> n ∈ map name rows) /\
    (NoDup (map name rows) -> NoDup asked).
Proof.
  intros Hcsv Hck Hc Hrun.
  assert (Hw' : w' = snd (main_body true geocode calculate_distance population_csv
                                    missing_settlements false w)).
  { rewrite main_parsed in Hrun.
    destruct (main_body _ _ _ _ _ _ w) as [[[]|e] wb]; [|destruct e];
      by injection Hrun as <- <-. }
  destruct (pregroup_default rows) as [grouped|] eqn:Hg;
    [|unfold pregroup_default in Hg; by rewrite pregroup_small_settlements_eq in Hg].
  assert (Hcar : (forall x, x ∈ names_carried grouped <-> x ∈ map name rows) /\
                 (NoDup (map name rows) -> names_carried grouped ≡ₚ map name rows)).
  { pose proof Hg as Hg'. unfold pregroup_default in Hg'.
    rewrite pregroup_small_settlements_eq in Hg'. injection Hg' as <-.
    destruct (_ <=? _); [|by apply grouped_result_names].
    rewrite census_names_carried by exact Hc. by split. }
  destruct Hcar as [Helem Hcperm].
  assert (Hnames : forall n, n ∈ map name grouped -> n ∈ map name rows).
  { intros n Hn. apply Helem.
    apply heads_carried; [|exact Hn].
    by apply (pregroup_own_name_first rows 1000 1000). }
  assert (Hlen : (length (map name grouped) <= length rows)%nat).
  { rewrite length_map. unfold pregroup_default in Hg.
    rewrite pregroup_small_settlements_eq in Hg. injection Hg as <-.
    destruct (_ <=? _); [lia | apply length_grouped_result]. }
  assert (Hnd : NoDup (map name rows) -> NoDup (map name grouped)).
  { intros Hnd. apply heads_NoDup.
    - by apply (pregroup_own_name_first rows 1000 1000).
    - by rewrite (Hcperm Hnd). }
  destruct (main_body_requests false w _ _ (surjective_pairing _)) as [Hq|Hq];
    rewrite <- Hw' in Hq.
  - exists [], grouped. rewrite Hq, app_nil_r.
    repeat split; try done; [by left | simpl; lia | by intros n ?%elem_of_nil
                            | intros _; constructor].
  - destruct Hq as (existing & cso & w1 & grouped' & w2 & H1 & H2 & Hq).
    exists (map name grouped), grouped.
    assert (Hcso : cso = rows /\ checkpoint_dir w1
                   = mkCheckpoints (Some rows) None None None None).
    { unfold stage_1, bind, load_checkpoint, fetch_cso_settlements,
        save_cso_settlements, update_checkpoints, ret, raise in H1.
      rewrite Hck, Hcsv in H1. cbn in H1.
      destruct rows as [|s0 rows0]; [discriminate|].
      cbn in H1. injection H1 as _ <- <-. cbn. by rewrite Hck. }
    destruct Hcso as [-> Hck1].
    assert (Hgr : grouped' = grouped /\ locations_pickle (checkpoint_dir w2) = None).
    { unfold stage_2, bind, load_checkpoint, lift, save_grouped_settlements,
        update_checkpoints, ret in H2.
      rewrite Hck1 in H2. cbn [grouped_settlements_pickle] in H2.
      rewrite Hg in H2. cbn in H2. injection H2 as <- <-.
      split; [reflexivity|]. cbn. by rewrite Hck1. }
    destruct Hgr as [-> Hloc]. rewrite Hloc in Hq. cbn [default] in Hq.
    rewrite filter_all in Hq
      by (apply Forall_forall; intros n _; apply lookup_empty).
    split; [exact Hq|]. split; [reflexivity|]. split; [by right|].
    split; [exact Hlen|]. split; [exact Hnames | exact Hnd].
Qed.

End OrchestratorRequests.

Lemma geocoder_is_asked_for_heads_only_witness :
  exists asked,
    requests (snd (main true all_but_S9 far_apart (Some ten_hamlets) None (Ok false)
                        empty_world))
    = asked /\ (length asked <= 10)%nat.
Proof.
  destruct (geocoder_is_asked_for_heads_only all_but_S9 far_apart (Some ten_hamlets)
              None ten_hamlets empty_world
              (snd (main true all_but_S9 far_apart (Some ten_hamlets) None (Ok false)
                         empty_world))
              (fst (main true all_but_S9 far_apart (Some ten_hamlets) None (Ok false)
                         empty_world)))
    as (asked & grouped & Hreq & _ & _ & Hlen & _).
  - reflexivity.
  - reflexivity.
  - repeat constructor.
  - apply surjective_pairing.
  - exists asked. split; [exact Hreq | exact Hlen].
Defined.
